(** * Virtual-server lifecycle service: a shallow embedding and its properties

    The Go program keeps two tables in a relational store (servers and
    ip_addresses) and drives them from three services: the request-side
    [ServerService], the [IPAllocator] and the [BillingDaemon].  The store
    statements are embedded from their SQL text, the services from their Go
    text, as programs of a monad that threads the store and can return,
    panic or exit the process. *)

From Stdlib Require Import ZArith NArith List String Ascii Bool Lia.
From Stdlib Require Import DecimalString Permutation.
From Stdlib Require QArith.
Import ListNotations.

Open Scope string_scope.

(** ** Go values *)

(** The double quote, for the JSON text the services build by hand. *)
Definition dq : string := String (ascii_of_nat 34) EmptyString.

(** Go's [(T, error)] and [error] results: an error is its message. *)
Inductive result (A : Type) : Type :=
| Ok (a : A)
| Err (e : string).
Arguments Ok {A} a.
Arguments Err {A} e.

Definition is_ok {A} (r : result A) : bool :=
  match r with Ok _ => true | Err _ => false end.

(** [strings.Contains]. *)
Definition Contains (s substr : string) : bool :=
  match index 0 substr s with Some _ => true | None => false end.

(** [int64] arithmetic wraps around. *)
Definition wrap64 (z : Z) : Z := ((z + 2 ^ 63) mod 2 ^ 64 - 2 ^ 63)%Z.

(** [time.Duration] is an [int64] count of nanoseconds; [Time.Sub]
    saturates at the two ends of the range. *)
Definition maxDuration : Z := (2 ^ 63 - 1)%Z.
Definition minDuration : Z := (- 2 ^ 63)%Z.
Definition Second : Z := 1000000000%Z.

(** Instants are nanoseconds since the epoch. *)
Definition Time := Z.
Bind Scope Z_scope with Time.

Definition Sub (t u : Time) : Z :=
  Z.max minDuration (Z.min maxDuration (t - u)%Z).

(** Stand-in for the layout of [Time.String]: the decimal count.  Nothing
    below depends on the layout. *)
Definition TimeString (t : Time) : string := NilZero.string_of_int (Z.to_int t).

(** [pgtype.UUID]; the store draws fresh ones from a counter.  Its text form
    is the decimal count; nothing below depends on the text form. *)
Definition UUID := N.
Bind Scope N_scope with UUID.
Definition UUIDString (u : UUID) : string := NilZero.string_of_uint (N.to_uint u).

(** [float64] amounts are carried as rationals; no arithmetic is done on
    them in the code embedded here. *)
Definition float64 := QArith_base.Q.

(** ** internal/util *)

Module util.

Definition ServerStatusProvisioning := "provisioning".
Definition ServerStatusRunning := "running".
Definition ServerStatusStopped := "stopped".
Definition ServerStatusTerminated := "terminated".

(** [IsValidTransition]: a switch on the current status. *)
Definition IsValidTransition (currentStatus desiredStatus : string) : bool :=
  if currentStatus =? ServerStatusProvisioning then
    (desiredStatus =? ServerStatusRunning) || (desiredStatus =? ServerStatusTerminated)
  else if currentStatus =? ServerStatusRunning then
    (desiredStatus =? ServerStatusStopped) || (desiredStatus =? ServerStatusTerminated)
  else if currentStatus =? ServerStatusStopped then
    (desiredStatus =? ServerStatusRunning) || (desiredStatus =? ServerStatusTerminated)
  else if currentStatus =? ServerStatusTerminated then
    false
  else
    false.

Definition ServerTypeT2Micro := "t2.micro".
Definition ServerTypeM5Large := "m5.large".
Definition ServerTypeC5Xlarge := "c5.xlarge".

(** [IsValidServerType]: one case for the three names. *)
Definition IsValidServerType (serverType : string) : bool :=
  (serverType =? ServerTypeT2Micro) || (serverType =? ServerTypeM5Large)
  || (serverType =? ServerTypeC5Xlarge).

End util.

(** ** The rows of the two tables (migrations/schema.sql) *)

Module Server.
Record t : Type := mk {
  ID : UUID;
  Name : string;
  Region : string;
  Status : string;
  Address : string;
  Type_ : string;
  ProvisionedAt : Time;
  LastStatusUpdate : Time;
  UptimeSeconds : Z;
  HourlyCost : float64;
  LifecycleLogs : list string;   (* the elements of the JSONB array, as text *)
  CreatedAt : Time;
  UpdatedAt : Time }.

(** The zero value [sqlc.Server{}]. *)
Definition zero : t :=
  mk 0%N "" "" "" "" "" 0%Z 0%Z 0%Z (QArith_base.Qmake 0 1) [] 0%Z 0%Z.

Definition set_status (st : string) (at_ : Time) (s : t) : t :=
  mk (ID s) (Name s) (Region s) st (Address s) (Type_ s) (ProvisionedAt s)
     at_ (UptimeSeconds s) (HourlyCost s) (LifecycleLogs s) (CreatedAt s)
     (UpdatedAt s).

Definition set_uptime (n : Z) (at_ : Time) (s : t) : t :=
  mk (ID s) (Name s) (Region s) (Status s) (Address s) (Type_ s)
     (ProvisionedAt s) (LastStatusUpdate s) n (HourlyCost s) (LifecycleLogs s)
     (CreatedAt s) at_.

Definition set_logs (l : list string) (s : t) : t :=
  mk (ID s) (Name s) (Region s) (Status s) (Address s) (Type_ s)
     (ProvisionedAt s) (LastStatusUpdate s) (UptimeSeconds s) (HourlyCost s) l
     (CreatedAt s) (UpdatedAt s).
End Server.

Module IpAddress.
Record t : Type := mk {
  ID : UUID;
  Address : string;
  IsAllocated : bool;
  ServerID : option UUID;        (* NULL is None *)
  CreatedAt : Time;
  UpdatedAt : Time }.

(** The zero value [sqlc.IpAddress{}]. *)
Definition zero : t := mk 0%N "" false None 0%Z 0%Z.

Definition set_owner (alloc : bool) (owner : option UUID) (at_ : Time) (a : t) : t :=
  mk (ID a) (Address a) alloc owner (CreatedAt a) at_.

(** The eligibility test of the pool: not allocated and no owner. *)
Definition free (a : t) : bool :=
  negb (IsAllocated a) && match ServerID a with None => true | Some _ => false end.
End IpAddress.

(** ** The store *)

(** The statements of the two query files, as they appear in the log of
    statements the store has received. *)
Inductive Query : Type :=
| QCreateIPAddress (address : string)
| QGetAvailableIPForAllocation
| QAllocateIPAddress (serverID id : UUID)
| QDeallocateIPAddress (id : UUID)
| QGetIPAddressByServerID (serverID : UUID)
| QTruncateIPAddresses
| QCreateNewServer (name region status type_ address : string)
| QGetServer (id : UUID)
| QListServers (status : string)
| QUpdateServerStatus (status : string) (id : UUID)
| QUpdateServerUptime (uptime : Z) (id : UUID)
| QAppendServerLifecycleLog (message : string) (id : UUID)
| QEnforceLifecycleLogsLimit (id : UUID)
| QTerminateAllServers.

(** The store: the two tables, the clock read by [NOW()] and [time.Now()],
    the supply of fresh ids, the statements received so far (oldest first),
    and what the environment does to the statements still to come: [Some e]
    makes the next statement fail with error [e] without touching a row (a
    lost connection, a missing relation, a malformed JSON parameter), [None]
    or no entry lets it run. *)
Record DB : Type := mkDB {
  servers : list Server.t;
  ip_addresses : list IpAddress.t;
  now : Time;
  next_uuid : UUID;
  faults : list (option string);
  trace : list Query }.

Definition with_servers (l : list Server.t) (db : DB) : DB :=
  mkDB l (ip_addresses db) (now db) (next_uuid db) (faults db) (trace db).

Definition with_ips (l : list IpAddress.t) (db : DB) : DB :=
  mkDB (servers db) l (now db) (next_uuid db) (faults db) (trace db).

Definition bump_uuid (db : DB) : DB :=
  mkDB (servers db) (ip_addresses db) (now db) (N.succ (next_uuid db))
       (faults db) (trace db).

Definition received (q : Query) (db : DB) : DB :=
  mkDB (servers db) (ip_addresses db) (now db) (next_uuid db)
       (tl (faults db)) (trace db ++ [q])%list.

(** ** The monad of the services *)

(** A call returns, panics, or ends the process with [os.Exit]. *)
Inductive outcome (A : Type) : Type :=
| Returns (a : A)
| Panics (msg : string)
| Exits (code : Z).
Arguments Returns {A} a.
Arguments Panics {A} msg.
Arguments Exits {A} code.

Definition Go (A : Type) : Type := DB -> outcome A * DB.

Definition ret {A} (a : A) : Go A := fun db => (Returns a, db).

Definition bind {A B} (m : Go A) (k : A -> Go B) : Go B :=
  fun db =>
    match m db with
    | (Returns a, db') => k a db'
    | (Panics msg, db') => (Panics msg, db')
    | (Exits c, db') => (Exits c, db')
    end.

Definition panic {A} (msg : string) : Go A := fun db => (Panics msg, db).
Definition osExit {A} (code : Z) : Go A := fun db => (Exits code, db).
Definition timeNow : Go Time := fun db => (Returns (now db), db).

Notation "x <- c1 ;; c2" := (bind c1 (fun x => c2))
  (at level 61, c1 at next level, right associativity).
Notation "c1 ;;; c2" := (bind c1 (fun _ => c2))
  (at level 61, right associativity).

Definition nil_dereference : string :=
  "runtime error: invalid memory address or nil pointer dereference".

(** A statement sent to the store: it is logged, takes the next entry of
    [faults], and runs on the tables unless the environment fails it. *)
Definition statement {A} (q : Query) (run : DB -> result A * DB) : Go (result A) :=
  fun db =>
    let db' := received q db in
    match faults db with
    | Some e :: _ => (Returns (Err e), db')
    | _ => let (r, db'') := run db' in (Returns r, db'')
    end.

Definition ErrNoRows : string := "no rows in result set".
Definition ErrTooLong : string := "value too long for type character varying".
Definition ErrUnique : string := "duplicate key value violates unique constraint".
Definition ErrForeignKey : string := "violates foreign key constraint".

(** VARCHAR(n): the text has at most [n] characters. *)
Definition fits (n : nat) (s : string) : bool := Nat.leb (String.length s) n.

(** ** The statements (sql/ip_address.sql, sql/servers.sql)

    A statement marked [:one] yields the first row it selects or returns,
    and the error [ErrNoRows] when there is none; one marked [:exec] yields
    no row and does not fail when it touches none. *)

Module sqlc.

Definition one {A} (rows : list A) : result A :=
  match rows with
  | r :: _ => Ok r
  | [] => Err ErrNoRows
  end.

(** [UPDATE t SET ... WHERE p]. *)
Definition update_where {A} (p : A -> bool) (f : A -> A) (rows : list A) : list A :=
  map (fun r => if p r then f r else r) rows.

Definition server_is (id : UUID) (s : Server.t) : bool := N.eqb (Server.ID s) id.
Definition ip_is (id : UUID) (a : IpAddress.t) : bool := N.eqb (IpAddress.ID a) id.

Definition owned_by (serverID : UUID) (a : IpAddress.t) : bool :=
  match IpAddress.ServerID a with
  | Some o => N.eqb o serverID
  | None => false
  end.

(** The text PostgreSQL gives back for a JSONB array. *)
Definition jsonb_out (elems : list string) : string :=
  "[" ++ String.concat ", " elems ++ "]".

(** -- name: CreateIPAddress :one
    INSERT INTO ip_addresses (address) VALUES ($1) RETURNING *;
    with address VARCHAR(15) NOT NULL UNIQUE. *)
Definition CreateIPAddress (address : string) : Go (result IpAddress.t) :=
  statement (QCreateIPAddress address) (fun db =>
    if negb (fits 15 address) then (Err ErrTooLong, db)
    else if existsb (fun a => IpAddress.Address a =? address) (ip_addresses db)
    then (Err ErrUnique, db)
    else
      let row := IpAddress.mk (next_uuid db) address false None (now db) (now db) in
      (Ok row, bump_uuid (with_ips (ip_addresses db ++ [row])%list db))).

(** ORDER BY created_at ASC LIMIT 1: the earliest row; among equally old
    rows the one stored first. *)
Fixpoint earliest (rows : list IpAddress.t) : option IpAddress.t :=
  match rows with
  | [] => None
  | r :: rest =>
      match earliest rest with
      | Some r' =>
          if (IpAddress.CreatedAt r' <? IpAddress.CreatedAt r)%Z then Some r' else Some r
      | None => Some r
      end
  end.

(** -- name: GetAvailableIPForAllocation :one
    SELECT * FROM ip_addresses WHERE is_allocated = FALSE AND server_id IS NULL
    ORDER BY created_at ASC FOR UPDATE SKIP LOCKED LIMIT 1;
    a read: no row changes. *)
Definition GetAvailableIPForAllocation : Go (result IpAddress.t) :=
  statement QGetAvailableIPForAllocation (fun db =>
    match earliest (filter IpAddress.free (ip_addresses db)) with
    | Some r => (Ok r, db)
    | None => (Err ErrNoRows, db)
    end).

(** -- name: AllocateIPAddress :one
    UPDATE ip_addresses SET is_allocated = TRUE, server_id = $1, updated_at = NOW()
    WHERE id = $2 AND is_allocated = FALSE AND server_id IS NULL RETURNING *;
    with server_id UUID UNIQUE REFERENCES servers(id). *)
Definition AllocateIPAddress (serverID id : UUID) : Go (result IpAddress.t) :=
  statement (QAllocateIPAddress serverID id) (fun db =>
    let hit := fun a => ip_is id a && IpAddress.free a in
    match filter hit (ip_addresses db) with
    | [] => (Err ErrNoRows, db)
    | _ :: _ =>
        if negb (existsb (server_is serverID) (servers db)) then (Err ErrForeignKey, db)
        else if existsb (owned_by serverID) (ip_addresses db) then (Err ErrUnique, db)
        else
          let f := IpAddress.set_owner true (Some serverID) (now db) in
          (one (map f (filter hit (ip_addresses db))),
           with_ips (update_where hit f (ip_addresses db)) db)
    end).

(** -- name: DeallocateIPAddress :one
    UPDATE ip_addresses SET is_allocated = FALSE, server_id = NULL, updated_at = NOW()
    WHERE id = $1 RETURNING *; *)
Definition DeallocateIPAddress (id : UUID) : Go (result IpAddress.t) :=
  statement (QDeallocateIPAddress id) (fun db =>
    let f := IpAddress.set_owner false None (now db) in
    (one (map f (filter (ip_is id) (ip_addresses db))),
     with_ips (update_where (ip_is id) f (ip_addresses db)) db)).

(** -- name: GetIPAddressByServerID :one
    SELECT * FROM ip_addresses WHERE server_id = $1; *)
Definition GetIPAddressByServerID (serverID : UUID) : Go (result IpAddress.t) :=
  statement (QGetIPAddressByServerID serverID) (fun db =>
    (one (filter (owned_by serverID) (ip_addresses db)), db)).

(** -- name: TruncateIPAddresses :exec
    TRUNCATE ip_addresses RESTART IDENTITY CASCADE; *)
Definition TruncateIPAddresses : Go (result unit) :=
  statement QTruncateIPAddresses (fun db => (Ok tt, with_ips [] db)).

Record CreateNewServerParams : Type := {
  p_Name : string;
  p_Region : string;
  p_Status : string;
  p_Type : string;
  p_Address : string;
  p_HourlyCost : float64 }.

(** -- name: CreateNewServer :one
    INSERT INTO servers (name, region, status, type, address, hourly_cost)
    VALUES ($1, $2, $3, $4, $5, $6) RETURNING *;
    with name VARCHAR(255), region VARCHAR(100), status VARCHAR(15),
    address VARCHAR(15), type VARCHAR(10); the other columns take their
    defaults. *)
Definition CreateNewServer (arg : CreateNewServerParams) : Go (result Server.t) :=
  statement (QCreateNewServer (p_Name arg) (p_Region arg) (p_Status arg)
                              (p_Type arg) (p_Address arg)) (fun db =>
    if fits 255 (p_Name arg) && fits 100 (p_Region arg) && fits 15 (p_Status arg)
       && fits 10 (p_Type arg) && fits 15 (p_Address arg)
    then
      let row := Server.mk (next_uuid db) (p_Name arg) (p_Region arg) (p_Status arg)
                   (p_Address arg) (p_Type arg) (now db) (now db) 0%Z
                   (p_HourlyCost arg) [] (now db) (now db) in
      (Ok row, bump_uuid (with_servers (servers db ++ [row])%list db))
    else (Err ErrTooLong, db)).

(** -- name: GetServer :one
    SELECT * FROM servers WHERE id = $1; *)
Definition GetServer (id : UUID) : Go (result Server.t) :=
  statement (QGetServer id) (fun db =>
    (one (filter (server_is id) (servers db)), db)).

(** ORDER BY created_at DESC, as an insertion sort; rows of the same age
    come in no promised order. *)
Fixpoint insert_desc (s : Server.t) (l : list Server.t) : list Server.t :=
  match l with
  | [] => [s]
  | x :: rest =>
      if (Server.CreatedAt x <? Server.CreatedAt s)%Z then s :: l
      else x :: insert_desc s rest
  end.

Definition newest_first (l : list Server.t) : list Server.t :=
  fold_right insert_desc [] l.

(** -- name: ListServers :many
    SELECT * FROM servers WHERE status = $1 ORDER BY created_at DESC; *)
Definition ListServers (status : string) : Go (result (list Server.t)) :=
  statement (QListServers status) (fun db =>
    (Ok (newest_first (filter (fun s => Server.Status s =? status) (servers db))), db)).

(** -- name: UpdateServerStatus :one
    UPDATE servers SET status = $1, last_status_update = NOW() WHERE id = $2
    RETURNING *;  with status VARCHAR(15). *)
Definition UpdateServerStatus (status : string) (id : UUID) : Go (result Server.t) :=
  statement (QUpdateServerStatus status id) (fun db =>
    match filter (server_is id) (servers db) with
    | [] => (Err ErrNoRows, db)
    | _ :: _ =>
        if fits 15 status then
          let f := Server.set_status status (now db) in
          (one (map f (filter (server_is id) (servers db))),
           with_servers (update_where (server_is id) f (servers db)) db)
        else (Err ErrTooLong, db)
    end).

(** -- name: UpdateServerUptime :one
    UPDATE servers SET uptime_seconds = $1, updated_at = NOW() WHERE id = $2
    RETURNING *; *)
Definition UpdateServerUptime (uptime : Z) (id : UUID) : Go (result Server.t) :=
  statement (QUpdateServerUptime uptime id) (fun db =>
    let f := Server.set_uptime uptime (now db) in
    (one (map f (filter (server_is id) (servers db))),
     with_servers (update_where (server_is id) f (servers db)) db)).

(** -- name: AppendServerLifecycleLog :one
    UPDATE servers SET lifecycle_logs = jsonb_build_array($1::jsonb) || lifecycle_logs
    WHERE id = $2 RETURNING lifecycle_logs;
    the new element goes in front; the Go side receives the array as
    []byte, that is as its text. *)
Definition AppendServerLifecycleLog (message : string) (id : UUID) : Go (result string) :=
  statement (QAppendServerLifecycleLog message id) (fun db =>
    let f := fun s => Server.set_logs (message :: Server.LifecycleLogs s) s in
    (one (map (fun s => jsonb_out (Server.LifecycleLogs (f s)))
              (filter (server_is id) (servers db))),
     with_servers (update_where (server_is id) f (servers db)) db)).

(** -- name: EnforceLifecycleLogsLimit :exec
    UPDATE servers SET lifecycle_logs =
      CASE WHEN jsonb_array_length(lifecycle_logs) > 100
           THEN jsonb_path_query_array(lifecycle_logs, '$[0 to 14]')
           ELSE lifecycle_logs END
    WHERE id = $1;
    the path [0 to 14] selects the elements at indices 0, 1, ..., 14. *)
Definition EnforceLifecycleLogsLimit (id : UUID) : Go (result unit) :=
  statement (QEnforceLifecycleLogsLimit id) (fun db =>
    let f := fun s =>
      if Nat.ltb 100 (List.length (Server.LifecycleLogs s))
      then Server.set_logs (firstn (14 + 1) (Server.LifecycleLogs s)) s
      else s in
    (Ok tt, with_servers (update_where (server_is id) f (servers db)) db)).

Definition system_reset_entry (at_ : Time) : string :=
  "{" ++ dq ++ "event" ++ dq ++ ": " ++ dq
      ++ "System Reset: Server Terminated by System" ++ dq ++ ", "
      ++ dq ++ "timestamp" ++ dq ++ ": " ++ dq ++ TimeString at_ ++ dq ++ ", "
      ++ dq ++ "request_id" ++ dq ++ ": " ++ dq ++ "system-reset" ++ dq ++ "}".

(** -- name: TerminateAllServers :exec
    UPDATE servers SET status = 'terminated', last_status_update = NOW(),
      lifecycle_logs = lifecycle_logs || jsonb_build_object(...)::jsonb
    WHERE status != 'terminated'; *)
Definition TerminateAllServers : Go (result unit) :=
  statement QTerminateAllServers (fun db =>
    let f := fun s =>
      Server.set_logs (Server.LifecycleLogs s ++ [system_reset_entry (now db)])%list
        (Server.set_status "terminated" (now db) s) in
    (Ok tt,
     with_servers (update_where (fun s => negb (Server.Status s =? "terminated")) f
                                (servers db)) db)).

End sqlc.

(** ** internal/config *)

Module config.

(** [ServerPricingMap]: a Go map from type name to hourly price. *)
Definition ServerPricingMap := list (string * float64).

Fixpoint lookup (k : string) (m : ServerPricingMap) : option float64 :=
  match m with
  | [] => None
  | (k', v) :: rest => if k' =? k then Some v else lookup k rest
  end.

Record Config : Type := {
  IPAllocationCIDR : string;
  IPExclusionList : list string;
  ServerTypeWisePricing : ServerPricingMap }.

End config.

(** ** The services *)

Module services.

(** [*sqlc.Queries]: the handle on the store; a nil pointer is [None]. *)
Inductive Queries : Type := Conn.

(** A call through a pointer: a nil one panics. *)
Definition via {P A} (p : option P) (call : Go A) : Go A :=
  match p with
  | Some _ => call
  | None => panic nil_dereference
  end.

(** [context.Context], as far as the services read it: the request id that
    [middleware.GetReqID] finds in it (empty when there is none). *)
Definition Context := string.
Definition GetReqID (ctx : Context) : string := ctx.

Record IPAllocator : Type := { ipa_queries : option Queries }.

Record ServerService : Type := {
  queries : option Queries;
  ipAllocator : IPAllocator;
  config : config.Config }.

Record BillingDaemon : Type := { bd_queries : option Queries }.

Definition NewIPAllocator (q : option Queries) : IPAllocator :=
  {| ipa_queries := q |}.

Definition NewServerService (q : option Queries) (ipa : IPAllocator)
    (cfg : config.Config) : ServerService :=
  {| queries := q; ipAllocator := ipa; config := cfg |}.

Definition NewBillingAndReaperDaemon (q : option Queries) : BillingDaemon :=
  {| bd_queries := q |}.

(** The JSON object every call site concatenates by hand, with the keys
    REQUEST_ID, ACTION, SERVER_ID and TIME in this order. *)
Definition lifecycle_message (ctx : Context) (action : string) (serverID : UUID)
    (t : Time) : string :=
  "{" ++ dq ++ "REQUEST_ID" ++ dq ++ ":" ++ dq ++ GetReqID ctx ++ dq ++ ","
      ++ dq ++ "ACTION" ++ dq ++ ": " ++ dq ++ action ++ dq ++ ","
      ++ dq ++ "SERVER_ID" ++ dq ++ ":" ++ dq ++ UUIDString serverID ++ dq ++ ","
      ++ dq ++ "TIME" ++ dq ++ ":" ++ dq ++ TimeString t ++ dq ++ "}".

(** The error of a refused transition: [fmt.Errorf] with the two states. *)
Definition invalid_transition (current desired : string) : string :=
  "invalid state transition from " ++ current ++ " to " ++ desired.

(** The body shared by the two branches of [AppendServerLifecycleLogs]:
    append, then enforce the limit when [len(updatedLogs) > 100], where
    [updatedLogs] is the []byte the statement returned. *)
Definition append_and_limit (q : option Queries) (serverID : UUID)
    (message : string) : Go (result unit) :=
  r <- via q (sqlc.AppendServerLifecycleLog message serverID) ;;
  match r with
  | Err err => ret (Err err)
  | Ok updatedLogs =>
      if Nat.ltb 100 (String.length updatedLogs) then
        r' <- via q (sqlc.EnforceLifecycleLogsLimit serverID) ;;
        match r' with
        | Err err => ret (Err err)
        | Ok _ => ret (Ok tt)
        end
      else ret (Ok tt)
  end.

(** [AppendServerLifecycleLogs(s, bd, ctx, serverID, message)].  Its first
    act is to read [s.queries]: with a nil [s] that read panics, before the
    branch for the daemon can be taken. *)
Definition AppendServerLifecycleLogs (s : option ServerService)
    (bd : option BillingDaemon) (ctx : Context) (serverID : UUID)
    (message : string) : Go (result unit) :=
  match s with
  | None => panic nil_dereference
  | Some s' =>
      match queries s' with
      | Some _ => append_and_limit (queries s') serverID message
      | None =>
          match bd with
          | None => panic nil_dereference
          | Some bd' => append_and_limit (bd_queries bd') serverID message
          end
      end
  end.

(** [IPAllocator.AllocateIP]: selects a free address; nothing is written. *)
Definition AllocateIP (ipa : IPAllocator) (ctx : Context) : Go (result IpAddress.t) :=
  r <- via (ipa_queries ipa) sqlc.GetAvailableIPForAllocation ;;
  match r with
  | Err err => ret (Err err)
  | Ok availableIP => ret (Ok availableIP)
  end.

(** [IPAllocator.saveAllocatedIP]: binds the address to the server. *)
Definition saveAllocatedIP (ipa : IPAllocator) (ctx : Context)
    (serverID allocatedIP : UUID) : Go (result unit) :=
  r <- via (ipa_queries ipa) (sqlc.AllocateIPAddress serverID allocatedIP) ;;
  match r with
  | Err err => ret (Err err)
  | Ok _ => ret (Ok tt)
  end.

Definition default_hourly : float64 := QArith_base.Qmake 1 10.

(** The two locals of [ProvisionNewServer]: the price of the type, 0.1 when
    the table has none, and the parameters of the insert. *)
Definition hourlyConst (s : ServerService) (serverType : string) : float64 :=
  match config.lookup serverType (config.ServerTypeWisePricing (config s)) with
  | Some price => price
  | None => default_hourly
  end.

Definition createServerParams (s : ServerService) (name region serverType : string)
    (allocatedIP : IpAddress.t) : sqlc.CreateNewServerParams :=
  {| sqlc.p_Name := name ++ "_" ++ IpAddress.Address allocatedIP;
     sqlc.p_Region := region;
     sqlc.p_Status := util.ServerStatusProvisioning;
     sqlc.p_Type := serverType;
     sqlc.p_Address := IpAddress.Address allocatedIP;
     sqlc.p_HourlyCost := hourlyConst s serverType |}.

(** [ServerService.ProvisionNewServer] *)
Definition ProvisionNewServer (s : ServerService) (ctx : Context)
    (name region serverType : string) : Go (result Server.t) :=
  r <- AllocateIP (ipAllocator s) ctx ;;
  match r with
  | Err _ => ret (Err "failed to allocate IP address")
  | Ok allocatedIP =>
      r <- via (queries s)
             (sqlc.CreateNewServer
                (createServerParams s name region serverType allocatedIP)) ;;
      match r with
      | Err err =>
          (* Important: If server creation fails, deallocate the IP! *)
          ret (Err ("failed to create server: " ++ err))
      | Ok server =>
          _ <- saveAllocatedIP (ipAllocator s) ctx (Server.ID server)
                               (IpAddress.ID allocatedIP) ;;
          t <- timeNow ;;
          _ <- via (queries s)
                 (sqlc.AppendServerLifecycleLog
                    (lifecycle_message ctx "Server provisioned successfully"
                                       (Server.ID server) t)
                    (Server.ID server)) ;;
          ret (Ok server)
      end
  end.

(** [ServerService.StartServer] *)
Definition StartServer (s : ServerService) (ctx : Context) (server : Server.t)
    : Go (result Server.t) :=
  if negb (util.IsValidTransition (Server.Status server) util.ServerStatusRunning) then
    ret (Err (invalid_transition (Server.Status server) util.ServerStatusRunning))
  else
    r <- via (queries s)
           (sqlc.UpdateServerStatus util.ServerStatusRunning (Server.ID server)) ;;
    match r with
    | Err err => ret (Err err)
    | Ok updatedServer =>
        t <- timeNow ;;
        _ <- AppendServerLifecycleLogs (Some s) None ctx (Server.ID server)
               (lifecycle_message ctx "Server start initiated" (Server.ID server) t) ;;
        ret (Ok updatedServer)
    end.

(** [ServerService.StopServer] *)
Definition StopServer (s : ServerService) (ctx : Context) (server : Server.t)
    : Go (result Server.t) :=
  if negb (util.IsValidTransition (Server.Status server) util.ServerStatusStopped) then
    ret (Err (invalid_transition (Server.Status server) util.ServerStatusStopped))
  else
    r <- via (queries s)
           (sqlc.UpdateServerStatus util.ServerStatusStopped (Server.ID server)) ;;
    match r with
    | Err err => ret (Err err)
    | Ok updatedServer =>
        t <- timeNow ;;
        _ <- AppendServerLifecycleLogs (Some s) None ctx (Server.ID server)
               (lifecycle_message ctx "Server stop initiated" (Server.ID server) t) ;;
        ret (Ok updatedServer)
    end.

(** [ServerService.RebootServer]: no table lookup, only the terminal
    state is refused; the log entry is written before the status. *)
Definition RebootServer (s : ServerService) (ctx : Context) (server : Server.t)
    : Go (result Server.t) :=
  if Server.Status server =? util.ServerStatusTerminated then
    ret (Err ("invalid state transition: cannot reboot from " ++ Server.Status server))
  else
    t <- timeNow ;;
    _ <- AppendServerLifecycleLogs (Some s) None ctx (Server.ID server)
           (lifecycle_message ctx "Server reboot initiated" (Server.ID server) t) ;;
    r <- via (queries s)
           (sqlc.UpdateServerStatus util.ServerStatusRunning (Server.ID server)) ;;
    match r with
    | Err err => ret (Err err)
    | Ok updatedServer => ret (Ok updatedServer)
    end.

(** [ServerService.TerminateServer] *)
Definition TerminateServer (s : ServerService) (ctx : Context) (server : Server.t)
    : Go (result Server.t) :=
  if negb (util.IsValidTransition (Server.Status server) util.ServerStatusTerminated) then
    ret (Err (invalid_transition (Server.Status server) util.ServerStatusTerminated))
  else
    r <- via (queries s)
           (sqlc.UpdateServerStatus util.ServerStatusTerminated (Server.ID server)) ;;
    match r with
    | Err err => ret (Err ("failed to update server status to terminated: " ++ err))
    | Ok _ =>
        r <- via (queries s) (sqlc.GetIPAddressByServerID (Server.ID server)) ;;
        match r with
        | Err err => ret (Err ("failed to get IP address by server ID: " ++ err))
        | Ok ipData =>
            r <- via (queries s) (sqlc.DeallocateIPAddress (IpAddress.ID ipData)) ;;
            match r with
            | Err err => ret (Err ("failed to deallocate IP address: " ++ err))
            | Ok _ =>
                t <- timeNow ;;
                _ <- AppendServerLifecycleLogs (Some s) None ctx (Server.ID server)
                       (lifecycle_message ctx "Server terminated" (Server.ID server) t) ;;
                r <- via (queries s) (sqlc.GetServer (Server.ID server)) ;;
                match r with
                | Err err => ret (Err err)
                | Ok updatedServer => ret (Ok updatedServer)
                end
            end
        end
    end.

(** [for _, x := range xs { body }] *)
Fixpoint for_range {A} (xs : list A) (body : A -> Go unit) : Go unit :=
  match xs with
  | [] => ret tt
  | x :: rest => body x ;;; for_range rest body
  end.

(** [time.Since(t)] *)
Definition timeSince (t : Time) : Go Z :=
  n <- timeNow ;; ret (Sub n t).

(** [newUptimeSeconds] of [processBilling]:
    server.UptimeSeconds + elapsed.Nanoseconds()/int64(time.Second);
    Go's integer division truncates toward zero. *)
Definition newUptimeSeconds (server : Server.t) (elapsed : Z) : Z :=
  wrap64 (Server.UptimeSeconds server + Z.quot elapsed Second).

(** The idle reaper of [processBilling] (the [if] that closes the loop
    body): one status update and, when it went through, one log entry.
    No statement on ip_addresses occurs in it. *)
Definition reapIfIdle (bd : BillingDaemon) (ctx : Context) (server : Server.t)
    (newUptime : Z) : Go unit :=
  if (1800 <? newUptime)%Z
     && negb (Server.Status server =? util.ServerStatusTerminated) then
    r <- via (bd_queries bd)
           (sqlc.UpdateServerStatus util.ServerStatusTerminated (Server.ID server)) ;;
    match r with
    | Err _ => ret tt
    | Ok _ =>
        t <- timeNow ;;
        _ <- AppendServerLifecycleLogs None (Some bd) ctx (Server.ID server)
               (lifecycle_message ctx
                  "Timeout detected, server status updated to terminated"
                  (Server.ID server) t) ;;
        ret tt
    end
  else ret tt.

(** The loop body of [processBilling]. *)
Definition billServer (bd : BillingDaemon) (ctx : Context) (server : Server.t)
    : Go unit :=
  elapsed <- timeSince (Server.LastStatusUpdate server) ;;
  let newUptime := newUptimeSeconds server elapsed in
  _ <- via (bd_queries bd) (sqlc.UpdateServerUptime newUptime (Server.ID server)) ;;
  t <- timeNow ;;
  _ <- AppendServerLifecycleLogs None (Some bd) ctx (Server.ID server)
         (lifecycle_message ctx "Server uptime updated" (Server.ID server) t) ;;
  reapIfIdle bd ctx server newUptime.

(** [BillingDaemon.processBilling]: one tick. *)
Definition processBilling (bd : BillingDaemon) (ctx : Context) : Go unit :=
  r <- via (bd_queries bd) (sqlc.ListServers util.ServerStatusRunning) ;;
  match r with
  | Err _ => ret tt
  | Ok servers => for_range servers (billServer bd ctx)
  end.

End services.

(** ** net/netip, for IPv4

    The address column holds dotted quads (VARCHAR(15)); the library is
    embedded for IPv4 addresses and prefixes, and a text that Go would read
    as an IPv6 address is a parse error here. *)

Module netip.

(** [netip.Addr]: the zero Addr, or an IPv4 address with its 32 bits. *)
Inductive Addr : Type :=
| Zero
| V4 (lo : Z).

Definition Addr_eqb (a b : Addr) : bool :=
  match a, b with
  | Zero, Zero => true
  | V4 x, V4 y => (x =? y)%Z
  | _, _ => false
  end.

(** [netip.Prefix]: the address as written and the number of network bits;
    the host bits of the address are kept as written. *)
Record Prefix : Type := PrefixFrom { PrefixAddr : Addr; Bits : Z }.

Definition is_digit (c : ascii) : bool :=
  let n := nat_of_ascii c in Nat.leb 48 n && Nat.leb n 57.

Definition digit (c : ascii) : Z := (Z.of_nat (nat_of_ascii c) - 48)%Z.

Definition is_dot (c : ascii) : bool := Nat.eqb (nat_of_ascii c) 46.

(** [parseIPv4Fields]: one pass over the bytes, with the octet being read
    ([val], [digLen]) and the octets already closed by a dot ([fields]);
    [first] says the byte is the first one, [prevDot] that the byte before
    it was a dot. *)
Fixpoint parseIPv4Fields (s : list ascii) (first prevDot : bool) (val : Z)
    (digLen : nat) (fields : list Z) : result (list Z) :=
  match s with
  | [] =>
      if Nat.ltb (List.length fields) 3 then Err "IPv4 address too short"
      else Ok (fields ++ [val])%list
  | c :: rest =>
      if is_digit c then
        if Nat.eqb digLen 1 && (val =? 0)%Z
        then Err "IPv4 field has octet with leading zero"
        else
          let val' := (val * 10 + digit c)%Z in
          if (255 <? val')%Z then Err "IPv4 field has value >255"
          else parseIPv4Fields rest false false val' (S digLen) fields
      else if is_dot c then
        if first || match rest with [] => true | _ => false end || prevDot
        then Err "IPv4 field must have at least one digit"
        else if Nat.eqb (List.length fields) 3 then Err "IPv4 address too long"
        else parseIPv4Fields rest false true 0%Z 0%nat (fields ++ [val])%list
      else Err "unexpected character"
  end.

(** [AddrFrom4] *)
Definition AddrFrom4 (f : list Z) : Addr :=
  match f with
  | [a; b; c; d] =>
      V4 (Z.lor (Z.lor (Z.lor (Z.shiftl a 24) (Z.shiftl b 16)) (Z.shiftl c 8)) d)
  | _ => Zero
  end.

Definition parseIPv4 (s : string) : result Addr :=
  match parseIPv4Fields (list_ascii_of_string s) true false 0%Z 0%nat [] with
  | Ok f => Ok (AddrFrom4 f)
  | Err e => Err e
  end.

(** [ParseAddr]: the first of '.', ':' and '%' met in the text chooses the
    parser. *)
Fixpoint family (s : list ascii) : option ascii :=
  match s with
  | [] => None
  | c :: rest =>
      let n := nat_of_ascii c in
      if Nat.eqb n 46 || Nat.eqb n 58 || Nat.eqb n 37 then Some c else family rest
  end.

Definition ParseAddr (s : string) : result Addr :=
  match family (list_ascii_of_string s) with
  | Some c =>
      if is_dot c then parseIPv4 s
      else if Nat.eqb (nat_of_ascii c) 58 then Err "IPv6 address"
      else Err "missing IPv6 address"
  | None => Err "unable to parse IP"
  end.

(** The position of the last '/' of the text. *)
Fixpoint lastSlash (s : list ascii) (i : nat) (found : option nat) : option nat :=
  match s with
  | [] => found
  | c :: rest =>
      lastSlash rest (S i) (if Nat.eqb (nat_of_ascii c) 47 then Some i else found)
  end.

(** [strconv.Atoi] on the digits the caller lets through. *)
Fixpoint atoi (s : list ascii) (acc : Z) : option Z :=
  match s with
  | [] => Some acc
  | c :: rest => if is_digit c then atoi rest (acc * 10 + digit c)%Z else None
  end.

(** [ParsePrefix]: address, '/', and a length without sign or leading
    zero, at most 32. *)
Definition ParsePrefix (s : string) : result Prefix :=
  let cs := list_ascii_of_string s in
  match lastSlash cs 0 None with
  | None => Err "no '/'"
  | Some i =>
      match ParseAddr (string_of_list_ascii (firstn i cs)) with
      | Err e => Err e
      | Ok ip =>
          let bitsStr := skipn (S i) cs in
          match bitsStr with
          | [] => Err "bad bits after slash"
          | c :: rest =>
              if match rest with
                 | [] => false
                 | _ => negb (Nat.leb 49 (nat_of_ascii c) && Nat.leb (nat_of_ascii c) 57)
                 end
              then Err "bad bits after slash"
              else
                match atoi bitsStr 0%Z with
                | None => Err "bad bits after slash"
                | Some bits =>
                    if (32 <? bits)%Z then Err "prefix length out of range"
                    else Ok (PrefixFrom ip bits)
                end
          end
      end
  end.

(** [Prefix.Contains]: the two addresses agree on the network bits,
    uint32((ip ^ p.ip) >> ((32 - bits) & 63)) == 0. *)
Definition PrefixContains (p : Prefix) (ip : Addr) : bool :=
  match PrefixAddr p, ip with
  | V4 base, V4 lo =>
      (Z.shiftr (Z.lxor lo base) (Z.land (32 - Bits p) 63) mod 2 ^ 32 =? 0)%Z
  | _, _ => false
  end.

(** [Addr.Next]: the following address, the zero Addr after the last one. *)
Definition Next (ip : Addr) : Addr :=
  match ip with
  | Zero => Zero
  | V4 lo => if ((lo + 1) mod 2 ^ 32 =? 0)%Z then Zero else V4 (lo + 1)
  end.

(** Byte [i] of the address, [uint8(lo >> ((3 - i) * 8))]. *)
Definition v4 (lo : Z) (i : Z) : Z := (Z.shiftr lo ((3 - i) * 8) mod 2 ^ 8)%Z.

Definition appendDecimal (b : Z) : string := NilZero.string_of_uint (N.to_uint (Z.to_N b)).

(** [Addr.String] *)
Definition String_ (ip : Addr) : string :=
  match ip with
  | Zero => "invalid IP"
  | V4 lo =>
      appendDecimal (v4 lo 0) ++ "." ++ appendDecimal (v4 lo 1) ++ "."
        ++ appendDecimal (v4 lo 2) ++ "." ++ appendDecimal (v4 lo 3)
  end.

End netip.

Module pool.
Import services.

(** The exclusion map of [TerminateAllServers]: the entries that parse,
    each set to true; looking up another address gives false. *)
Fixpoint exclusions (exclusionList : list string) : list netip.Addr :=
  match exclusionList with
  | [] => []
  | ex :: rest =>
      match netip.ParseAddr ex with
      | Err _ => exclusions rest
      | Ok addr => addr :: exclusions rest
      end
  end.

Definition excluded (exclude : list netip.Addr) (addr : netip.Addr) : bool :=
  existsb (netip.Addr_eqb addr) exclude.

(** The loop
      for addr := prefix.Addr(); prefix.Contains(addr); addr = addr.Next()
    of [TerminateAllServers].  [fuel] bounds the number of tests of the
    condition; [None] is returned when it runs out. *)
Fixpoint populate (fuel : nat) (q : option Queries) (prefix : netip.Prefix)
    (exclude : list netip.Addr) (addr : netip.Addr) (count : Z) : Go (option Z) :=
  match fuel with
  | O => ret None
  | S fuel' =>
      if netip.PrefixContains prefix addr then
        if excluded exclude addr || netip.Addr_eqb addr (netip.PrefixAddr prefix) then
          populate fuel' q prefix exclude (netip.Next addr) count
        else
          r <- via q (sqlc.CreateIPAddress (netip.String_ addr)) ;;
          match r with
          | Err _ => populate fuel' q prefix exclude (netip.Next addr) count
          | Ok _ => populate fuel' q prefix exclude (netip.Next addr) (count + 1)%Z
          end
      else ret (Some count)
  end.

(** A block of [bits] network bits has 2^(32-bits) addresses: the
    condition of the loop is tested at most once more than that. *)
Definition loop_bound (prefix : netip.Prefix) : nat :=
  S (Z.to_nat (2 ^ (32 - netip.Bits prefix))).

(** What the two reset statements do with an error: a missing relation
    ends the process, any other error is only logged. *)
Definition schema_check (r : result unit) : Go unit :=
  match r with
  | Err err => if Contains err " does not exist" then osExit 0%Z else ret tt
  | Ok _ => ret tt
  end.

(** [IPAllocator.TerminateAllServers]: terminate every server, empty the
    pool, and fill it again from the CIDR and the exclusion list. *)
Definition TerminateAllServers (ipa : IPAllocator) (ctx : Context) (cidr : string)
    (exclusionList : list string) : Go (result unit) :=
  r <- via (ipa_queries ipa) sqlc.TerminateAllServers ;;
  schema_check r ;;;
  r <- via (ipa_queries ipa) sqlc.TruncateIPAddresses ;;
  schema_check r ;;;
  match netip.ParsePrefix cidr with
  | Err err => ret (Err ("invalid CIDR " ++ dq ++ cidr ++ dq ++ ": " ++ err))
  | Ok prefix =>
      let exclude := exclusions exclusionList in
      c <- populate (loop_bound prefix) (ipa_queries ipa) prefix exclude
                    (netip.PrefixAddr prefix) 0%Z ;;
      match c with
      | None => panic "loop bound exceeded"
      | Some _ => ret (Ok tt)
      end
  end.

End pool.

(** ** The handlers (package api)

    A handler is embedded from the point where the request has been read:
    the decoded body (or the decoding error) and the id of the path are its
    inputs, the status code and the payload it writes are its result. *)

Module api.
Import services.

(** What [RespondWithJSON] is given to write. *)
Inductive Payload : Type :=
| ErrorResponse (Message : string) (Code : Z)
| ServerResponse (s : Server.t).

Record Response : Type := { StatusCode : Z; Body : Payload }.

Definition StatusOK : Z := 200.
Definition StatusCreated : Z := 201.
Definition StatusBadRequest : Z := 400.
Definition StatusInternalServerError : Z := 500.

Definition RespondWithJSON (code : Z) (payload : Payload) : Response :=
  {| StatusCode := code; Body := payload |}.

(** [util.RespondWithError] *)
Definition RespondWithError (code : Z) (message : string) : Response :=
  RespondWithJSON code (ErrorResponse message code).

Record ServerAPI : Type := {
  dbconn_Queries : option Queries;
  serverService : ServerService }.

(** [models.ProvisionServerRequest] *)
Record ProvisionServerRequest : Type := {
  req_Name : string;
  req_Region : string;
  req_Type : string }.

(** [ServerAPI.ProvisionServer]: the three fields must be there and the
    type must be one of the three names, before the service is called. *)
Definition ProvisionServer (api : ServerAPI) (ctx : Context)
    (body : result ProvisionServerRequest) : Go Response :=
  match body with
  | Err _ => ret (RespondWithError StatusBadRequest "Invalid request payload")
  | Ok req =>
      if (req_Name req =? "") || (req_Region req =? "") || (req_Type req =? "") then
        ret (RespondWithError StatusBadRequest "Name, region, and type are required")
      else if negb (util.IsValidServerType (req_Type req)) then
        ret (RespondWithError StatusBadRequest
               ("Invalid server type. Only " ++ util.ServerTypeC5Xlarge ++ ", "
                  ++ util.ServerTypeM5Large ++ ", " ++ util.ServerTypeT2Micro
                  ++ " are allowed"))
      else
        r <- ProvisionNewServer (serverService api) ctx (req_Name req)
               (req_Region req) (req_Type req) ;;
        match r with
        | Err _ =>
            ret (RespondWithError StatusInternalServerError "Failed to provision server")
        | Ok server => ret (RespondWithJSON StatusCreated (ServerResponse server))
        end
  end.

(** [ServerAPI.PerformServerAction]: the row is fetched first, then the
    action is chosen by its name; every error of the service is answered
    with 500 and the text of the error. *)
Definition PerformServerAction (api : ServerAPI) (ctx : Context)
    (body : result string) (serverUUID : UUID) : Go Response :=
  match body with
  | Err _ => ret (RespondWithError StatusBadRequest "Invalid request payload")
  | Ok action =>
      r <- via (dbconn_Queries api) (sqlc.GetServer serverUUID) ;;
      match r with
      | Err _ =>
          ret (RespondWithError StatusInternalServerError
                 "Failed to retrieve server details")
      | Ok server =>
          let answer (r : result Server.t) : Go Response :=
            match r with
            | Err err =>
                ret (RespondWithError StatusInternalServerError
                       ("Failed to perform action " ++ action ++ ": " ++ err))
            | Ok updatedServer =>
                ret (RespondWithJSON StatusOK (ServerResponse updatedServer))
            end in
          if action =? "start" then
            r <- StartServer (serverService api) ctx server ;; answer r
          else if action =? "stop" then
            r <- StopServer (serverService api) ctx server ;; answer r
          else if action =? "reboot" then
            r <- RebootServer (serverService api) ctx server ;; answer r
          else if action =? "terminate" then
            r <- TerminateServer (serverService api) ctx server ;; answer r
          else
            ret (RespondWithError StatusBadRequest
                   "Invalid action: must be start, stop, reboot, or terminate")
      end
  end.

End api.

(** ** The transition table of the lifecycle *)

Definition transition_table : list (string * string) :=
  [ (util.ServerStatusProvisioning, util.ServerStatusRunning);
    (util.ServerStatusProvisioning, util.ServerStatusTerminated);
    (util.ServerStatusRunning, util.ServerStatusStopped);
    (util.ServerStatusRunning, util.ServerStatusTerminated);
    (util.ServerStatusStopped, util.ServerStatusRunning);
    (util.ServerStatusStopped, util.ServerStatusTerminated) ].

(** A service as [main] builds it: every handle on the store is set. *)
Definition wired (s : services.ServerService) : Prop :=
  services.queries s = Some services.Conn
  /\ services.ipa_queries (services.ipAllocator s) = Some services.Conn.

(** The row of a server in the store, by id. *)
Definition row (id : UUID) (db : DB) : option Server.t :=
  find (sqlc.server_is id) (servers db).

(** The statements a run has sent: what it added to the log of the store. *)
Definition sent_by {A} (m : Go A) (db : DB) : list Query :=
  skipn (List.length (trace db)) (trace (snd (m db))).

(** ** Relations between the store before and after a run *)

(** The log of statements only grows. *)
Definition grows {A} (m : Go A) : Prop :=
  forall db, exists l, trace (snd (m db)) = (trace db ++ l)%list.

(** The program returns, whatever the store. *)
Definition returns {A} (m : Go A) : Prop :=
  forall db, exists a db', m db = (Returns a, db').

(** The store after a run is related by [R] to the store before it. *)
Definition preserves (R : DB -> DB -> Prop) {A} (m : Go A) : Prop :=
  forall db, R db (snd (m db)).

Definition same_ips (d d' : DB) : Prop := ip_addresses d' = ip_addresses d.
Definition same_servers (d d' : DB) : Prop := servers d' = servers d.
Definition same_clock (d d' : DB) : Prop := now d' = now d.
Definition stays_healthy (d d' : DB) : Prop := faults d = [] -> faults d' = [].
Definition same_ids (d d' : DB) : Prop :=
  map Server.ID (servers d') = map Server.ID (servers d).
Definition same_statuses (d d' : DB) : Prop :=
  map (fun s => (Server.ID s, Server.Status s)) (servers d')
  = map (fun s => (Server.ID s, Server.Status s)) (servers d).

(** ** The constraints of the schema, as an invariant of the store *)

(** The servers that own an address, one entry per owned address. *)
Definition owners (ips : list IpAddress.t) : list UUID :=
  flat_map (fun a => match IpAddress.ServerID a with
                     | Some o => [o]
                     | None => []
                     end) ips.

(** Primary keys are distinct and were drawn from the supply of ids;
    address texts are distinct (UNIQUE); the allocation flag is set exactly
    on the rows that have an owner; no server owns two addresses (UNIQUE
    server_id); every owner is a server of the table (REFERENCES). *)
Record consistent (db : DB) : Prop := {
  server_ids_drawn :
    Forall (fun s => (Server.ID s < next_uuid db)%N) (servers db);
  server_ids_distinct : NoDup (map Server.ID (servers db));
  ip_ids_drawn :
    Forall (fun a => (IpAddress.ID a < next_uuid db)%N) (ip_addresses db);
  ip_ids_distinct : NoDup (map IpAddress.ID (ip_addresses db));
  addresses_distinct : NoDup (map IpAddress.Address (ip_addresses db));
  flag_with_owner :
    Forall (fun a => IpAddress.IsAllocated a
                     = match IpAddress.ServerID a with
                       | Some _ => true
                       | None => false
                       end) (ip_addresses db);
  owners_distinct : NoDup (owners (ip_addresses db));
  owners_are_servers :
    Forall (fun o => In o (map Server.ID (servers db))) (owners (ip_addresses db)) }.

(** A run keeps the invariant. *)
Definition keeps_consistent (d d' : DB) : Prop := consistent d -> consistent d'.

(** The store at another instant. *)
Definition at_time (t : Time) (db : DB) : DB :=
  mkDB (servers db) (ip_addresses db) t (next_uuid db) (faults db) (trace db).

(** What an address row is apart from its time stamps. *)
Definition binding (a : IpAddress.t) : UUID * string * bool * option UUID :=
  (IpAddress.ID a, IpAddress.Address a, IpAddress.IsAllocated a, IpAddress.ServerID a).

(** ** The cap of the lifecycle log *)

(** Every log of the store holds at most 100 entries. *)
Definition capped (db : DB) : Prop :=
  Forall (fun s => (List.length (Server.LifecycleLogs s) <= 100)%nat) (servers db).

Definition keeps_capped (d d' : DB) : Prop := capped d -> capped d'.

(** A store in order: the environment fails no statement to come, the
    constraints of the schema hold, and every log is within the cap. *)
Definition in_order (db : DB) : Prop :=
  faults db = [] /\ consistent db /\ capped db.

Definition keeps_order (d d' : DB) : Prop := in_order d -> in_order d'.

(** What a running system does to the store between two resets: the five
    requests of the service, the ticks of the daemon, the passing of time. *)
Inductive operation : Type :=
| Provision (ctx : services.Context) (name region serverType : string)
| Start (ctx : services.Context) (server : Server.t)
| Stop (ctx : services.Context) (server : Server.t)
| Reboot (ctx : services.Context) (server : Server.t)
| Terminate (ctx : services.Context) (server : Server.t)
| Tick (bd : services.BillingDaemon) (ctx : services.Context)
| Elapse (t : Time).

(** The store an operation leaves, whether it returned or panicked. *)
Definition after (s : services.ServerService) (o : operation) (db : DB) : DB :=
  match o with
  | Provision ctx name region serverType =>
      snd (services.ProvisionNewServer s ctx name region serverType db)
  | Start ctx server => snd (services.StartServer s ctx server db)
  | Stop ctx server => snd (services.StopServer s ctx server db)
  | Reboot ctx server => snd (services.RebootServer s ctx server db)
  | Terminate ctx server => snd (services.TerminateServer s ctx server db)
  | Tick bd ctx => snd (services.processBilling bd ctx db)
  | Elapse t => at_time t db
  end.

Definition after_all (s : services.ServerService) (ops : list operation) (db : DB)
    : DB :=
  fold_left (fun d o => after s o d) ops db.

(** ** The requests the handlers tell apart *)

(** The four names of [PerformServerAction]. *)
Definition action_names : list string := ["start"; "stop"; "reboot"; "terminate"].

(** A provisioning request the handler passes on to the service. *)
Definition well_formed (body : result api.ProvisionServerRequest) : Prop :=
  match body with
  | Err _ => False
  | Ok req =>
      api.req_Name req <> "" /\ api.req_Region req <> ""
      /\ In (api.req_Type req)
            [util.ServerTypeT2Micro; util.ServerTypeM5Large; util.ServerTypeC5Xlarge]
  end.

(** ** The pool a CIDR describes *)

(** A 32-bit address. *)
Definition addr32 (a : Z) : Prop := (0 <= a < 2 ^ 32)%Z.

(** A byte of an address. *)
Definition octet (x : Z) : Prop := (0 <= x <= 255)%Z.
Definition octets : list Z := map Z.of_nat (seq 0 256).

(** The number of addresses in the block of a prefix. *)
Definition block_size (bits : Z) : Z := (2 ^ (32 - bits))%Z.

(** A text without a dot. *)
Fixpoint dot_free (s : string) : bool :=
  match s with
  | EmptyString => true
  | String c r => negb (netip.is_dot c) && dot_free r
  end.

(** The [n] addresses from [a] upward. *)
Fixpoint span (a : Z) (n : nat) : list Z :=
  match n with
  | O => []
  | S n' => a :: span (a + 1) n'
  end.

(** The test of the loop body: the address is inserted unless it is in the
    exclusion map or is the address the prefix was written with. *)
Definition wanted (base : Z) (exclude : list netip.Addr) (a : Z) : bool :=
  negb (pool.excluded exclude (netip.V4 a)
        || netip.Addr_eqb (netip.V4 a) (netip.V4 base)).

(** The rows a run of inserts adds: fresh ids in sequence, free, stamped
    with the clock. *)
Fixpoint inserted (at_ : Time) (id : UUID) (addresses : list string)
    : list IpAddress.t :=
  match addresses with
  | [] => []
  | a :: rest => IpAddress.mk id a false None at_ at_ :: inserted at_ (N.succ id) rest
  end.

(** The addresses the loop visits: from the written address to the end of
    its block. *)
Definition visited (base bits : Z) : list Z :=
  span base (Z.to_nat (block_size bits - base mod block_size bits)).

(** ** Sample data for the trial runs *)

Definition empty_store : DB := mkDB [] [] 0%Z 1%N [] [].

Definition allocator : services.IPAllocator :=
  services.NewIPAllocator (Some services.Conn).

Definition pricing : config.Config :=
  {| config.IPAllocationCIDR := "192.168.0.0/24";
     config.IPExclusionList := [];
     config.ServerTypeWisePricing := [("t2.micro", QArith_base.Qmake 1 100)] |}.

Definition service : services.ServerService :=
  services.NewServerService (Some services.Conn) allocator pricing.

Definition daemon : services.BillingDaemon :=
  services.NewBillingAndReaperDaemon (Some services.Conn).

(** A server row with the given id, status, uptime, instant of the last
    status update and log. *)
Definition a_server (id : UUID) (status : string) (uptime : Z) (since : Time)
    (logs : list string) : Server.t :=
  Server.mk id "web1_10.0.0.1" "us-east-1" status "10.0.0.1" "t2.micro"
            0%Z since uptime (QArith_base.Qmake 1 100) logs 0%Z 0%Z.

(** An address row with the given id, text and owner. *)
Definition an_address (id : UUID) (address : string) (owner : option UUID)
    : IpAddress.t :=
  IpAddress.mk id address (match owner with Some _ => true | None => false end)
               owner 0%Z 0%Z.

(** A healthy store holding the given rows at the given instant. *)
Definition store_of (rows : list Server.t) (ips : list IpAddress.t) (at_ : Time)
    : DB :=
  mkDB rows ips at_ 100%N [] [].

(** The same store when the environment fails the statements marked
    [Some e] in [plan]. *)
Definition failing (plan : list (option string)) (db : DB) : DB :=
  mkDB (servers db) (ip_addresses db) (now db) (next_uuid db) plan (trace db).

(** A running server, the address it owns, and stores with and without
    that address row. *)
Definition srv7 : Server.t := a_server 7 util.ServerStatusRunning 10 0 [].
Definition addr3 : IpAddress.t := an_address 3 "10.0.0.1" (Some 7%N).
Definition store_bound : DB := store_of [srv7] [addr3] 5.
Definition store_unbound : DB := store_of [srv7] [] 5.

(** A pool of one free address and no server, on which the third statement
    to come (the binding of a provisioning request) is failed by the
    environment. *)
Definition store_bind_fails : DB :=
  failing [None; None; Some "connection lost"]
          (store_of [] [an_address 3 "10.0.0.1" None] 5).

(** A region name of 101 characters, one more than the column takes. *)
Definition long_region : string := string_of_list_ascii (repeat "a"%char 101).

(** A pool of one free address and no server. *)
Definition store_one_free : DB := store_of [] [an_address 3 "10.0.0.1" None] 5.

(** A stopped server whose log already holds 100 entries. *)
Definition srv_full_log : Server.t :=
  a_server 9 util.ServerStatusStopped 0 0 (repeat "{}" 100).
Definition store_full_log : DB := store_of [srv_full_log] [] 5.

(** A running server with 1000 seconds of uptime whose status was last
    updated at instant 0, the address it owns, and the store 801 seconds
    later: the tick computes 1801 seconds. *)
Definition srv_idle : Server.t := a_server 7 util.ServerStatusRunning 1000 0 [].
Definition store_idle : DB := store_of [srv_idle] [addr3] (801 * Second).

(** Running servers with no uptime yet, seen 1801 and 1800 seconds after
    their last status update. *)
Definition srv_fresh : Server.t := a_server 7 util.ServerStatusRunning 0 0 [].
Definition store_1801 : DB := store_of [srv_fresh] [addr3] (1801 * Second).
Definition store_1800 : DB := store_of [srv_fresh] [addr3] (1800 * Second).

(** A terminated server that still has its address row, and the handlers
    as [main] builds them. *)
Definition srv_gone : Server.t := a_server 7 util.ServerStatusTerminated 10 0 [].
Definition store_gone : DB := store_of [srv_gone] [addr3] 5.
Definition handlers : api.ServerAPI :=
  {| api.dbconn_Queries := Some services.Conn; api.serverService := service |}.

(** * Properties *)

(** ** Running a program of the monad *)

Lemma bind_returns {A B} (m : Go A) (k : A -> Go B) db a db' :
  m db = (Returns a, db') -> bind m k db = k a db'.
Proof. intros H. unfold bind. rewrite H. reflexivity. Qed.

Lemma bind_panics {A B} (m : Go A) (k : A -> Go B) db msg db' :
  m db = (Panics msg, db') -> bind m k db = (Panics msg, db').
Proof. intros H. unfold bind. rewrite H. reflexivity. Qed.

Lemma bind_timeNow {B} (k : Time -> Go B) db : bind timeNow k db = k (now db) db.
Proof. reflexivity. Qed.

(** A statement always returns: with an injected error, or with what the
    tables give. *)
Lemma statement_run {A} (q : Query) (run : DB -> result A * DB) db :
  statement q run db =
    match faults db with
    | Some e :: _ => (Returns (Err e), received q db)
    | _ => (Returns (fst (run (received q db))), snd (run (received q db)))
    end.
Proof.
  unfold statement. destruct (faults db) as [|[e|] rest]; try reflexivity;
    destruct (run (received q db)); reflexivity.
Qed.

Lemma statement_returns {A} (q : Query) (run : DB -> result A * DB) db :
  exists r db', statement q run db = (Returns r, db').
Proof.
  rewrite statement_run. destruct (faults db) as [|[e|] rest]; eauto.
Qed.

(** What a statement returned tells which of the two happened. *)
Lemma statement_inv {A} (q : Query) (run : DB -> result A * DB) db r db' :
  statement q run db = (Returns r, db') ->
  (exists e, hd None (faults db) = Some e /\ r = Err e /\ db' = received q db)
  \/ (hd None (faults db) = None /\ run (received q db) = (r, db')).
Proof.
  unfold statement. intros H.
  destruct (faults db) as [|[e|] rest]; simpl.
  - right. destruct (run (received q db)). inversion H. auto.
  - left. inversion H. eauto.
  - right. destruct (run (received q db)). inversion H. auto.
Qed.

(** ** The log of statements only grows *)

Lemma grows_ret {A} (a : A) : grows (ret a).
Proof. intros db. exists []. simpl. now rewrite app_nil_r. Qed.

Lemma grows_panic {A} msg : grows (@panic A msg).
Proof. intros db. exists []. simpl. now rewrite app_nil_r. Qed.

Lemma grows_osExit {A} c : grows (@osExit A c).
Proof. intros db. exists []. simpl. now rewrite app_nil_r. Qed.

Lemma grows_timeNow : grows timeNow.
Proof. intros db. exists []. simpl. now rewrite app_nil_r. Qed.

Lemma grows_bind {A B} (m : Go A) (k : A -> Go B) :
  grows m -> (forall a, grows (k a)) -> grows (bind m k).
Proof.
  intros Hm Hk db. unfold bind. destruct (Hm db) as [l Hl].
  destruct (m db) as [[a|msg|c] db1]; simpl in *.
  - destruct (Hk a db1) as [l' Hl']. exists (l ++ l')%list.
    rewrite Hl', Hl. now rewrite app_assoc.
  - eauto.
  - eauto.
Qed.

Lemma grows_via {P A} (p : option P) (m : Go A) : grows m -> grows (services.via p m).
Proof. intros H. destruct p; simpl; [exact H | apply grows_panic]. Qed.

Lemma grows_statement {A} q (run : DB -> result A * DB) :
  (forall d, trace (snd (run d)) = trace d) -> grows (statement q run).
Proof.
  intros H db. exists [q]. rewrite statement_run.
  destruct (faults db) as [|[e|] rest]; simpl; try reflexivity; now rewrite H.
Qed.

Ltac run_keeps_trace :=
  intros ?; simpl;
  repeat match goal with
         | |- context [if ?b then _ else _] => destruct b; simpl
         | |- context [match ?x with _ => _ end] => destruct x; simpl
         end; reflexivity.

Lemma grows_CreateIPAddress a : grows (sqlc.CreateIPAddress a).
Proof. apply grows_statement. run_keeps_trace. Qed.
Lemma grows_GetAvailableIPForAllocation : grows sqlc.GetAvailableIPForAllocation.
Proof. apply grows_statement. run_keeps_trace. Qed.
Lemma grows_AllocateIPAddress s i : grows (sqlc.AllocateIPAddress s i).
Proof. apply grows_statement. run_keeps_trace. Qed.
Lemma grows_DeallocateIPAddress i : grows (sqlc.DeallocateIPAddress i).
Proof. apply grows_statement. run_keeps_trace. Qed.
Lemma grows_GetIPAddressByServerID i : grows (sqlc.GetIPAddressByServerID i).
Proof. apply grows_statement. run_keeps_trace. Qed.
Lemma grows_TruncateIPAddresses : grows sqlc.TruncateIPAddresses.
Proof. apply grows_statement. run_keeps_trace. Qed.
Lemma grows_CreateNewServer a : grows (sqlc.CreateNewServer a).
Proof. apply grows_statement. run_keeps_trace. Qed.
Lemma grows_GetServer i : grows (sqlc.GetServer i).
Proof. apply grows_statement. run_keeps_trace. Qed.
Lemma grows_ListServers st : grows (sqlc.ListServers st).
Proof. apply grows_statement. run_keeps_trace. Qed.
Lemma grows_UpdateServerStatus st i : grows (sqlc.UpdateServerStatus st i).
Proof. apply grows_statement. run_keeps_trace. Qed.
Lemma grows_UpdateServerUptime n i : grows (sqlc.UpdateServerUptime n i).
Proof. apply grows_statement. run_keeps_trace. Qed.
Lemma grows_AppendServerLifecycleLog m i : grows (sqlc.AppendServerLifecycleLog m i).
Proof. apply grows_statement. run_keeps_trace. Qed.
Lemma grows_EnforceLifecycleLogsLimit i : grows (sqlc.EnforceLifecycleLogsLimit i).
Proof. apply grows_statement. run_keeps_trace. Qed.
Lemma grows_TerminateAllServers : grows sqlc.TerminateAllServers.
Proof. apply grows_statement. run_keeps_trace. Qed.

Create HintDb go discriminated.
#[local] Hint Resolve grows_ret grows_panic grows_osExit grows_timeNow
  grows_CreateIPAddress grows_GetAvailableIPForAllocation grows_AllocateIPAddress
  grows_DeallocateIPAddress grows_GetIPAddressByServerID grows_TruncateIPAddresses
  grows_CreateNewServer grows_GetServer grows_ListServers grows_UpdateServerStatus
  grows_UpdateServerUptime grows_AppendServerLifecycleLog
  grows_EnforceLifecycleLogsLimit grows_TerminateAllServers : go.

Ltac grows_tac :=
  repeat first
    [ solve [auto with go]
    | apply grows_via
    | apply grows_bind; [ | intros ? ]
    | match goal with
      | |- grows (match ?x with _ => _ end) => destruct x
      | |- grows (if ?b then _ else _) => destruct b
      end ].

Lemma grows_append_and_limit q id msg : grows (services.append_and_limit q id msg).
Proof. unfold services.append_and_limit. grows_tac. Qed.

Lemma grows_AppendServerLifecycleLogs s bd ctx id msg :
  grows (services.AppendServerLifecycleLogs s bd ctx id msg).
Proof.
  unfold services.AppendServerLifecycleLogs.
  destruct s as [s'|]; [|auto with go].
  destruct (services.queries s'); [apply grows_append_and_limit|].
  destruct bd; [apply grows_append_and_limit | auto with go].
Qed.
#[local] Hint Resolve grows_append_and_limit grows_AppendServerLifecycleLogs : go.

Lemma sent_by_grows {A} (m : Go A) db l :
  trace (snd (m db)) = (trace db ++ l)%list -> sent_by m db = l.
Proof.
  intros H. unfold sent_by. rewrite H.
  rewrite skipn_app, skipn_all, Nat.sub_diag. reflexivity.
Qed.

Lemma statement_trace {A} q (run : DB -> result A * DB) db :
  (forall d, trace (snd (run d)) = trace d) ->
  trace (snd (statement q run db)) = (trace db ++ [q])%list.
Proof.
  intros H. rewrite statement_run.
  destruct (faults db) as [|[e|] rest]; simpl; try reflexivity; now rewrite H.
Qed.

(** A program that starts with a statement has sent that statement first. *)
Lemma first_statement_trace {A B} q (run : DB -> result A * DB)
    (k : result A -> Go B) db :
  (forall d, trace (snd (run d)) = trace d) ->
  (forall r, grows (k r)) ->
  exists rest, trace (snd (bind (statement q run) k db)) = (trace db ++ q :: rest)%list.
Proof.
  intros Hrun Hk.
  destruct (statement_returns q run db) as (r & db1 & E).
  pose proof (statement_trace q run db Hrun) as T. rewrite E in T. simpl in T.
  destruct (Hk r db1) as [l Hl]. exists l.
  rewrite (bind_returns _ _ _ _ _ E), Hl, T.
  now rewrite <- app_assoc.
Qed.

Lemma first_statement {A B} q (run : DB -> result A * DB) (k : result A -> Go B) db :
  (forall d, trace (snd (run d)) = trace d) ->
  (forall r, grows (k r)) ->
  exists rest, sent_by (bind (statement q run) k) db = q :: rest.
Proof.
  intros Hrun Hk.
  destruct (first_statement_trace q run k db Hrun Hk) as [rest T].
  exists rest. now apply sent_by_grows.
Qed.

(** ** The lifecycle state machine *)

Lemma IsValidTransition_table cur tgt :
  util.IsValidTransition cur tgt = true <-> In (cur, tgt) transition_table.
Proof.
  unfold util.IsValidTransition, transition_table.
  split.
  - destruct (String.eqb_spec cur util.ServerStatusProvisioning) as [->|];
      [|destruct (String.eqb_spec cur util.ServerStatusRunning) as [->|];
        [|destruct (String.eqb_spec cur util.ServerStatusStopped) as [->|];
          [|destruct (cur =? util.ServerStatusTerminated); discriminate]]];
      intros H; apply orb_true_iff in H; destruct H as [H|H];
      apply String.eqb_eq in H; subst tgt; simpl; tauto.
  - intros H. simpl in H.
    repeat (destruct H as [H|H]; [inversion H; subst; reflexivity|]).
    contradiction.
Qed.

Lemma IsValidTransition_refused cur tgt :
  ~ In (cur, tgt) transition_table -> util.IsValidTransition cur tgt = false.
Proof.
  intros H. destruct (util.IsValidTransition cur tgt) eqn:E; [|reflexivity].
  apply IsValidTransition_table in E. contradiction.
Qed.

Lemma from_terminated_refused tgt :
  util.IsValidTransition util.ServerStatusTerminated tgt = false.
Proof. reflexivity. Qed.

Lemma self_transition_refused st : util.IsValidTransition st st = false.
Proof.
  apply IsValidTransition_refused. intros H. simpl in H.
  repeat (destruct H as [H|H]; [inversion H; subst; discriminate|]).
  contradiction.
Qed.

Section Requests.
Variables (s : services.ServerService) (ctx : services.Context) (server : Server.t).
Hypothesis Hq : services.queries s = Some services.Conn.

Lemma StartServer_refuses db :
  util.IsValidTransition (Server.Status server) util.ServerStatusRunning = false ->
  services.StartServer s ctx server db =
    (Returns (Err (services.invalid_transition (Server.Status server)
                     util.ServerStatusRunning)), db).
Proof. intros H. unfold services.StartServer. rewrite H. reflexivity. Qed.

Lemma StopServer_refuses db :
  util.IsValidTransition (Server.Status server) util.ServerStatusStopped = false ->
  services.StopServer s ctx server db =
    (Returns (Err (services.invalid_transition (Server.Status server)
                     util.ServerStatusStopped)), db).
Proof. intros H. unfold services.StopServer. rewrite H. reflexivity. Qed.

Lemma TerminateServer_refuses db :
  util.IsValidTransition (Server.Status server) util.ServerStatusTerminated = false ->
  services.TerminateServer s ctx server db =
    (Returns (Err (services.invalid_transition (Server.Status server)
                     util.ServerStatusTerminated)), db).
Proof. intros H. unfold services.TerminateServer. rewrite H. reflexivity. Qed.

Lemma StartServer_accepts db :
  util.IsValidTransition (Server.Status server) util.ServerStatusRunning = true ->
  exists rest, sent_by (services.StartServer s ctx server) db =
    QUpdateServerStatus util.ServerStatusRunning (Server.ID server) :: rest.
Proof.
  intros H. unfold services.StartServer. rewrite H, Hq. simpl negb. cbv iota.
  apply first_statement; [run_keeps_trace | intros r; grows_tac].
Qed.

Lemma StopServer_accepts db :
  util.IsValidTransition (Server.Status server) util.ServerStatusStopped = true ->
  exists rest, sent_by (services.StopServer s ctx server) db =
    QUpdateServerStatus util.ServerStatusStopped (Server.ID server) :: rest.
Proof.
  intros H. unfold services.StopServer. rewrite H, Hq. simpl negb. cbv iota.
  apply first_statement; [run_keeps_trace | intros r; grows_tac].
Qed.

Lemma TerminateServer_accepts db :
  util.IsValidTransition (Server.Status server) util.ServerStatusTerminated = true ->
  exists rest, sent_by (services.TerminateServer s ctx server) db =
    QUpdateServerStatus util.ServerStatusTerminated (Server.ID server) :: rest.
Proof.
  intros H. unfold services.TerminateServer. rewrite H, Hq. simpl negb. cbv iota.
  apply first_statement; [run_keeps_trace | intros r; grows_tac].
Qed.

End Requests.

(** C1.  The state machine accepts a requested transition exactly when the
    pair (current status, requested status) is one of the six pairs of the
    transition table.  Every request out of the terminated state and every
    request to stay in the same state is refused.  The three requests that
    consult the table (start, stop, terminate) refuse a pair outside the
    table before any statement reaches the store, with an error that spells
    the current and the requested status; for a pair of the table the first
    statement they send is the status update. *)
Theorem transition_accepted_iff_in_table
    (s : services.ServerService) (ctx : services.Context) (server : Server.t)
    (db : DB) (desired : string) :
  services.queries s = Some services.Conn ->
  let current := Server.Status server in
  (util.IsValidTransition current desired = true
     <-> In (current, desired) transition_table)
  /\ util.IsValidTransition util.ServerStatusTerminated desired = false
  /\ util.IsValidTransition current current = false
  /\ forall request,
       In (request, desired)
          [ (services.StartServer, util.ServerStatusRunning);
            (services.StopServer, util.ServerStatusStopped);
            (services.TerminateServer, util.ServerStatusTerminated) ] ->
       (In (current, desired) transition_table ->
          exists rest, sent_by (request s ctx server) db =
            QUpdateServerStatus desired (Server.ID server) :: rest)
       /\ (~ In (current, desired) transition_table ->
            request s ctx server db =
              (Returns (Err ("invalid state transition from " ++ current
                               ++ " to " ++ desired)), db)).
Proof.
  intros Hq current.
  split; [apply IsValidTransition_table|].
  split; [apply from_terminated_refused|].
  split; [apply self_transition_refused|].
  intros request Hin. simpl in Hin.
  destruct Hin as [E|[E|[E|[]]]]; inversion E; subst request desired; split; intros H.
  - apply StartServer_accepts; [exact Hq | now apply IsValidTransition_table].
  - apply StartServer_refuses. now apply IsValidTransition_refused.
  - apply StopServer_accepts; [exact Hq | now apply IsValidTransition_table].
  - apply StopServer_refuses. now apply IsValidTransition_refused.
  - apply TerminateServer_accepts; [exact Hq | now apply IsValidTransition_table].
  - apply TerminateServer_refuses. now apply IsValidTransition_refused.
Qed.

Lemma transition_accepted_iff_in_table_witness :
  services.StartServer service "req-1"
      (a_server 7 util.ServerStatusTerminated 0 0 []) empty_store
    = (Returns (Err "invalid state transition from terminated to running"),
       empty_store)
  /\ exists rest,
       sent_by (services.StopServer service "req-1"
                  (a_server 7 util.ServerStatusRunning 0 0 [])) empty_store
         = QUpdateServerStatus "stopped" 7 :: rest.
Proof.
  split.
  - destruct (transition_accepted_iff_in_table service "req-1"
                (a_server 7 util.ServerStatusTerminated 0 0 []) empty_store
                util.ServerStatusRunning eq_refl) as (_ & _ & _ & H).
    destruct (H services.StartServer (or_introl eq_refl)) as [_ Hr].
    apply Hr. simpl. intros Hin.
    repeat (destruct Hin as [Hin|Hin]; [discriminate Hin|]). exact Hin.
  - destruct (transition_accepted_iff_in_table service "req-1"
                (a_server 7 util.ServerStatusRunning 0 0 []) empty_store
                util.ServerStatusStopped eq_refl) as (_ & _ & _ & H).
    destruct (H services.StopServer (or_intror (or_introl eq_refl))) as [Ha _].
    apply Ha. simpl. tauto.
Defined.

(** ** What a run leaves alone *)

Section Preserved.
Variable R : DB -> DB -> Prop.
Hypothesis R_refl : forall d, R d d.
Hypothesis R_trans : forall a b c, R a b -> R b c -> R a c.

Lemma preserves_ret {A} (a : A) : preserves R (ret a).
Proof. intros db. apply R_refl. Qed.

Lemma preserves_panic {A} msg : preserves R (@panic A msg).
Proof. intros db. apply R_refl. Qed.

Lemma preserves_osExit {A} c : preserves R (@osExit A c).
Proof. intros db. apply R_refl. Qed.

Lemma preserves_timeNow : preserves R timeNow.
Proof. intros db. apply R_refl. Qed.

Lemma preserves_bind {A B} (m : Go A) (k : A -> Go B) :
  preserves R m -> (forall a, preserves R (k a)) -> preserves R (bind m k).
Proof.
  intros Hm Hk db. unfold bind. specialize (Hm db).
  destruct (m db) as [[a|msg|c] db1]; simpl in *; auto.
  eapply R_trans; [exact Hm | apply Hk].
Qed.

Lemma preserves_via {P A} (p : option P) (m : Go A) :
  preserves R m -> preserves R (services.via p m).
Proof. intros H. destruct p; simpl; [exact H | apply preserves_panic]. Qed.

Lemma preserves_statement {A} q (run : DB -> result A * DB) :
  (forall d, R d (received q d)) -> (forall d, R d (snd (run d))) ->
  preserves R (statement q run).
Proof.
  intros Hq Hrun db. rewrite statement_run.
  destruct (faults db) as [|[e|] rest]; simpl; auto;
    (eapply R_trans; [apply Hq | apply Hrun]).
Qed.

End Preserved.

Lemma same_ips_refl d : same_ips d d. Proof. reflexivity. Qed.
Lemma same_ips_trans a b c : same_ips a b -> same_ips b c -> same_ips a c.
Proof. unfold same_ips. congruence. Qed.
Lemma same_servers_refl d : same_servers d d. Proof. reflexivity. Qed.
Lemma same_servers_trans a b c : same_servers a b -> same_servers b c -> same_servers a c.
Proof. unfold same_servers. congruence. Qed.
Lemma same_clock_refl d : same_clock d d. Proof. reflexivity. Qed.
Lemma same_clock_trans a b c : same_clock a b -> same_clock b c -> same_clock a c.
Proof. unfold same_clock. congruence. Qed.
Lemma stays_healthy_refl d : stays_healthy d d. Proof. intros H; exact H. Qed.
Lemma stays_healthy_trans a b c :
  stays_healthy a b -> stays_healthy b c -> stays_healthy a c.
Proof. unfold stays_healthy. auto. Qed.
Lemma same_ids_refl d : same_ids d d. Proof. reflexivity. Qed.
Lemma same_ids_trans a b c : same_ids a b -> same_ids b c -> same_ids a c.
Proof. unfold same_ids. congruence. Qed.
Lemma same_statuses_refl d : same_statuses d d. Proof. reflexivity. Qed.
Lemma same_statuses_trans a b c :
  same_statuses a b -> same_statuses b c -> same_statuses a c.
Proof. unfold same_statuses. congruence. Qed.

(** Rows updated in place keep their place. *)
Lemma map_update_where {A B} (g : A -> B) (p : A -> bool) (f : A -> A) l :
  (forall x, g (f x) = g x) -> map g (sqlc.update_where p f l) = map g l.
Proof.
  intros H. unfold sqlc.update_where. rewrite map_map.
  apply map_ext. intros x. destruct (p x); auto.
Qed.

Lemma one_filter {A} (p : A -> bool) l :
  sqlc.one (filter p l) = match find p l with Some r => Ok r | None => Err ErrNoRows end.
Proof.
  induction l as [|x l IH]; simpl; [reflexivity|].
  destruct (p x); simpl; auto.
Qed.

Lemma one_map_filter {A B} (g : A -> B) (p : A -> bool) l :
  sqlc.one (map g (filter p l))
  = match find p l with Some r => Ok (g r) | None => Err ErrNoRows end.
Proof.
  induction l as [|x l IH]; simpl; [reflexivity|].
  destruct (p x); simpl; auto.
Qed.

Lemma filter_nil_find {A} (p : A -> bool) l :
  filter p l = [] <-> find p l = None.
Proof.
  induction l as [|x l IH]; simpl; [tauto|].
  destruct (p x); [split; discriminate | exact IH].
Qed.

Lemma find_update_where {A} (p : A -> bool) (f : A -> A) l :
  (forall x, p (f x) = p x) ->
  find p (sqlc.update_where p f l) = option_map f (find p l).
Proof.
  intros H. induction l as [|x l IH]; simpl; [reflexivity|].
  destruct (p x) eqn:E.
  - rewrite H, E. reflexivity.
  - rewrite E. exact IH.
Qed.

(** A row is found by id exactly when the id is among the ids. *)
Lemma row_by_ids id l l' :
  map Server.ID l' = map Server.ID l ->
  find (sqlc.server_is id) l = None -> find (sqlc.server_is id) l' = None.
Proof.
  revert l'. induction l as [|x l IH]; intros [|y l'] E H; simpl in *;
    try discriminate; auto.
  inversion E as [[E1 E2]]. unfold sqlc.server_is in *. rewrite E1.
  destruct (N.eqb (Server.ID x) id); [discriminate|]. now apply IH.
Qed.

Lemma row_status_by_statuses id l l' :
  map (fun s => (Server.ID s, Server.Status s)) l'
  = map (fun s => (Server.ID s, Server.Status s)) l ->
  option_map Server.Status (find (sqlc.server_is id) l')
  = option_map Server.Status (find (sqlc.server_is id) l).
Proof.
  revert l'. induction l as [|x l IH]; intros [|y l'] E; simpl in *;
    try discriminate; auto.
  inversion E as [[E1 E2 E3]]. unfold sqlc.server_is in *. rewrite E1.
  destruct (N.eqb (Server.ID x) id); simpl; [now rewrite E2 | now apply IH].
Qed.

Ltac preorder :=
  first [ exact same_ips_refl | exact same_ips_trans
        | exact same_servers_refl | exact same_servers_trans
        | exact same_clock_refl | exact same_clock_trans
        | exact stays_healthy_refl | exact stays_healthy_trans
        | exact same_ids_refl | exact same_ids_trans
        | exact same_statuses_refl | exact same_statuses_trans ].

Arguments sqlc.update_where : simpl never.

(** The tables a statement leaves alone are read off its text. *)
Ltac run_keeps :=
  intros ?; red; simpl;
  repeat match goal with
         | |- context [if ?b then _ else _] => destruct b; simpl
         | |- context [match ?x with _ => _ end] => destruct x; simpl
         end;
  try reflexivity;
  try (let H := fresh in intros H; solve [assumption | rewrite H; reflexivity]);
  try (apply map_update_where; intros ?; simpl;
       repeat match goal with
              | |- context [if ?b then _ else _] => destruct b; simpl
              end; reflexivity).

Ltac statement_keeps :=
  unfold sqlc.CreateIPAddress, sqlc.GetAvailableIPForAllocation,
    sqlc.AllocateIPAddress, sqlc.DeallocateIPAddress, sqlc.GetIPAddressByServerID,
    sqlc.TruncateIPAddresses, sqlc.CreateNewServer, sqlc.GetServer,
    sqlc.ListServers, sqlc.UpdateServerStatus, sqlc.UpdateServerUptime,
    sqlc.AppendServerLifecycleLog, sqlc.EnforceLifecycleLogsLimit,
    sqlc.TerminateAllServers;
  apply preserves_statement; [ preorder | run_keeps | run_keeps ].

Ltac keeps_tac :=
  repeat first
    [ apply preserves_ret; preorder
    | apply preserves_panic; preorder
    | apply preserves_osExit; preorder
    | apply preserves_timeNow; preorder
    | apply preserves_via
    | apply preserves_bind; [ preorder | | intros ? ]
    | match goal with
      | |- preserves _ (match ?x with _ => _ end) => destruct x
      | |- preserves _ (if ?b then _ else _) => destruct b
      end
    | solve [statement_keeps]
    | solve [auto with go] ].

Section LogAppend.
Variables (q : option services.Queries) (id : UUID) (msg : string).

Lemma append_keeps_ips : preserves same_ips (services.append_and_limit q id msg).
Proof. unfold services.append_and_limit. keeps_tac. Qed.

Lemma append_keeps_clock : preserves same_clock (services.append_and_limit q id msg).
Proof. unfold services.append_and_limit. keeps_tac. Qed.

Lemma append_stays_healthy : preserves stays_healthy (services.append_and_limit q id msg).
Proof. unfold services.append_and_limit. keeps_tac. Qed.

Lemma append_keeps_statuses : preserves same_statuses (services.append_and_limit q id msg).
Proof. unfold services.append_and_limit. keeps_tac. Qed.

End LogAppend.

Section LogAppendEither.
Variables (s : option services.ServerService) (bd : option services.BillingDaemon)
  (ctx : services.Context) (id : UUID) (msg : string).

Ltac either_branch lemma :=
  unfold services.AppendServerLifecycleLogs;
  destruct s as [s'|]; [|apply preserves_panic; preorder];
  destruct (services.queries s'); [apply lemma|];
  destruct bd; [apply lemma | apply preserves_panic; preorder].

Lemma log_keeps_ips :
  preserves same_ips (services.AppendServerLifecycleLogs s bd ctx id msg).
Proof. either_branch append_keeps_ips. Qed.

Lemma log_keeps_clock :
  preserves same_clock (services.AppendServerLifecycleLogs s bd ctx id msg).
Proof. either_branch append_keeps_clock. Qed.

Lemma log_stays_healthy :
  preserves stays_healthy (services.AppendServerLifecycleLogs s bd ctx id msg).
Proof. either_branch append_stays_healthy. Qed.

Lemma log_keeps_statuses :
  preserves same_statuses (services.AppendServerLifecycleLogs s bd ctx id msg).
Proof. either_branch append_keeps_statuses. Qed.

End LogAppendEither.

#[local] Hint Resolve log_keeps_ips log_keeps_clock log_stays_healthy
  log_keeps_statuses : go.

(** ** Programs that always return *)

Lemma returns_ret {A} (a : A) : returns (ret a).
Proof. intros db. simpl. unfold ret. eauto. Qed.

Lemma returns_timeNow : returns timeNow.
Proof. intros db. unfold timeNow. eauto. Qed.

Lemma returns_bind {A B} (m : Go A) (k : A -> Go B) :
  returns m -> (forall a, returns (k a)) -> returns (bind m k).
Proof.
  intros Hm Hk db. destruct (Hm db) as (a & db1 & E).
  rewrite (bind_returns _ _ _ _ _ E). apply Hk.
Qed.

Lemma returns_statement {A} q (run : DB -> result A * DB) : returns (statement q run).
Proof. intros db. apply statement_returns. Qed.

Lemma returns_via {P A} (p : P) (m : Go A) : returns m -> returns (services.via (Some p) m).
Proof. intros H. exact H. Qed.

Ltac returns_tac :=
  repeat first
    [ apply returns_ret
    | apply returns_timeNow
    | apply returns_statement
    | apply returns_via
    | apply returns_bind; [ | intros ? ]
    | match goal with
      | |- returns (match ?x with _ => _ end) => destruct x
      | |- returns (if ?b then _ else _) => destruct b
      end ].

(** Passing a result on unchanged is the same as not looking at it. *)
Lemma bind_pass {A} (m : Go (result A)) db :
  returns m ->
  bind m (fun r => match r with
                   | Ok a => ret (Ok a)
                   | Err e => ret (Err e)
                   end) db = m db.
Proof.
  intros H. destruct (H db) as (r & db1 & E).
  rewrite (bind_returns _ _ _ _ _ E), E. destruct r; reflexivity.
Qed.

(** ** Statements on a healthy store *)

Lemma append_and_limit_returns c id msg :
  returns (services.append_and_limit (Some c) id msg).
Proof. unfold services.append_and_limit. returns_tac. Qed.

Lemma AppendServerLifecycleLogs_request s ctx id msg :
  services.queries s = Some services.Conn ->
  services.AppendServerLifecycleLogs (Some s) None ctx id msg
  = services.append_and_limit (Some services.Conn) id msg.
Proof. intros Hq. unfold services.AppendServerLifecycleLogs. now rewrite Hq. Qed.

(** The status update, when the environment lets it run and the row is
    there. *)
Lemma UpdateServerStatus_applied st id db r :
  hd None (faults db) = None -> row id db = Some r -> fits 15 st = true ->
  sqlc.UpdateServerStatus st id db
  = (Returns (Ok (Server.set_status st (now db) r)),
     with_servers (sqlc.update_where (sqlc.server_is id)
                     (Server.set_status st (now db)) (servers db))
                  (received (QUpdateServerStatus st id) db)).
Proof.
  intros Hf Hr Hfit. unfold sqlc.UpdateServerStatus. rewrite statement_run.
  unfold row in Hr.
  assert (F : faults db = [] \/ exists rest, faults db = None :: rest).
  { destruct (faults db) as [|[e|] rest]; simpl in Hf; try discriminate; eauto. }
  assert (N : filter (sqlc.server_is id) (servers db) <> []).
  { intros E. apply filter_nil_find in E. congruence. }
  destruct F as [F|[rest F]]; rewrite F; simpl;
    rewrite one_map_filter, Hr;
    (destruct (filter (sqlc.server_is id) (servers db)) eqn:E; [congruence|]);
    rewrite Hfit; reflexivity.
Qed.

Lemma row_after_status_update st id at_ l r :
  find (sqlc.server_is id) l = Some r ->
  find (sqlc.server_is id) (sqlc.update_where (sqlc.server_is id)
                              (Server.set_status st at_) l)
  = Some (Server.set_status st at_ r).
Proof.
  intros H. rewrite find_update_where; [now rewrite H | reflexivity].
Qed.

Lemma row_found_has_id id l r :
  find (sqlc.server_is id) l = Some r -> Server.ID r = id.
Proof.
  intros H. apply find_some in H. destruct H as [_ H].
  now apply N.eqb_eq in H.
Qed.

(** ** Reboot *)

Section Reboot.
Variables (s : services.ServerService) (ctx : services.Context) (server : Server.t).
Hypothesis Hq : services.queries s = Some services.Conn.

Lemma RebootServer_refuses db :
  Server.Status server = util.ServerStatusTerminated ->
  services.RebootServer s ctx server db
  = (Returns (Err "invalid state transition: cannot reboot from terminated"), db).
Proof. intros H. unfold services.RebootServer. rewrite H. reflexivity. Qed.

(** Any other status: the log entry, then the status update, whose result
    is the result of the request. *)
Lemma RebootServer_runs db :
  Server.Status server <> util.ServerStatusTerminated ->
  services.RebootServer s ctx server db
  = sqlc.UpdateServerStatus util.ServerStatusRunning (Server.ID server)
      (snd (services.append_and_limit (Some services.Conn) (Server.ID server)
              (services.lifecycle_message ctx "Server reboot initiated"
                 (Server.ID server) (now db)) db)).
Proof.
  intros H. unfold services.RebootServer.
  destruct (String.eqb_spec (Server.Status server) util.ServerStatusTerminated);
    [contradiction|].
  rewrite bind_timeNow, (AppendServerLifecycleLogs_request _ _ _ _ Hq).
  destruct (append_and_limit_returns services.Conn (Server.ID server)
              (services.lifecycle_message ctx "Server reboot initiated"
                 (Server.ID server) (now db)) db) as (r & db1 & E).
  rewrite (bind_returns _ _ _ _ _ E), E. simpl snd. rewrite Hq. simpl services.via.
  apply bind_pass. apply returns_statement.
Qed.

End Reboot.

Lemma row_survives_append c id msg db r :
  row id db = Some r ->
  exists r', row id (snd (services.append_and_limit (Some c) id msg db)) = Some r'
             /\ Server.Status r' = Server.Status r.
Proof.
  intros Hr.
  pose proof (append_keeps_statuses (Some c) id msg db) as S. red in S.
  apply (row_status_by_statuses id) in S. unfold row in *.
  rewrite Hr in S. simpl in S.
  destruct (find (sqlc.server_is id) (servers (snd _))) as [r'|]; simpl in S;
    [|discriminate].
  exists r'. split; [reflexivity | congruence].
Qed.

Lemma RebootServer_sends_update s ctx server db :
  services.queries s = Some services.Conn ->
  Server.Status server <> util.ServerStatusTerminated ->
  In (QUpdateServerStatus util.ServerStatusRunning (Server.ID server))
     (sent_by (services.RebootServer s ctx server) db).
Proof.
  intros Hq H.
  pose proof (RebootServer_runs s ctx server Hq db H) as E.
  set (msg := services.lifecycle_message ctx "Server reboot initiated"
                (Server.ID server) (now db)) in *.
  destruct (grows_append_and_limit (Some services.Conn) (Server.ID server) msg db)
    as [l Hl].
  assert (T : trace (snd (services.RebootServer s ctx server db))
              = (trace db ++ (l ++ [QUpdateServerStatus util.ServerStatusRunning
                                      (Server.ID server)]))%list).
  { rewrite E. unfold sqlc.UpdateServerStatus.
    rewrite statement_trace; [|run_keeps_trace]. rewrite Hl. now rewrite app_assoc. }
  rewrite (sent_by_grows _ _ _ T). apply in_or_app. right. now left.
Qed.

(** The statements of one log append: the append, and the limit after it
    when the text that came back has more than 100 bytes. *)
Lemma append_and_limit_sends id msg db :
  sent_by (services.append_and_limit (Some services.Conn) id msg) db
  = [QAppendServerLifecycleLog msg id]
  \/ sent_by (services.append_and_limit (Some services.Conn) id msg) db
     = [QAppendServerLifecycleLog msg id; QEnforceLifecycleLogsLimit id].
Proof.
  unfold services.append_and_limit. cbn [services.via].
  assert (R1 : returns (sqlc.AppendServerLifecycleLog msg id))
    by apply returns_statement.
  assert (T1 : trace (snd (sqlc.AppendServerLifecycleLog msg id db))
               = (trace db ++ [QAppendServerLifecycleLog msg id])%list)
    by (apply statement_trace; run_keeps_trace).
  destruct (R1 db) as (r & db1 & E1). rewrite E1 in T1. cbn [snd] in T1.
  destruct r as [text|e].
  - destruct (Nat.ltb 100 (String.length text)) eqn:G.
    + right. apply sent_by_grows. rewrite (bind_returns _ _ _ _ _ E1), G.
      assert (R2 : returns (sqlc.EnforceLifecycleLogsLimit id))
        by apply returns_statement.
      assert (T2 : trace (snd (sqlc.EnforceLifecycleLogsLimit id db1))
                   = (trace db1 ++ [QEnforceLifecycleLogsLimit id])%list)
        by (apply statement_trace; run_keeps_trace).
      destruct (R2 db1) as (r2 & db2 & E2). rewrite E2 in T2. cbn [snd] in T2.
      rewrite (bind_returns _ _ _ _ _ E2).
      destruct r2; cbn [snd ret]; rewrite T2, T1, <- app_assoc; reflexivity.
    + left. apply sent_by_grows. rewrite (bind_returns _ _ _ _ _ E1), G. exact T1.
  - left. apply sent_by_grows. rewrite (bind_returns _ _ _ _ _ E1). exact T1.
Qed.

(** The statements of a reboot that is not refused: those of the log
    append, then the update of the status to running, and nothing else. *)
Lemma RebootServer_sends s ctx server db :
  services.queries s = Some services.Conn ->
  Server.Status server <> util.ServerStatusTerminated ->
  sent_by (services.RebootServer s ctx server) db
  = (sent_by (services.append_and_limit (Some services.Conn) (Server.ID server)
                (services.lifecycle_message ctx "Server reboot initiated"
                   (Server.ID server) (now db))) db
     ++ [QUpdateServerStatus util.ServerStatusRunning (Server.ID server)])%list.
Proof.
  intros Hq H.
  pose proof (RebootServer_runs s ctx server Hq db H) as E.
  set (msg := services.lifecycle_message ctx "Server reboot initiated"
                (Server.ID server) (now db)) in *.
  destruct (grows_append_and_limit (Some services.Conn) (Server.ID server) msg db)
    as [l Hl].
  rewrite (sent_by_grows _ _ _ Hl).
  apply sent_by_grows. rewrite E. unfold sqlc.UpdateServerStatus.
  rewrite statement_trace; [|run_keeps_trace]. rewrite Hl. now rewrite app_assoc.
Qed.

(** C9.  A reboot request is refused, with an invalid-transition error and
    before anything reaches the store, exactly for a terminated server.  For
    every other status (provisioning, running, stopped; running included)
    the request goes directly to running: it writes its log entry, which
    leaves every status in the store as it was, then sends one update of
    the status, to running, and returns what that update returns.  The
    statements it sends are the log append (with the limit, when the log is
    long) and that one update: no statement sets another status, so the
    server is never stopped on the way.  On a store that applies the
    update, the server it returns and the stored row are running. *)
Theorem reboot_refused_only_when_terminated
    (s : services.ServerService) (ctx : services.Context) (server : Server.t)
    (db : DB) :
  services.queries s = Some services.Conn ->
  (Server.Status server = util.ServerStatusTerminated ->
     services.RebootServer s ctx server db
     = (Returns (Err "invalid state transition: cannot reboot from terminated"), db))
  /\ (Server.Status server <> util.ServerStatusTerminated ->
        (exists db1,
           services.RebootServer s ctx server db
           = sqlc.UpdateServerStatus util.ServerStatusRunning (Server.ID server) db1
           /\ same_statuses db db1)
        /\ (let logged :=
              QAppendServerLifecycleLog
                (services.lifecycle_message ctx "Server reboot initiated"
                   (Server.ID server) (now db)) (Server.ID server) in
            let limited := QEnforceLifecycleLogsLimit (Server.ID server) in
            let updated :=
              QUpdateServerStatus util.ServerStatusRunning (Server.ID server) in
            sent_by (services.RebootServer s ctx server) db = [logged; updated]
            \/ sent_by (services.RebootServer s ctx server) db
               = [logged; limited; updated])
        /\ In (QUpdateServerStatus util.ServerStatusRunning (Server.ID server))
              (sent_by (services.RebootServer s ctx server) db)
        /\ forall r, faults db = [] -> row (Server.ID server) db = Some r ->
             exists u db',
               services.RebootServer s ctx server db = (Returns (Ok u), db')
               /\ Server.ID u = Server.ID server
               /\ Server.Status u = util.ServerStatusRunning
               /\ option_map Server.Status (row (Server.ID server) db')
                  = Some util.ServerStatusRunning).
Proof.
  intros Hq. split; [apply RebootServer_refuses|].
  intros H. split.
  { eexists. split; [apply (RebootServer_runs s ctx server Hq db H)|].
    apply append_keeps_statuses. }
  split.
  { cbv zeta. rewrite (RebootServer_sends s ctx server db Hq H).
    destruct (append_and_limit_sends (Server.ID server)
                (services.lifecycle_message ctx "Server reboot initiated"
                   (Server.ID server) (now db)) db) as [E|E];
      rewrite E; [left | right]; reflexivity. }
  split; [now apply RebootServer_sends_update|].
  intros r Hf Hr. rewrite (RebootServer_runs s ctx server Hq db H).
  set (msg := services.lifecycle_message ctx "Server reboot initiated"
                (Server.ID server) (now db)).
  destruct (row_survives_append services.Conn (Server.ID server) msg db r Hr)
    as (r1 & Hr1 & _).
  pose proof (append_stays_healthy (Some services.Conn) (Server.ID server) msg db Hf)
    as Hf1.
  set (db1 := snd (services.append_and_limit (Some services.Conn)
                     (Server.ID server) msg db)) in *.
  rewrite (UpdateServerStatus_applied _ _ db1 r1); [|now rewrite Hf1|exact Hr1|reflexivity].
  eexists. eexists. split; [reflexivity|].
  split; [simpl; now apply row_found_has_id with (l := servers db1)|].
  split; [reflexivity|].
  unfold row. simpl servers.
  rewrite (row_after_status_update _ _ _ _ r1 Hr1). reflexivity.
Qed.

Lemma reboot_refused_only_when_terminated_witness :
  (exists u db',
     services.RebootServer service "req-2"
       (a_server 7 util.ServerStatusRunning 10 0 [])
       (store_of [a_server 7 util.ServerStatusRunning 10 0 []] [] 5)
     = (Returns (Ok u), db')
     /\ Server.Status u = "running")
  /\ sent_by (services.RebootServer service "req-2"
                (a_server 7 util.ServerStatusRunning 10 0 []))
             (store_of [a_server 7 util.ServerStatusRunning 10 0 []] [] 5)
     = [ QAppendServerLifecycleLog
           (services.lifecycle_message "req-2" "Server reboot initiated" 7 5) 7;
         QUpdateServerStatus "running" 7 ]
  /\ services.RebootServer service "req-2"
       (a_server 7 util.ServerStatusTerminated 10 0 []) empty_store
     = (Returns (Err "invalid state transition: cannot reboot from terminated"),
        empty_store).
Proof.
  assert (N : Server.Status (a_server 7 util.ServerStatusRunning 10 0 [])
              <> util.ServerStatusTerminated) by (simpl; discriminate).
  split; [|split].
  - destruct (reboot_refused_only_when_terminated service "req-2"
                (a_server 7 util.ServerStatusRunning 10 0 [])
                (store_of [a_server 7 util.ServerStatusRunning 10 0 []] [] 5)
                eq_refl) as [_ H].
    destruct (H N) as (_ & _ & _ & H2).
    destruct (H2 (a_server 7 util.ServerStatusRunning 10 0 []) eq_refl eq_refl)
      as (u & db' & E & _ & St & _).
    exists u, db'. split; [exact E | exact St].
  - destruct (reboot_refused_only_when_terminated service "req-2"
                (a_server 7 util.ServerStatusRunning 10 0 [])
                (store_of [a_server 7 util.ServerStatusRunning 10 0 []] [] 5)
                eq_refl) as [_ H].
    destruct (H N) as (_ & [S|S] & _); [exact S|].
    assert (T : sent_by (services.RebootServer service "req-2"
                           (a_server 7 util.ServerStatusRunning 10 0 []))
                        (store_of [a_server 7 util.ServerStatusRunning 10 0 []] [] 5)
                = [ QAppendServerLifecycleLog
                      (services.lifecycle_message "req-2" "Server reboot initiated" 7 5) 7;
                    QUpdateServerStatus "running" 7 ]) by (vm_compute; reflexivity).
    exact T.
  - destruct (reboot_refused_only_when_terminated service "req-2"
                (a_server 7 util.ServerStatusTerminated 10 0 []) empty_store
                eq_refl) as [H _].
    apply H. reflexivity.
Defined.

(** ** Terminate *)

Lemma UpdateServerStatus_ok st id db u db1 :
  sqlc.UpdateServerStatus st id db = (Returns (Ok u), db1) ->
  Server.Status u = st
  /\ option_map Server.Status (row id db1) = Some st
  /\ ip_addresses db1 = ip_addresses db
  /\ trace db1 = (trace db ++ [QUpdateServerStatus st id])%list.
Proof.
  intros H. apply statement_inv in H.
  destruct H as [(e & _ & H & _)|[_ R]]; [discriminate|].
  cbv beta zeta in R. rewrite one_map_filter in R.
  destruct (filter (sqlc.server_is id) (servers (received _ db))); [discriminate|].
  destruct (fits 15 st); [|discriminate].
  destruct (find (sqlc.server_is id) (servers (received _ db))) as [r|] eqn:F;
    [|discriminate].
  inversion R; subst u db1. clear R.
  repeat split; try reflexivity.
  unfold row. simpl servers in *. now rewrite (row_after_status_update _ _ _ _ r F).
Qed.

Lemma GetIPAddressByServerID_run id db r db2 :
  sqlc.GetIPAddressByServerID id db = (Returns r, db2) ->
  servers db2 = servers db /\ ip_addresses db2 = ip_addresses db
  /\ trace db2 = (trace db ++ [QGetIPAddressByServerID id])%list
  /\ (filter (sqlc.owned_by id) (ip_addresses db) = [] ->
      exists e, r = Err e /\ (hd None (faults db) = None -> e = ErrNoRows))
  /\ (forall ip, r = Ok ip -> sqlc.owned_by id ip = true /\ In ip (ip_addresses db)).
Proof.
  intros H. apply statement_inv in H.
  destruct H as [(e & F & -> & ->)|[_ R]].
  - repeat split; try reflexivity.
    + intros _. exists e. split; [reflexivity|]. rewrite F. discriminate.
    + discriminate.
    + discriminate.
  - cbv beta in R. inversion R as [[R1 R2]]. repeat split; try reflexivity.
    + simpl. intros ->. simpl. eauto.
    + rewrite one_filter in H. simpl in H.
      destruct (find (sqlc.owned_by id) (ip_addresses db)) as [x|] eqn:F;
        [|discriminate]. inversion H; subst x. apply find_some in F. tauto.
    + rewrite one_filter in H. simpl in H.
      destruct (find (sqlc.owned_by id) (ip_addresses db)) as [x|] eqn:F;
        [|discriminate]. inversion H; subst x. apply find_some in F. tauto.
Qed.

Lemma DeallocateIPAddress_ok id db a db3 :
  sqlc.DeallocateIPAddress id db = (Returns (Ok a), db3) ->
  IpAddress.free a = true
  /\ (forall x, In x (ip_addresses db3) -> IpAddress.ID x = id ->
                IpAddress.free x = true)
  /\ servers db3 = servers db.
Proof.
  intros H. apply statement_inv in H.
  destruct H as [(e & _ & H & _)|[_ R]]; [discriminate|].
  cbv beta zeta in R. rewrite one_map_filter in R.
  destruct (find (sqlc.ip_is id) (ip_addresses (received _ db))); [|discriminate].
  inversion R; subst a db3. split; [reflexivity|]. split; [|reflexivity].
  intros x Hin Hid. simpl in Hin. unfold sqlc.update_where in Hin.
  apply in_map_iff in Hin. destruct Hin as (y & Hy & _).
  unfold sqlc.ip_is in Hy. destruct (N.eqb_spec (IpAddress.ID y) id).
  - subst x. reflexivity.
  - subst x. contradiction.
Qed.

Lemma returns_UpdateServerStatus st id : returns (sqlc.UpdateServerStatus st id).
Proof. apply returns_statement. Qed.
Lemma returns_GetIPAddressByServerID id : returns (sqlc.GetIPAddressByServerID id).
Proof. apply returns_statement. Qed.
Lemma returns_DeallocateIPAddress id : returns (sqlc.DeallocateIPAddress id).
Proof. apply returns_statement. Qed.
Lemma returns_GetServer id : returns (sqlc.GetServer id).
Proof. apply returns_statement. Qed.

Lemma non_terminal_valid st :
  In st [util.ServerStatusProvisioning; util.ServerStatusRunning;
         util.ServerStatusStopped] ->
  util.IsValidTransition st util.ServerStatusTerminated = true.
Proof.
  intros H. simpl in H. destruct H as [<-|[<-|[<-|[]]]]; reflexivity.
Qed.

Section Terminate.
Variables (s : services.ServerService) (ctx : services.Context) (server : Server.t).
Hypothesis Hq : services.queries s = Some services.Conn.
Hypothesis Hvalid :
  util.IsValidTransition (Server.Status server) util.ServerStatusTerminated = true.

Local Abbreviation id := (Server.ID server).

Lemma TerminateServer_update_fails db e db1 :
  sqlc.UpdateServerStatus util.ServerStatusTerminated id db = (Returns (Err e), db1) ->
  services.TerminateServer s ctx server db
  = (Returns (Err ("failed to update server status to terminated: " ++ e)), db1).
Proof.
  intros E1. unfold services.TerminateServer. rewrite Hvalid, Hq.
  cbn [negb services.via].
  rewrite (bind_returns _ _ _ _ _ E1). reflexivity.
Qed.

Lemma TerminateServer_fetch_fails db u db1 e db2 :
  sqlc.UpdateServerStatus util.ServerStatusTerminated id db = (Returns (Ok u), db1) ->
  sqlc.GetIPAddressByServerID id db1 = (Returns (Err e), db2) ->
  services.TerminateServer s ctx server db
  = (Returns (Err ("failed to get IP address by server ID: " ++ e)), db2).
Proof.
  intros E1 E2. unfold services.TerminateServer. rewrite Hvalid, Hq.
  cbn [negb services.via].
  rewrite (bind_returns _ _ _ _ _ E1), (bind_returns _ _ _ _ _ E2). reflexivity.
Qed.

Lemma TerminateServer_release_fails db u db1 ip db2 e db3 :
  sqlc.UpdateServerStatus util.ServerStatusTerminated id db = (Returns (Ok u), db1) ->
  sqlc.GetIPAddressByServerID id db1 = (Returns (Ok ip), db2) ->
  sqlc.DeallocateIPAddress (IpAddress.ID ip) db2 = (Returns (Err e), db3) ->
  services.TerminateServer s ctx server db
  = (Returns (Err ("failed to deallocate IP address: " ++ e)), db3).
Proof.
  intros E1 E2 E3. unfold services.TerminateServer. rewrite Hvalid, Hq.
  cbn [negb services.via].
  rewrite (bind_returns _ _ _ _ _ E1), (bind_returns _ _ _ _ _ E2),
    (bind_returns _ _ _ _ _ E3). reflexivity.
Qed.

(** Once the address is released the log entry is written and its result
    dropped: the request returns what the re-fetch of the row returns. *)
Lemma TerminateServer_released db u db1 ip db2 a db3 :
  sqlc.UpdateServerStatus util.ServerStatusTerminated id db = (Returns (Ok u), db1) ->
  sqlc.GetIPAddressByServerID id db1 = (Returns (Ok ip), db2) ->
  sqlc.DeallocateIPAddress (IpAddress.ID ip) db2 = (Returns (Ok a), db3) ->
  services.TerminateServer s ctx server db
  = sqlc.GetServer id
      (snd (services.append_and_limit (Some services.Conn) id
              (services.lifecycle_message ctx "Server terminated" id (now db3)) db3)).
Proof.
  intros E1 E2 E3. unfold services.TerminateServer. rewrite Hvalid, Hq.
  cbn [negb services.via].
  rewrite (bind_returns _ _ _ _ _ E1), (bind_returns _ _ _ _ _ E2),
    (bind_returns _ _ _ _ _ E3), bind_timeNow.
  rewrite (AppendServerLifecycleLogs_request _ _ _ _ Hq).
  destruct (append_and_limit_returns services.Conn id
              (services.lifecycle_message ctx "Server terminated" id (now db3)) db3)
    as (r & db4 & E4).
  rewrite (bind_returns _ _ _ _ _ E4), E4. simpl snd.
  apply bind_pass. apply returns_GetServer.
Qed.

(** The release statement is the third one of the request. *)
Lemma TerminateServer_sends_release db u db1 ip db2 :
  sqlc.UpdateServerStatus util.ServerStatusTerminated id db = (Returns (Ok u), db1) ->
  sqlc.GetIPAddressByServerID id db1 = (Returns (Ok ip), db2) ->
  exists rest,
    sent_by (services.TerminateServer s ctx server) db
    = QUpdateServerStatus util.ServerStatusTerminated id
        :: QGetIPAddressByServerID id
        :: QDeallocateIPAddress (IpAddress.ID ip) :: rest.
Proof.
  intros E1 E2.
  destruct (UpdateServerStatus_ok _ _ _ _ _ E1) as (_ & _ & _ & T1).
  destruct (GetIPAddressByServerID_run _ _ _ _ E2) as (_ & _ & T2 & _ & _).
  destruct (returns_DeallocateIPAddress (IpAddress.ID ip) db2) as (r3 & db3 & E3).
  assert (T3 : trace db3 = (trace db2 ++ [QDeallocateIPAddress (IpAddress.ID ip)])%list).
  { pose proof (statement_trace (QDeallocateIPAddress (IpAddress.ID ip))
                  (fun db => (sqlc.one (map (IpAddress.set_owner false None (now db))
                                           (filter (sqlc.ip_is (IpAddress.ID ip)) (ip_addresses db))),
                              with_ips (sqlc.update_where (sqlc.ip_is (IpAddress.ID ip))
                                          (IpAddress.set_owner false None (now db))
                                          (ip_addresses db)) db)) db2) as T.
    unfold sqlc.DeallocateIPAddress in E3. rewrite E3 in T. apply T. run_keeps_trace. }
  destruct r3 as [a|e].
  - pose proof (TerminateServer_released db u db1 ip db2 a db3 E1 E2 E3) as E.
    destruct (grows_append_and_limit (Some services.Conn) id
                (services.lifecycle_message ctx "Server terminated" id (now db3)) db3)
      as [l Hl].
    exists (l ++ [QGetServer id])%list. apply sent_by_grows. rewrite E.
    unfold sqlc.GetServer. rewrite statement_trace; [|run_keeps_trace].
    rewrite Hl, T3, T2, T1. now rewrite <- !app_assoc.
  - exists []. apply sent_by_grows.
    rewrite (TerminateServer_release_fails db u db1 ip db2 e db3 E1 E2 E3).
    simpl snd. rewrite T3, T2, T1. now rewrite <- !app_assoc.
Qed.

End Terminate.

(** C5.  A terminate request on a provisioning, running or stopped server
    whose status update went through fetches the address owned by the server
    and sends its release.  A failed fetch and a failed release each make
    the request itself return an error.  After a successful release the
    address is free, and whatever the log append returns (a result or an
    error) the request returns what the re-fetch of the row returns. *)
Theorem terminate_releases_or_fails
    (s : services.ServerService) (ctx : services.Context) (server : Server.t)
    (db : DB) (u : Server.t) (db1 : DB) :
  services.queries s = Some services.Conn ->
  In (Server.Status server)
     [util.ServerStatusProvisioning; util.ServerStatusRunning;
      util.ServerStatusStopped] ->
  sqlc.UpdateServerStatus util.ServerStatusTerminated (Server.ID server) db
    = (Returns (Ok u), db1) ->
  (forall e db2,
      sqlc.GetIPAddressByServerID (Server.ID server) db1 = (Returns (Err e), db2) ->
      services.TerminateServer s ctx server db
      = (Returns (Err ("failed to get IP address by server ID: " ++ e)), db2))
  /\ (forall ip db2,
        sqlc.GetIPAddressByServerID (Server.ID server) db1 = (Returns (Ok ip), db2) ->
        sqlc.owned_by (Server.ID server) ip = true
        /\ (exists rest,
              sent_by (services.TerminateServer s ctx server) db
              = QUpdateServerStatus util.ServerStatusTerminated (Server.ID server)
                  :: QGetIPAddressByServerID (Server.ID server)
                  :: QDeallocateIPAddress (IpAddress.ID ip) :: rest)
        /\ (forall e db3,
              sqlc.DeallocateIPAddress (IpAddress.ID ip) db2 = (Returns (Err e), db3) ->
              services.TerminateServer s ctx server db
              = (Returns (Err ("failed to deallocate IP address: " ++ e)), db3))
        /\ (forall a db3,
              sqlc.DeallocateIPAddress (IpAddress.ID ip) db2 = (Returns (Ok a), db3) ->
              IpAddress.free a = true
              /\ (forall x, In x (ip_addresses db3) ->
                            IpAddress.ID x = IpAddress.ID ip ->
                            IpAddress.free x = true)
              /\ forall logged db4,
                   services.AppendServerLifecycleLogs (Some s) None ctx
                     (Server.ID server)
                     (services.lifecycle_message ctx "Server terminated"
                        (Server.ID server) (now db3)) db3
                   = (Returns logged, db4) ->
                   services.TerminateServer s ctx server db
                   = sqlc.GetServer (Server.ID server) db4)).
Proof.
  intros Hq Hst E1. pose proof (non_terminal_valid _ Hst) as Hv.
  split.
  - intros e db2 E2.
    exact (TerminateServer_fetch_fails s ctx server Hq Hv db u db1 e db2 E1 E2).
  - intros ip db2 E2.
    destruct (GetIPAddressByServerID_run _ _ _ _ E2) as (_ & _ & _ & _ & Hown).
    split; [apply (Hown ip eq_refl)|].
    split; [exact (TerminateServer_sends_release s ctx server Hq Hv db u db1 ip db2 E1 E2)|].
    split.
    + intros e db3 E3.
      exact (TerminateServer_release_fails s ctx server Hq Hv db u db1 ip db2 e db3 E1 E2 E3).
    + intros a db3 E3.
      destruct (DeallocateIPAddress_ok _ _ _ _ E3) as (Fa & Fall & _).
      split; [exact Fa|]. split; [exact Fall|].
      intros logged db4 E4.
      rewrite (TerminateServer_released s ctx server Hq Hv db u db1 ip db2 a db3 E1 E2 E3).
      rewrite (AppendServerLifecycleLogs_request _ _ _ _ Hq) in E4.
      now rewrite E4.
Qed.

(** C10.  Whenever a terminate request returns the error of the address
    fetch or of the address release, the row of the server is already
    terminated in the store the request leaves behind: the status update was
    sent first, before the fetch, and nothing undoes it. *)
Theorem terminate_error_after_status_persisted
    (s : services.ServerService) (ctx : services.Context) (server : Server.t)
    (db : DB) (e : string) (db' : DB) :
  services.TerminateServer s ctx server db = (Returns (Err e), db') ->
  prefix "failed to get IP address by server ID: " e = true
  \/ prefix "failed to deallocate IP address: " e = true ->
  option_map Server.Status (row (Server.ID server) db')
    = Some util.ServerStatusTerminated
  /\ exists rest,
       sent_by (services.TerminateServer s ctx server) db
       = QUpdateServerStatus util.ServerStatusTerminated (Server.ID server)
           :: QGetIPAddressByServerID (Server.ID server) :: rest.
Proof.
  intros H0 P. pose proof H0 as H. unfold services.TerminateServer in H.
  destruct (util.IsValidTransition (Server.Status server) util.ServerStatusTerminated);
    cbn [negb] in H.
  2: { inversion H; subst e. exfalso. unfold services.invalid_transition in P.
       simpl in P. destruct P; discriminate. }
  destruct (services.queries s) as [c|]; cbn [services.via] in H; [|discriminate H].
  destruct (returns_UpdateServerStatus util.ServerStatusTerminated (Server.ID server) db)
    as (r1 & db1 & E1).
  rewrite (bind_returns _ _ _ _ _ E1) in H. destruct r1 as [u|e1].
  2: { inversion H; subst e. exfalso. simpl in P. destruct P; discriminate. }
  destruct (UpdateServerStatus_ok _ _ _ _ _ E1) as (_ & St & _ & T1).
  match type of H with
  | ?k db1 = _ =>
      assert (K : preserves same_statuses k) by (unfold sqlc.GetIPAddressByServerID; keeps_tac);
      assert (G : exists rest, trace (snd (k db1))
                    = (trace db1 ++ QGetIPAddressByServerID (Server.ID server) :: rest)%list)
        by (apply first_statement_trace; [run_keeps_trace | intros r; grows_tac])
  end.
  split.
  - specialize (K db1). rewrite H in K. simpl in K.
    apply (row_status_by_statuses (Server.ID server)) in K.
    unfold row in *. now rewrite K.
  - destruct G as [rest G]. rewrite H in G. simpl in G.
    exists rest. apply sent_by_grows. rewrite H0. simpl.
    rewrite G, T1. now rewrite <- app_assoc.
Qed.

(** C6, as the code has it.  When no address row is owned by the server,
    the fetch of the address finds no row and the terminate request returns
    the fetch error: the request fails, with the status already terminated
    in the store, no release statement sent and the address table as it
    was. *)
Theorem terminate_without_address_fails
    (s : services.ServerService) (ctx : services.Context) (server : Server.t)
    (db : DB) (u : Server.t) (db1 : DB) :
  services.queries s = Some services.Conn ->
  In (Server.Status server)
     [util.ServerStatusProvisioning; util.ServerStatusRunning;
      util.ServerStatusStopped] ->
  sqlc.UpdateServerStatus util.ServerStatusTerminated (Server.ID server) db
    = (Returns (Ok u), db1) ->
  filter (sqlc.owned_by (Server.ID server)) (ip_addresses db) = [] ->
  exists e db2,
    services.TerminateServer s ctx server db
    = (Returns (Err ("failed to get IP address by server ID: " ++ e)), db2)
    /\ (hd None (faults db1) = None -> e = ErrNoRows)
    /\ ip_addresses db2 = ip_addresses db
    /\ sent_by (services.TerminateServer s ctx server) db
       = [QUpdateServerStatus util.ServerStatusTerminated (Server.ID server);
          QGetIPAddressByServerID (Server.ID server)]
    /\ option_map Server.Status (row (Server.ID server) db2)
       = Some util.ServerStatusTerminated.
Proof.
  intros Hq Hst E1 Hnone. pose proof (non_terminal_valid _ Hst) as Hv.
  destruct (UpdateServerStatus_ok _ _ _ _ _ E1) as (_ & St & I1 & T1).
  destruct (returns_GetIPAddressByServerID (Server.ID server) db1) as (r2 & db2 & E2).
  destruct (GetIPAddressByServerID_run _ _ _ _ E2) as (S2 & I2 & T2 & Hno & _).
  rewrite I1 in Hno. destruct (Hno Hnone) as (e & -> & He).
  pose proof (TerminateServer_fetch_fails s ctx server Hq Hv db u db1 e db2 E1 E2) as E.
  exists e, db2. split; [exact E|]. split; [exact He|].
  split; [congruence|]. split.
  - apply sent_by_grows. rewrite E. simpl. rewrite T2, T1. now rewrite <- app_assoc.
  - unfold row in *. now rewrite S2.
Qed.

Lemma terminate_releases_or_fails_witness :
  exists rest,
    sent_by (services.TerminateServer service "req-3" srv7) store_bound
    = QUpdateServerStatus "terminated" 7 :: QGetIPAddressByServerID 7
        :: QDeallocateIPAddress 3 :: rest.
Proof.
  set (p1 := sqlc.UpdateServerStatus util.ServerStatusTerminated 7 store_bound).
  assert (E1 : p1 = (Returns (Ok (Server.set_status "terminated" 5 srv7)), snd p1))
    by reflexivity.
  set (p2 := sqlc.GetIPAddressByServerID 7 (snd p1)).
  assert (E2 : p2 = (Returns (Ok addr3), snd p2)) by reflexivity.
  destruct (terminate_releases_or_fails service "req-3" srv7 store_bound _ _
              eq_refl (or_intror (or_introl eq_refl)) E1) as [_ H].
  destruct (H addr3 _ E2) as (_ & Hs & _). exact Hs.
Defined.

Lemma terminate_error_after_status_persisted_witness :
  option_map Server.Status
    (row 7 (snd (services.TerminateServer service "req-4" srv7 store_unbound)))
  = Some "terminated".
Proof.
  apply (terminate_error_after_status_persisted service "req-4" srv7 store_unbound
           "failed to get IP address by server ID: no rows in result set"
           (snd (services.TerminateServer service "req-4" srv7 store_unbound))).
  - reflexivity.
  - left. reflexivity.
Defined.

Lemma terminate_without_address_fails_witness :
  exists e db2,
    services.TerminateServer service "req-5" srv7 store_unbound
    = (Returns (Err ("failed to get IP address by server ID: " ++ e)), db2)
    /\ e = ErrNoRows.
Proof.
  set (p1 := sqlc.UpdateServerStatus util.ServerStatusTerminated 7 store_unbound).
  assert (E1 : p1 = (Returns (Ok (Server.set_status "terminated" 5 srv7)), snd p1))
    by reflexivity.
  destruct (terminate_without_address_fails service "req-5" srv7 store_unbound _ _
              eq_refl (or_intror (or_introl eq_refl)) E1 eq_refl)
    as (e & db2 & E & He & _).
  exists e, db2. split; [exact E | apply He; reflexivity].
Defined.

(** C6, as stated, fails: a provisioning request whose binding statement is
    failed by the store returns its server all the same, no address row is
    owned by that server, and the terminate request on it returns an
    error. *)
Lemma release_without_address_is_an_error :
  match services.ProvisionNewServer service "req-6" "web1" "us-east-1" "t2.micro"
          store_bind_fails with
  | (Returns (Ok server), db1) =>
      filter (sqlc.owned_by (Server.ID server)) (ip_addresses db1) = []
      /\ Server.Status server = "provisioning"
      /\ faults db1 = []
      /\ fst (services.TerminateServer service "req-7" server db1)
         = Returns (Err "failed to get IP address by server ID: no rows in result set")
  | _ => False
  end.
Proof. vm_compute. repeat split; reflexivity. Qed.

(** ** Provisioning *)

Lemma earliest_in rows r : sqlc.earliest rows = Some r -> In r rows.
Proof.
  revert r. induction rows as [|x rows IH]; intros r H; simpl in H; [discriminate|].
  destruct (sqlc.earliest rows) as [r'|].
  - destruct (IpAddress.CreatedAt r' <? IpAddress.CreatedAt x)%Z;
      inversion H; subst; [right; now apply IH | now left].
  - inversion H. now left.
Qed.

Lemma GetAvailableIPForAllocation_ok db ip db1 :
  sqlc.GetAvailableIPForAllocation db = (Returns (Ok ip), db1) ->
  In ip (ip_addresses db) /\ IpAddress.free ip = true
  /\ ip_addresses db1 = ip_addresses db /\ servers db1 = servers db
  /\ trace db1 = (trace db ++ [QGetAvailableIPForAllocation])%list.
Proof.
  intros H. apply statement_inv in H.
  destruct H as [(e & _ & H & _)|[_ R]]; [discriminate|].
  cbv beta in R. simpl ip_addresses in R.
  destruct (sqlc.earliest (filter IpAddress.free (ip_addresses db))) as [r|] eqn:E;
    [|discriminate].
  inversion R; subst. apply earliest_in, filter_In in E.
  repeat split; try reflexivity; tauto.
Qed.

Lemma CreateNewServer_fails arg db e db2 :
  sqlc.CreateNewServer arg db = (Returns (Err e), db2) ->
  ip_addresses db2 = ip_addresses db /\ servers db2 = servers db
  /\ trace db2 = (trace db ++ [QCreateNewServer (sqlc.p_Name arg) (sqlc.p_Region arg)
                                 (sqlc.p_Status arg) (sqlc.p_Type arg)
                                 (sqlc.p_Address arg)])%list.
Proof.
  intros H. apply statement_inv in H.
  destruct H as [(e' & _ & _ & ->)|[_ R]]; [repeat split; reflexivity|].
  cbv beta zeta in R.
  destruct (fits 255 (sqlc.p_Name arg) && fits 100 (sqlc.p_Region arg)
            && fits 15 (sqlc.p_Status arg) && fits 10 (sqlc.p_Type arg)
            && fits 15 (sqlc.p_Address arg)); inversion R; subst.
  repeat split; reflexivity.
Qed.

(** X18.  When an address has been selected and the creation of the
    server row fails, the provisioning request returns the creation error
    after two statements, the selection and the insert.  The selection has
    written nothing, so both tables are as they were and the selected
    address is still in the pool, free. *)
Theorem provision_failure_leaves_pool_untouched
    (s : services.ServerService) (ctx : services.Context)
    (name region serverType : string) (db : DB) (ip : IpAddress.t) (db1 : DB)
    (e : string) (db2 : DB) :
  wired s ->
  sqlc.GetAvailableIPForAllocation db = (Returns (Ok ip), db1) ->
  sqlc.CreateNewServer (services.createServerParams s name region serverType ip) db1
    = (Returns (Err e), db2) ->
  services.ProvisionNewServer s ctx name region serverType db
    = (Returns (Err ("failed to create server: " ++ e)), db2)
  /\ sent_by (services.ProvisionNewServer s ctx name region serverType) db
     = [ QGetAvailableIPForAllocation;
         QCreateNewServer (name ++ "_" ++ IpAddress.Address ip) region
           util.ServerStatusProvisioning serverType (IpAddress.Address ip) ]
  /\ ip_addresses db2 = ip_addresses db
  /\ servers db2 = servers db
  /\ In ip (ip_addresses db2)
  /\ IpAddress.free ip = true.
Proof.
  intros [Hq Ha] E1 E2.
  destruct (GetAvailableIPForAllocation_ok _ _ _ E1) as (Hin & Hfree & I1 & S1 & T1).
  destruct (CreateNewServer_fails _ _ _ _ E2) as (I2 & S2 & T2).
  assert (E : services.ProvisionNewServer s ctx name region serverType db
              = (Returns (Err ("failed to create server: " ++ e)), db2)).
  { assert (A : services.AllocateIP (services.ipAllocator s) ctx db
                 = (Returns (Ok ip), db1)).
    { unfold services.AllocateIP. rewrite Ha. cbn [services.via].
      rewrite bind_pass; [exact E1 | apply returns_statement]. }
    unfold services.ProvisionNewServer.
    rewrite (bind_returns _ _ _ _ _ A), Hq. cbn [services.via].
    rewrite (bind_returns _ _ _ _ _ E2). reflexivity. }
  split; [exact E|]. split.
  - apply sent_by_grows. rewrite E. simpl snd. rewrite T2, T1.
    now rewrite <- app_assoc.
  - repeat split; try congruence.
Qed.

Lemma provision_failure_leaves_pool_untouched_witness :
  services.ProvisionNewServer service "req-8" "web1" long_region "t2.micro"
    store_one_free
  = (Returns (Err "failed to create server: value too long for type character varying"),
     snd (services.ProvisionNewServer service "req-8" "web1" long_region "t2.micro"
            store_one_free))
  /\ ip_addresses (snd (services.ProvisionNewServer service "req-8" "web1"
                          long_region "t2.micro" store_one_free))
     = [an_address 3 "10.0.0.1" None].
Proof.
  set (p1 := sqlc.GetAvailableIPForAllocation store_one_free).
  assert (E1 : p1 = (Returns (Ok (an_address 3 "10.0.0.1" None)), snd p1))
    by reflexivity.
  set (p2 := sqlc.CreateNewServer
               (services.createServerParams service "web1" long_region "t2.micro"
                  (an_address 3 "10.0.0.1" None)) (snd p1)).
  assert (E2 : p2 = (Returns (Err ErrTooLong), snd p2)) by reflexivity.
  destruct (provision_failure_leaves_pool_untouched service "req-8" "web1"
              long_region "t2.micro" store_one_free _ _ _ _
              (conj eq_refl eq_refl) E1 E2) as (E & _ & I & _).
  split.
  - rewrite E. reflexivity.
  - rewrite E. simpl snd. exact I.
Defined.


(** ** The lifecycle log *)

Lemma length_append (a b : string) :
  String.length (a ++ b) = (String.length a + String.length b)%nat.
Proof. induction a as [|c a IH]; simpl; [reflexivity | now rewrite IH]. Qed.

Lemma concat_length_lower (l : list string) :
  l <> [] -> (2 * List.length l <= String.length (String.concat ", " l) + 2)%nat.
Proof.
  induction l as [|x l IH]; intros N; [congruence|].
  destruct l as [|y l].
  - simpl. lia.
  - change (String.concat ", " (x :: y :: l))
      with (x ++ ", " ++ String.concat ", " (y :: l)).
    rewrite !length_append.
    assert (H : y :: l <> []) by discriminate. specialize (IH H).
    simpl List.length in *. simpl (String.length ", "). lia.
Qed.

(** The text of an array of n elements has at least 2n bytes: whenever the
    array has more than 100 elements its text has more than 100 bytes. *)
Lemma jsonb_out_length (l : list string) :
  (2 * List.length l <= String.length (sqlc.jsonb_out l))%nat.
Proof.
  unfold sqlc.jsonb_out. rewrite !length_append. simpl (String.length "[").
  simpl (String.length "]").
  destruct l as [|x l]; [simpl; lia|].
  assert (H : x :: l <> []) by discriminate.
  pose proof (concat_length_lower _ H). lia.
Qed.

Lemma AppendServerLifecycleLog_applied msg id db r :
  hd None (faults db) = None -> row id db = Some r ->
  sqlc.AppendServerLifecycleLog msg id db
  = (Returns (Ok (sqlc.jsonb_out (msg :: Server.LifecycleLogs r))),
     with_servers
       (sqlc.update_where (sqlc.server_is id)
          (fun s => Server.set_logs (msg :: Server.LifecycleLogs s) s) (servers db))
       (received (QAppendServerLifecycleLog msg id) db)).
Proof.
  intros Hf Hr. unfold sqlc.AppendServerLifecycleLog. rewrite statement_run.
  unfold row in Hr.
  destruct (faults db) as [|[e|] rest]; simpl in Hf; try discriminate;
    cbv beta zeta; simpl fst; simpl snd; simpl servers;
    rewrite one_map_filter, Hr; reflexivity.
Qed.

Lemma EnforceLifecycleLogsLimit_applied id db :
  hd None (faults db) = None ->
  sqlc.EnforceLifecycleLogsLimit id db
  = (Returns (Ok tt),
     with_servers
       (sqlc.update_where (sqlc.server_is id)
          (fun s => if Nat.ltb 100 (List.length (Server.LifecycleLogs s))
                    then Server.set_logs (firstn (14 + 1) (Server.LifecycleLogs s)) s
                    else s) (servers db))
       (received (QEnforceLifecycleLogsLimit id) db)).
Proof.
  intros Hf. unfold sqlc.EnforceLifecycleLogsLimit. rewrite statement_run.
  destruct (faults db) as [|[e|] rest]; simpl in Hf; try discriminate; reflexivity.
Qed.

(** What one append does to the log of the row, on a healthy store. *)
Lemma append_and_limit_healthy id msg db r :
  faults db = [] -> row id db = Some r ->
  exists db' r',
    services.append_and_limit (Some services.Conn) id msg db = (Returns (Ok tt), db')
    /\ row id db' = Some r'
    /\ faults db' = []
    /\ Server.LifecycleLogs r'
       = if Nat.ltb 100 (S (List.length (Server.LifecycleLogs r)))
         then firstn 15 (msg :: Server.LifecycleLogs r)
         else msg :: Server.LifecycleLogs r.
Proof.
  intros Hf Hr. unfold services.append_and_limit. cbn [services.via].
  rewrite (bind_returns _ _ _ _ _
             (AppendServerLifecycleLog_applied msg id db r
                ltac:(now rewrite Hf) Hr)).
  set (f1 := fun s => Server.set_logs (msg :: Server.LifecycleLogs s) s).
  set (db1 := with_servers _ _).
  assert (R1 : row id db1 = Some (f1 r)).
  { unfold row, db1. simpl servers. unfold row in Hr.
    rewrite find_update_where; [now rewrite Hr | reflexivity]. }
  assert (F1 : faults db1 = []) by (unfold db1; simpl; now rewrite Hf).
  clearbody db1.
  destruct (Nat.ltb 100 (String.length (sqlc.jsonb_out (msg :: Server.LifecycleLogs r))))
    eqn:G.
  - rewrite (bind_returns _ _ _ _ _
               (EnforceLifecycleLogsLimit_applied id db1 ltac:(now rewrite F1))).
    set (f2 := fun s => if Nat.ltb 100 (List.length (Server.LifecycleLogs s))
                        then Server.set_logs (firstn (14 + 1) (Server.LifecycleLogs s)) s
                        else s).
    eexists. exists (f2 (f1 r)). split; [reflexivity|]. split.
    { unfold row. simpl servers. unfold row in R1.
      rewrite find_update_where; [now rewrite R1|].
      intros x. unfold f2.
      destruct (Nat.ltb 100 (List.length (Server.LifecycleLogs x))); reflexivity. }
    split; [simpl; now rewrite F1|].
    unfold f2, f1. simpl Server.LifecycleLogs at 1. simpl List.length.
    destruct (Nat.ltb 100 (S (List.length (Server.LifecycleLogs r)))); reflexivity.
  - exists db1, (f1 r). split; [reflexivity|]. split; [exact R1|].
    split; [exact F1|].
    apply Nat.ltb_ge in G.
    pose proof (jsonb_out_length (msg :: Server.LifecycleLogs r)) as L.
    simpl List.length in L.
    destruct (Nat.ltb_spec 100 (S (List.length (Server.LifecycleLogs r))));
      [lia | reflexivity].
Qed.

(** ** The billing daemon *)

Lemma preserves_for_range (R : DB -> DB -> Prop) {A} (xs : list A)
    (body : A -> Go unit) :
  (forall d, R d d) -> (forall a b c, R a b -> R b c -> R a c) ->
  (forall x, preserves R (body x)) -> preserves R (services.for_range xs body).
Proof.
  intros Rr Rt H. induction xs as [|x xs IH]; simpl.
  - now apply preserves_ret.
  - apply preserves_bind; auto.
Qed.

(** The daemon hands a nil service to the log helper, whose first act is to
    read a field of it. *)
Lemma daemon_log_panics bd ctx id msg db :
  services.AppendServerLifecycleLogs None (Some bd) ctx id msg db
  = (Panics nil_dereference, db).
Proof. reflexivity. Qed.

Lemma billServer_panics bd ctx server db :
  fst (services.billServer bd ctx server db) = Panics nil_dereference.
Proof.
  unfold services.billServer, services.timeSince.
  unfold bind at 1. unfold bind at 1. cbn [timeNow ret].
  destruct (services.bd_queries bd) as [c|]; cbn [services.via]; [|reflexivity].
  destruct (returns_statement
              (QUpdateServerUptime
                 (services.newUptimeSeconds server (Sub (now db) (Server.LastStatusUpdate server)))
                 (Server.ID server))
              (fun db0 =>
                 let f := Server.set_uptime
                            (services.newUptimeSeconds server
                               (Sub (now db) (Server.LastStatusUpdate server))) (now db0) in
                 (sqlc.one (map f (filter (sqlc.server_is (Server.ID server)) (servers db0))),
                  with_servers (sqlc.update_where (sqlc.server_is (Server.ID server)) f
                                  (servers db0)) db0)) db) as (r & db1 & E).
  unfold sqlc.UpdateServerUptime. rewrite (bind_returns _ _ _ _ _ E).
  rewrite bind_timeNow. unfold bind. rewrite daemon_log_panics. reflexivity.
Qed.

Lemma preserves_bind_stops (R : DB -> DB -> Prop) {A B} (m : Go A) (k : A -> Go B) :
  (forall db, exists msg, fst (m db) = Panics msg) ->
  preserves R m -> preserves R (bind m k).
Proof.
  intros Hp Hm db. unfold bind. specialize (Hm db). destruct (Hp db) as [msg E].
  destruct (m db) as [[a|msg'|c] db1]; simpl in *; try discriminate. exact Hm.
Qed.

Section Tick.
Variables (bd : services.BillingDaemon) (ctx : services.Context).

Lemma reapIfIdle_keeps_ips server n :
  preserves same_ips (services.reapIfIdle bd ctx server n).
Proof. unfold services.reapIfIdle. keeps_tac. Qed.

Lemma billServer_keeps_ips server :
  preserves same_ips (services.billServer bd ctx server).
Proof.
  unfold services.billServer, services.timeSince, services.reapIfIdle. keeps_tac.
Qed.

Lemma processBilling_keeps_ips : preserves same_ips (services.processBilling bd ctx).
Proof.
  unfold services.processBilling. keeps_tac.
  apply preserves_for_range;
    [exact same_ips_refl | exact same_ips_trans | apply billServer_keeps_ips].
Qed.

Lemma billServer_keeps_statuses server :
  preserves same_statuses (services.billServer bd ctx server).
Proof.
  unfold services.billServer, services.timeSince.
  apply preserves_bind; [preorder | keeps_tac | intros elapsed].
  apply preserves_bind; [preorder | keeps_tac | intros _].
  apply preserves_bind; [preorder | keeps_tac | intros t].
  apply preserves_bind_stops; [|auto with go].
  intros db. exists nil_dereference. now rewrite daemon_log_panics.
Qed.

Lemma for_range_panics (servers : list Server.t) x db :
  services.for_range (x :: servers) (services.billServer bd ctx) db
  = (Panics nil_dereference, snd (services.billServer bd ctx x db)).
Proof.
  simpl. unfold bind. pose proof (billServer_panics bd ctx x db) as P.
  destruct (services.billServer bd ctx x db) as [[a|msg|c] db1]; simpl in P;
    try discriminate. now inversion P.
Qed.

Lemma processBilling_keeps_statuses :
  preserves same_statuses (services.processBilling bd ctx).
Proof.
  unfold services.processBilling.
  apply preserves_bind; [preorder | keeps_tac | intros r].
  destruct r as [l|e]; [|keeps_tac].
  intros db. destruct l as [|x l]; [apply same_statuses_refl|].
  rewrite for_range_panics. simpl. apply billServer_keeps_statuses.
Qed.

End Tick.

(** X15.  No tick ends a server or frees an address: whatever the store
    and the daemon, the statuses and the address table are after the tick
    what they were before it. *)
Lemma tick_changes_no_status_and_no_address bd ctx db :
  same_statuses db (snd (services.processBilling bd ctx db))
  /\ ip_addresses (snd (services.processBilling bd ctx db)) = ip_addresses db.
Proof.
  split; [apply processBilling_keeps_statuses | apply processBilling_keeps_ips].
Qed.

(** X16.  The test of the reaper taken alone is strict: up to 1800 seconds
    the block does nothing, above it the block sends the update to
    terminated. *)
Lemma reaper_threshold_is_strict bd ctx server n db :
  services.bd_queries bd = Some services.Conn ->
  Server.Status server <> util.ServerStatusTerminated ->
  ((n <= 1800)%Z -> services.reapIfIdle bd ctx server n db = (Returns tt, db))
  /\ ((1800 < n)%Z ->
        exists rest,
          sent_by (services.reapIfIdle bd ctx server n) db
          = QUpdateServerStatus util.ServerStatusTerminated (Server.ID server) :: rest).
Proof.
  intros Hq Hst. unfold services.reapIfIdle. rewrite Hq. cbn [services.via].
  destruct (String.eqb_spec (Server.Status server) util.ServerStatusTerminated);
    [contradiction|].
  split; intros H.
  - destruct (Z.ltb_spec 1800 n); [lia | reflexivity].
  - destruct (Z.ltb_spec 1800 n); [|lia]. cbn [andb negb].
    apply first_statement; [run_keeps_trace | intros r; grows_tac].
Qed.

(** C3 at its failing input.  A running server owns an address and reaches
    1801 seconds on this tick.  The tick lists it, stores the new uptime,
    and panics in the log helper before the reaper is reached: the server
    is still running and the address still bound.  The reaper block run on
    its own from the same store sends one statement, the status update:
    the server is terminated and the address is still bound to it. *)
Lemma tick_on_idle_server_keeps_address :
  services.newUptimeSeconds srv_idle (Sub (now store_idle) 0) = 1801%Z
  /\ fst (services.processBilling daemon "" store_idle) = Panics nil_dereference
  /\ sent_by (services.processBilling daemon "") store_idle
     = [QListServers "running"; QUpdateServerUptime 1801 7]
  /\ option_map Server.Status
       (row 7 (snd (services.processBilling daemon "" store_idle)))
     = Some "running"
  /\ ip_addresses (snd (services.processBilling daemon "" store_idle)) = [addr3]
  /\ sent_by (services.reapIfIdle daemon "" srv_idle 1801) store_idle
     = [QUpdateServerStatus "terminated" 7]
  /\ option_map Server.Status
       (row 7 (snd (services.reapIfIdle daemon "" srv_idle 1801 store_idle)))
     = Some "terminated"
  /\ ip_addresses (snd (services.reapIfIdle daemon "" srv_idle 1801 store_idle))
     = [addr3]
  /\ IpAddress.free addr3 = false.
Proof. vm_compute. repeat split; reflexivity. Qed.

(** C7 at its failing input.  With 1801 seconds computed on the tick the
    server is not terminated: the tick panics in the log helper, after the
    uptime update and before the test of the reaper.  With 1800 seconds the
    tick ends the same way.  The reaper block run on its own sends nothing
    at 1800 seconds and the update to terminated at 1801. *)
Lemma tick_at_1801_seconds_does_not_terminate :
  services.newUptimeSeconds srv_fresh (Sub (now store_1801) 0) = 1801%Z
  /\ fst (services.processBilling daemon "" store_1801) = Panics nil_dereference
  /\ sent_by (services.processBilling daemon "") store_1801
     = [QListServers "running"; QUpdateServerUptime 1801 7]
  /\ option_map Server.Status
       (row 7 (snd (services.processBilling daemon "" store_1801)))
     = Some "running"
  /\ services.newUptimeSeconds srv_fresh (Sub (now store_1800) 0) = 1800%Z
  /\ fst (services.processBilling daemon "" store_1800) = Panics nil_dereference
  /\ option_map Server.Status
       (row 7 (snd (services.processBilling daemon "" store_1800)))
     = Some "running"
  /\ sent_by (services.reapIfIdle daemon "" srv_fresh 1800) store_1800 = []
  /\ sent_by (services.reapIfIdle daemon "" srv_fresh 1801) store_1801
     = [QUpdateServerStatus "terminated" 7].
Proof. vm_compute. repeat split; reflexivity. Qed.

(** ** Addresses and prefixes *)

Lemma lor_below a b n :
  (0 <= n)%Z -> (0 <= a < 2 ^ n)%Z -> (0 <= b < 2 ^ n)%Z ->
  (0 <= Z.lor a b < 2 ^ n)%Z.
Proof.
  intros Hn Ha Hb.
  assert (N : (0 <= Z.lor a b)%Z) by (apply Z.lor_nonneg; lia).
  split; [exact N|].
  destruct (Z.eq_dec (Z.lor a b) 0) as [E|E]; [rewrite E; lia|].
  apply Z.log2_lt_pow2; [lia|].
  rewrite Z.log2_lor by lia.
  assert (La : (Z.log2 a < n)%Z).
  { destruct (Z.eq_dec a 0) as [->|]; [|apply Z.log2_lt_pow2; lia].
    simpl. destruct (Z.eq_dec n 0) as [->|]; [|lia].
    assert (b = 0)%Z by (simpl in Hb; lia). subst b. simpl in E. congruence. }
  assert (Lb : (Z.log2 b < n)%Z).
  { destruct (Z.eq_dec b 0) as [->|]; [|apply Z.log2_lt_pow2; lia].
    pose proof (Z.log2_nonneg a). simpl. lia. }
  lia.
Qed.

Lemma lxor_below a b n :
  (0 <= n)%Z -> (0 <= a < 2 ^ n)%Z -> (0 <= b < 2 ^ n)%Z ->
  (0 <= Z.lxor a b < 2 ^ n)%Z.
Proof.
  intros Hn Ha Hb.
  assert (N : (0 <= Z.lxor a b)%Z) by (apply Z.lxor_nonneg; lia).
  split; [exact N|].
  destruct (Z.eq_dec (Z.lxor a b) 0) as [E|E]; [rewrite E; lia|].
  apply Z.log2_lt_pow2; [lia|].
  pose proof (Z.log2_lxor a b ltac:(lia) ltac:(lia)) as L.
  assert (La : (Z.log2 a < n)%Z).
  { destruct (Z.eq_dec a 0) as [->|]; [|apply Z.log2_lt_pow2; lia].
    simpl. destruct (Z.eq_dec n 0) as [->|]; [|lia].
    assert (b = 0)%Z by (simpl in Hb; lia). subst b. simpl in E. congruence. }
  assert (Lb : (Z.log2 b < n)%Z).
  { destruct (Z.eq_dec b 0) as [->|]; [|apply Z.log2_lt_pow2; lia].
    pose proof (Z.log2_nonneg a). simpl. lia. }
  lia.
Qed.

Lemma block_size_pos bits : (0 <= bits <= 32)%Z -> (0 < block_size bits)%Z.
Proof. intros H. unfold block_size. apply Z.pow_pos_nonneg; lia. Qed.

(** [Contains] compares the quotients by the block size. *)
Lemma PrefixContains_quotient base bits a :
  addr32 base -> addr32 a -> (0 <= bits <= 32)%Z ->
  netip.PrefixContains (netip.PrefixFrom (netip.V4 base) bits) (netip.V4 a)
  = (a / block_size bits =? base / block_size bits)%Z.
Proof.
  unfold addr32, block_size. intros Hb Ha Hbits. unfold netip.PrefixContains.
  cbn [netip.PrefixAddr netip.Bits].
  assert (K : Z.land (32 - bits) 63 = (32 - bits)%Z).
  { change 63%Z with (Z.ones 6). rewrite Z.land_ones by lia.
    apply Z.mod_small. change (2 ^ 6)%Z with 64%Z. lia. }
  rewrite K, Z.shiftr_lxor, !Z.shiftr_div_pow2 by lia.
  set (k := (32 - bits)%Z).
  assert (P : (0 < 2 ^ k)%Z) by (apply Z.pow_pos_nonneg; lia).
  assert (A : (0 <= a / 2 ^ k < 2 ^ 32)%Z).
  { split; [apply Z.div_pos; lia|].
    apply Z.le_lt_trans with a; [|lia]. apply Z.div_le_upper_bound; nia. }
  assert (B : (0 <= base / 2 ^ k < 2 ^ 32)%Z).
  { split; [apply Z.div_pos; lia|].
    apply Z.le_lt_trans with base; [|lia]. apply Z.div_le_upper_bound; nia. }
  pose proof (lxor_below _ _ 32 ltac:(lia) A B) as X.
  rewrite Z.mod_small by exact X.
  destruct (Z.eqb_spec (a / 2 ^ k) (base / 2 ^ k)) as [E|E].
  - rewrite E, Z.lxor_nilpotent. reflexivity.
  - apply Z.eqb_neq. intros H. apply Z.lxor_eq in H. contradiction.
Qed.

Lemma v4_recompose x :
  addr32 x ->
  x = (netip.v4 x 0 * 2 ^ 24 + netip.v4 x 1 * 2 ^ 16 + netip.v4 x 2 * 2 ^ 8
       + netip.v4 x 3)%Z.
Proof.
  unfold addr32, netip.v4. intros H.
  rewrite !Z.shiftr_div_pow2 by lia.
  change ((3 - 0) * 8)%Z with 24%Z. change ((3 - 1) * 8)%Z with 16%Z.
  change ((3 - 2) * 8)%Z with 8%Z. change ((3 - 3) * 8)%Z with 0%Z.
  change (2 ^ 32)%Z with 4294967296%Z in H.
  change (2 ^ 24)%Z with 16777216%Z. change (2 ^ 16)%Z with 65536%Z.
  change (2 ^ 8)%Z with 256%Z. change (2 ^ 0)%Z with 1%Z.
  Z.div_mod_to_equations; lia.
Qed.

Lemma octet_enum (P : Z -> bool) :
  forallb P octets = true -> forall o, (0 <= o < 256)%Z -> P o = true.
Proof.
  intros H o Ho. rewrite forallb_forall in H. apply H.
  unfold octets. apply in_map_iff. exists (Z.to_nat o). split; [lia|].
  apply in_seq. lia.
Qed.

Lemma split_at_dot p : forall p' r r',
  dot_free p = true -> dot_free p' = true ->
  p ++ "." ++ r = p' ++ "." ++ r' -> p = p' /\ r = r'.
Proof.
  induction p as [|c q IH]; intros [|c' q'] r r' Hp Hp' E; simpl in *.
  - inversion E. auto.
  - inversion E; subst c'. discriminate.
  - inversion E; subst c. discriminate.
  - inversion E; subst c'.
    apply andb_true_iff in Hp, Hp'.
    destruct (IH q' r r') as [-> ->]; tauto.
Qed.

Lemma appendDecimal_facts o :
  (0 <= o < 256)%Z ->
  dot_free (netip.appendDecimal o) = true
  /\ (String.length (netip.appendDecimal o) <= 3)%nat.
Proof.
  intros Ho.
  pose proof (octet_enum
                (fun a => dot_free (netip.appendDecimal a)
                          && Nat.leb (String.length (netip.appendDecimal a)) 3)
                ltac:(vm_compute; reflexivity) o Ho) as H.
  apply andb_true_iff in H. destruct H as [H1 H2]. apply Nat.leb_le in H2. auto.
Qed.

Lemma appendDecimal_inj a b :
  (0 <= a < 256)%Z -> (0 <= b < 256)%Z ->
  netip.appendDecimal a = netip.appendDecimal b -> a = b.
Proof.
  intros Ha Hb E.
  pose proof (octet_enum
                (fun x => forallb (fun y => implb (netip.appendDecimal x =? netip.appendDecimal y)
                                                   (x =? y)%Z) octets)
                ltac:(vm_compute; reflexivity) a Ha) as H.
  pose proof (octet_enum _ H b Hb) as H'. cbv beta in H'.
  rewrite E, String.eqb_refl in H'. simpl in H'. now apply Z.eqb_eq.
Qed.

Lemma v4_octet x i : (0 <= netip.v4 x i < 256)%Z.
Proof. unfold netip.v4. change (2 ^ 8)%Z with 256%Z. apply Z.mod_pos_bound. lia. Qed.

Lemma String_inj x y :
  addr32 x -> addr32 y ->
  netip.String_ (netip.V4 x) = netip.String_ (netip.V4 y) -> x = y.
Proof.
  intros Hx Hy E. unfold netip.String_ in E.
  pose proof (fun i => proj1 (appendDecimal_facts _ (v4_octet x i))) as Dx.
  pose proof (fun i => proj1 (appendDecimal_facts _ (v4_octet y i))) as Dy.
  apply split_at_dot in E; [|apply Dx|apply Dy]. destruct E as [E0 E].
  apply split_at_dot in E; [|apply Dx|apply Dy]. destruct E as [E1 E].
  apply split_at_dot in E; [|apply Dx|apply Dy]. destruct E as [E2 E3].
  apply appendDecimal_inj in E0; [|apply v4_octet|apply v4_octet].
  apply appendDecimal_inj in E1; [|apply v4_octet|apply v4_octet].
  apply appendDecimal_inj in E2; [|apply v4_octet|apply v4_octet].
  apply appendDecimal_inj in E3; [|apply v4_octet|apply v4_octet].
  rewrite (v4_recompose x Hx), (v4_recompose y Hy).
  now rewrite E0, E1, E2, E3.
Qed.

Lemma String_fits x : fits 15 (netip.String_ (netip.V4 x)) = true.
Proof.
  unfold fits, netip.String_. apply Nat.leb_le.
  rewrite !length_append. change (String.length ".") with 1%nat.
  pose proof (fun i => proj2 (appendDecimal_facts _ (v4_octet x i))) as L.
  pose proof (L 0%Z). pose proof (L 1%Z). pose proof (L 2%Z). pose proof (L 3%Z). lia.
Qed.

(** ** What the parsers return *)

Lemma digit_range c : netip.is_digit c = true -> (0 <= netip.digit c <= 9)%Z.
Proof.
  unfold netip.is_digit, netip.digit. intros H.
  apply andb_true_iff in H. destruct H as [H1 H2].
  apply Nat.leb_le in H1, H2. lia.
Qed.

Lemma atoi_nonneg s : forall acc n,
  (0 <= acc)%Z -> netip.atoi s acc = Some n -> (0 <= n)%Z.
Proof.
  induction s as [|c s IH]; intros acc n Hacc H; simpl in H.
  - inversion H. lia.
  - destruct (netip.is_digit c) eqn:D; [|discriminate].
    apply digit_range in D.
    apply (IH (acc * 10 + netip.digit c)%Z n); [lia | exact H].
Qed.

Lemma parseIPv4Fields_range s : forall first prevDot val digLen fields f,
  octet val -> Forall octet fields -> (List.length fields <= 3)%nat ->
  netip.parseIPv4Fields s first prevDot val digLen fields = Ok f ->
  Forall octet f /\ List.length f = 4%nat.
Proof.
  induction s as [|c s IH]; intros first prevDot val digLen fields f Hv Hf Hl H;
    simpl in H.
  - destruct (Nat.ltb_spec (List.length fields) 3); [discriminate|].
    inversion H; subst f. split.
    + apply Forall_app. split; [exact Hf | now constructor].
    + rewrite length_app. simpl. lia.
  - destruct (netip.is_digit c) eqn:D.
    + destruct (Nat.eqb digLen 1 && (val =? 0)%Z); [discriminate|].
      destruct (Z.ltb_spec 255 (val * 10 + netip.digit c)); [discriminate|].
      apply digit_range in D. unfold octet in Hv.
      refine (IH _ _ _ _ _ _ _ Hf Hl H). unfold octet. lia.
    + destruct (netip.is_dot c); [|discriminate].
      destruct (first || match s with [] => true | _ :: _ => false end || prevDot);
        [discriminate|].
      destruct (Nat.eqb_spec (List.length fields) 3); [discriminate|].
      refine (IH _ _ _ _ _ _ _ _ _ H).
      * unfold octet. lia.
      * apply Forall_app. split; [exact Hf | now constructor].
      * rewrite length_app. simpl. lia.
Qed.

Lemma AddrFrom4_range f :
  Forall octet f -> List.length f = 4%nat ->
  exists lo, netip.AddrFrom4 f = netip.V4 lo /\ addr32 lo.
Proof.
  intros Hf Hl.
  destruct f as [|a [|b [|c [|d [|? ?]]]]]; try discriminate.
  inversion Hf as [|? ? Ha Hf1]; subst. inversion Hf1 as [|? ? Hb Hf2]; subst.
  inversion Hf2 as [|? ? Hc Hf3]; subst. inversion Hf3 as [|? ? Hd _]; subst.
  unfold octet in *. unfold netip.AddrFrom4. eexists. split; [reflexivity|].
  unfold addr32. rewrite !Z.shiftl_mul_pow2 by lia.
  change (2 ^ 24)%Z with 16777216%Z. change (2 ^ 16)%Z with 65536%Z.
  change (2 ^ 8)%Z with 256%Z.
  apply lor_below; [lia| |change (2 ^ 32)%Z with 4294967296%Z; lia].
  apply lor_below; [lia| |change (2 ^ 32)%Z with 4294967296%Z; lia].
  apply lor_below; [lia| |]; change (2 ^ 32)%Z with 4294967296%Z; lia.
Qed.

Lemma ParseAddr_range s a :
  netip.ParseAddr s = Ok a -> exists lo, a = netip.V4 lo /\ addr32 lo.
Proof.
  unfold netip.ParseAddr, netip.parseIPv4. intros H.
  destruct (netip.family (list_ascii_of_string s)) as [c|]; [|discriminate].
  destruct (netip.is_dot c);
    [|destruct (Nat.eqb (nat_of_ascii c) 58); discriminate].
  destruct (netip.parseIPv4Fields (list_ascii_of_string s) true false 0 0 [])
    as [f|e] eqn:E; [|discriminate].
  apply parseIPv4Fields_range in E;
    [|unfold octet; lia|constructor|simpl; lia].
  destruct E as [Hf Hl]. destruct (AddrFrom4_range f Hf Hl) as (lo & E & R).
  exists lo. split; [congruence | exact R].
Qed.

Lemma ParsePrefix_range s p :
  netip.ParsePrefix s = Ok p ->
  exists base, netip.PrefixAddr p = netip.V4 base /\ addr32 base
               /\ (0 <= netip.Bits p <= 32)%Z.
Proof.
  unfold netip.ParsePrefix. intros H.
  destruct (netip.lastSlash (list_ascii_of_string s) 0 None) as [i|]; [|discriminate].
  destruct (netip.ParseAddr _) as [ip|e] eqn:A; [|discriminate].
  destruct (skipn (S i) (list_ascii_of_string s)) as [|c rest] eqn:B; [discriminate|].
  destruct (match rest with
            | [] => false
            | _ :: _ => negb (Nat.leb 49 (nat_of_ascii c) && Nat.leb (nat_of_ascii c) 57)
            end); [discriminate|].
  destruct (netip.atoi (c :: rest) 0) as [bits|] eqn:T; [|discriminate].
  destruct (Z.ltb_spec 32 bits); [discriminate|].
  inversion H; subst p. simpl.
  destruct (ParseAddr_range _ _ A) as (lo & -> & R).
  apply atoi_nonneg in T; [|lia].
  exists lo. split; [reflexivity|]. split; [exact R | lia].
Qed.

(** ** Filling the pool *)

Lemma span_range a n x : In x (span a n) -> (a <= x < a + Z.of_nat n)%Z.
Proof.
  revert a. induction n as [|n IH]; intros a H; simpl in H; [contradiction|].
  destruct H as [<-|H]; [lia|]. apply IH in H. lia.
Qed.

Lemma in_span a n x : (a <= x < a + Z.of_nat n)%Z -> In x (span a n).
Proof.
  revert a. induction n as [|n IH]; intros a H; simpl; [lia|].
  destruct (Z.eq_dec a x); [now left|]. right. apply IH. lia.
Qed.

Lemma CreateIPAddress_applied address db :
  hd None (faults db) = None -> fits 15 address = true ->
  ~ In address (map IpAddress.Address (ip_addresses db)) ->
  sqlc.CreateIPAddress address db
  = (Returns (Ok (IpAddress.mk (next_uuid db) address false None (now db) (now db))),
     bump_uuid
       (with_ips (ip_addresses db
                  ++ [IpAddress.mk (next_uuid db) address false None (now db) (now db)])%list
                 (received (QCreateIPAddress address) db))).
Proof.
  intros Hf Hfit Hnew. unfold sqlc.CreateIPAddress. rewrite statement_run.
  assert (X : existsb (fun a => IpAddress.Address a =? address) (ip_addresses db) = false).
  { destruct (existsb _ _) eqn:E; [|reflexivity]. exfalso. apply Hnew.
    apply existsb_exists in E. destruct E as (r & Hr & E).
    apply String.eqb_eq in E. subst address. now apply in_map. }
  destruct (faults db) as [|[e|] rest]; simpl in Hf; try discriminate;
    cbv beta zeta; simpl ip_addresses; simpl next_uuid; simpl now;
    rewrite Hfit, X; reflexivity.
Qed.

Lemma inserted_app at_ l1 : forall id l2,
  inserted at_ id (l1 ++ l2)
  = (inserted at_ id l1 ++ inserted at_ (id + N.of_nat (List.length l1))%N l2)%list.
Proof.
  induction l1 as [|x l1 IH]; intros id l2.
  - cbn [app inserted List.length]. now rewrite N.add_0_r.
  - cbn [app inserted List.length]. rewrite IH. do 3 f_equal. lia.
Qed.

Section Populate.
Variables (base bits : Z) (exclude : list netip.Addr).
Hypothesis Hbase : addr32 base.
Hypothesis Hbits : (0 <= bits <= 32)%Z.

Let prefix := netip.PrefixFrom (netip.V4 base) bits.
Let bs := block_size bits.
Let q := (base / bs)%Z.

Lemma block_within : (0 < bs /\ 0 <= q * bs <= base /\ base < (q + 1) * bs
                      /\ (q + 1) * bs <= 2 ^ 32)%Z.
Proof.
  unfold q, bs. pose proof (block_size_pos bits Hbits) as P.
  unfold addr32 in Hbase.
  pose proof (Z.div_mod base (block_size bits) ltac:(lia)) as D.
  pose proof (Z.mod_pos_bound base (block_size bits) P) as M.
  assert (Q : (0 <= base / block_size bits)%Z) by (apply Z.div_pos; lia).
  assert (T : (2 ^ 32 = 2 ^ bits * block_size bits)%Z).
  { unfold block_size. rewrite <- Z.pow_add_r by lia. f_equal. lia. }
  assert (U : (base / block_size bits < 2 ^ bits)%Z).
  { apply Z.div_lt_upper_bound; [lia|]. rewrite Z.mul_comm, <- T. lia. }
  repeat split; try nia.
Qed.

Lemma in_block a :
  (q * bs <= a < (q + 1) * bs)%Z ->
  addr32 a /\ netip.PrefixContains prefix (netip.V4 a) = true.
Proof.
  intros H. destruct block_within as (P & B1 & B2 & B3).
  assert (A : addr32 a) by (unfold addr32; lia).
  split; [exact A|]. unfold prefix.
  rewrite PrefixContains_quotient by assumption.
  apply Z.eqb_eq. fold bs. fold q.
  symmetry. apply Z.div_unique with (a - q * bs)%Z; lia.
Qed.

Lemma out_of_block a :
  addr32 a -> netip.PrefixContains prefix (netip.V4 a) = true ->
  (q * bs <= a < (q + 1) * bs)%Z.
Proof.
  intros A H. destruct block_within as (P & B1 & B2 & B3).
  unfold prefix in H. rewrite PrefixContains_quotient in H by assumption.
  apply Z.eqb_eq in H. fold bs in H. fold q in H.
  pose proof (Z.div_mod a bs ltac:(lia)) as D.
  pose proof (Z.mod_pos_bound a bs P) as M. rewrite H in D. nia.
Qed.

(** After the last address of the block the condition of the loop fails. *)
Lemma next_after_last :
  netip.PrefixContains prefix (netip.Next (netip.V4 ((q + 1) * bs - 1))) = false.
Proof.
  destruct block_within as (P & B1 & B2 & B3). unfold netip.Next.
  replace ((q + 1) * bs - 1 + 1)%Z with ((q + 1) * bs)%Z by lia.
  destruct (Z.eqb_spec (((q + 1) * bs) mod 2 ^ 32) 0) as [E|E]; [reflexivity|].
  assert (L : ((q + 1) * bs < 2 ^ 32)%Z).
  { destruct (Z.eq_dec ((q + 1) * bs) (2 ^ 32)) as [F|F]; [|lia].
    rewrite F, Z.mod_same in E by lia. congruence. }
  destruct (netip.PrefixContains prefix (netip.V4 ((q + 1) * bs))) eqn:C;
    [|reflexivity].
  apply out_of_block in C; [lia | unfold addr32; lia].
Qed.

Lemma next_inside a :
  (q * bs <= a)%Z -> (a + 1 < (q + 1) * bs)%Z ->
  netip.Next (netip.V4 a) = netip.V4 (a + 1).
Proof.
  intros H1 H2. destruct block_within as (P & B1 & B2 & B3). unfold netip.Next.
  rewrite Z.mod_small by lia.
  destruct (Z.eqb_spec (a + 1) 0); [lia | reflexivity].
Qed.

Lemma populate_exit fuel cur count db :
  netip.PrefixContains prefix cur = false ->
  pool.populate (S fuel) (Some services.Conn) prefix exclude cur count db
  = (Returns (Some count), db).
Proof. intros H. simpl. now rewrite H. Qed.

(** The loop from [a] with [S n] addresses left in the block. *)
Lemma populate_step fuel cur count :
  pool.populate (S fuel) (Some services.Conn) prefix exclude cur count
  = if netip.PrefixContains prefix cur then
      if pool.excluded exclude cur || netip.Addr_eqb cur (netip.V4 base) then
        pool.populate fuel (Some services.Conn) prefix exclude (netip.Next cur) count
      else
        bind (sqlc.CreateIPAddress (netip.String_ cur))
          (fun r => match r with
                    | Err _ => pool.populate fuel (Some services.Conn) prefix exclude
                                 (netip.Next cur) count
                    | Ok _ => pool.populate fuel (Some services.Conn) prefix exclude
                                (netip.Next cur) (count + 1)%Z
                    end)
    else ret (Some count).
Proof. reflexivity. Qed.

(** One turn of the loop on an address of the block, on a healthy store. *)
Lemma populate_turn fuel a count db :
  (q * bs <= a < (q + 1) * bs)%Z ->
  faults db = [] ->
  ~ In (netip.String_ (netip.V4 a)) (map IpAddress.Address (ip_addresses db)) ->
  exists c d,
    pool.populate (S fuel) (Some services.Conn) prefix exclude (netip.V4 a) count db
    = pool.populate fuel (Some services.Conn) prefix exclude (netip.Next (netip.V4 a)) c d
    /\ faults d = [] /\ servers d = servers db /\ now d = now db
    /\ ip_addresses d
       = (ip_addresses db
          ++ inserted (now db) (next_uuid db)
               (map (fun x => netip.String_ (netip.V4 x))
                    (filter (wanted base exclude) [a])))%list
    /\ next_uuid d
       = (next_uuid db
          + N.of_nat (List.length (filter (wanted base exclude) [a])))%N.
Proof.
  intros Ha Hf Hnew. destruct (in_block a Ha) as [A C].
  rewrite populate_step, C. cbn [filter]. unfold wanted.
  destruct (pool.excluded exclude (netip.V4 a)
            || netip.Addr_eqb (netip.V4 a) (netip.V4 base)) eqn:W; cbn [negb].
  - exists count, db. cbn [map inserted List.length].
    rewrite app_nil_r, N.add_0_r. repeat split; solve [reflexivity | assumption].
  - rewrite (bind_returns _ _ _ _ _
               (CreateIPAddress_applied _ db ltac:(now rewrite Hf)
                  (String_fits a) Hnew)).
    eexists. eexists. split; [reflexivity|].
    cbn [map inserted List.length faults servers now ip_addresses next_uuid
         bump_uuid with_ips received].
    rewrite Hf. repeat split; try reflexivity. lia.
Qed.


(** The loop from [a] with [S n] addresses left in the block. *)
Lemma populate_block : forall n a fuel count db,
  (q * bs <= a)%Z -> (a + Z.of_nat (S n) = (q + 1) * bs)%Z ->
  (S n < fuel)%nat ->
  faults db = [] ->
  (forall x, In x (span a (S n)) ->
             ~ In (netip.String_ (netip.V4 x)) (map IpAddress.Address (ip_addresses db))) ->
  exists count' db',
    pool.populate fuel (Some services.Conn) prefix exclude (netip.V4 a) count db
    = (Returns (Some count'), db')
    /\ ip_addresses db'
       = (ip_addresses db
          ++ inserted (now db) (next_uuid db)
               (map (fun x => netip.String_ (netip.V4 x))
                    (filter (wanted base exclude) (span a (S n)))))%list
    /\ faults db' = [] /\ servers db' = servers db.
Proof.
  induction n as [|n IH]; intros a fuel count db Ha Hn Hfuel Hf Hfresh;
    (destruct fuel as [|fuel]; [lia|]);
    destruct (populate_turn fuel a count db ltac:(lia) Hf
                (Hfresh a (or_introl eq_refl)))
      as (c & d & E & Fd & Sd & Nd & Id & Ud);
    rewrite E.
  - (* the last address of the block *)
    destruct fuel as [|fuel]; [lia|].
    assert (L : a = ((q + 1) * bs - 1)%Z) by lia.
    subst a. rewrite populate_exit by apply next_after_last.
    exists c, d. split; [reflexivity|]. split; [exact Id|]. split; assumption.
  - (* an address with others after it *)
    rewrite next_inside by lia.
    destruct (IH (a + 1)%Z fuel c d) as (c' & db' & E' & I' & F' & S');
      try lia; try assumption.
    { intros x Hx. rewrite Id, map_app, in_app_iff. intros [H|H].
      - apply (Hfresh x); [now right | exact H].
      - apply span_range in Hx.
        destruct block_within as (P & B1 & B2 & B3).
        assert (X : x = a).
        { apply String_inj; [unfold addr32; lia | unfold addr32; lia |].
          unfold wanted in H. cbn [filter] in H.
          destruct (negb _) in H; cbn [map inserted IpAddress.Address In] in H;
            [|contradiction].
          destruct H as [H|[]]. now symmetry. }
        lia. }
    exists c', db'. split; [exact E'|]. split; [|split; [exact F' | congruence]].
    rewrite I', Id, Nd, Ud, <- app_assoc. f_equal.
    change (span a (S (S n))) with ([a] ++ span (a + 1) (S n))%list.
    rewrite filter_app, map_app, inserted_app, length_map. reflexivity.
Qed.

End Populate.

Lemma addresses_of_inserted at_ l : forall id,
  map IpAddress.Address (inserted at_ id l) = l.
Proof.
  induction l as [|x l IH]; intros id; cbn [inserted map IpAddress.Address];
    [reflexivity | now rewrite IH].
Qed.

Lemma inserted_free at_ l : forall id,
  Forall (fun r => IpAddress.free r = true) (inserted at_ id l).
Proof.
  induction l as [|x l IH]; intros id; cbn [inserted]; constructor;
    [reflexivity | apply IH].
Qed.

Lemma sql_TerminateAllServers_applied db :
  faults db = [] ->
  exists db1, sqlc.TerminateAllServers db = (Returns (Ok tt), db1)
    /\ faults db1 = [] /\ ip_addresses db1 = ip_addresses db
    /\ now db1 = now db /\ next_uuid db1 = next_uuid db.
Proof.
  intros Hf. unfold sqlc.TerminateAllServers. rewrite statement_run, Hf.
  eexists. split; [reflexivity|]. cbn. rewrite Hf. auto.
Qed.

Lemma TruncateIPAddresses_applied db :
  faults db = [] ->
  exists db1, sqlc.TruncateIPAddresses db = (Returns (Ok tt), db1)
    /\ faults db1 = [] /\ ip_addresses db1 = []
    /\ now db1 = now db /\ next_uuid db1 = next_uuid db.
Proof.
  intros Hf. unfold sqlc.TruncateIPAddresses. rewrite statement_run, Hf.
  eexists. split; [reflexivity|]. cbn. rewrite Hf. auto.
Qed.

(** Which addresses the loop keeps. *)
Lemma kept_iff base bits exclude a :
  addr32 base -> (0 <= bits <= 32)%Z -> addr32 a ->
  In (netip.String_ (netip.V4 a))
     (map (fun x => netip.String_ (netip.V4 x))
          (filter (wanted base exclude) (visited base bits)))
  <-> netip.PrefixContains (netip.PrefixFrom (netip.V4 base) bits) (netip.V4 a) = true
      /\ (base < a)%Z
      /\ pool.excluded exclude (netip.V4 a) = false.
Proof.
  intros Hbase Hbits Ha.
  destruct (block_within base bits Hbase Hbits) as (P & B1 & B2 & B3).
  pose proof (Z.div_mod base (block_size bits) ltac:(lia)) as D.
  assert (V : forall x, In x (visited base bits)
                        <-> (base <= x < (base / block_size bits + 1) * block_size bits)%Z).
  { intros x. unfold visited. split; intros H.
    - apply span_range in H. nia.
    - apply in_span. nia. }
  assert (W : forall x, wanted base exclude x = true
                        <-> pool.excluded exclude (netip.V4 x) = false /\ x <> base).
  { intros x. unfold wanted. cbn [netip.Addr_eqb].
    rewrite negb_true_iff, orb_false_iff, Z.eqb_neq. tauto. }
  split.
  - intros H. apply in_map_iff in H. destruct H as (x & E & Hx).
    apply filter_In in Hx. destruct Hx as [Hv Hw].
    apply V in Hv. apply W in Hw.
    assert (X : x = a) by (apply String_inj; [unfold addr32 in *; lia | exact Ha | exact E]).
    subst x. split; [|split; [lia | tauto]].
    apply (in_block base bits Hbase Hbits a). lia.
  - intros (C & Hlt & He).
    apply (out_of_block base bits Hbase Hbits a Ha) in C.
    apply in_map_iff. exists a. split; [reflexivity|].
    apply filter_In. split; [apply V; lia | apply W; split; [exact He | lia]].
Qed.

(** The run of the initialisation on a healthy store. *)
Lemma TerminateAllServers_run ipa ctx cidr exclusionList db base bits :
  services.ipa_queries ipa = Some services.Conn ->
  faults db = [] ->
  netip.ParsePrefix cidr = Ok (netip.PrefixFrom (netip.V4 base) bits) ->
  exists db',
    pool.TerminateAllServers ipa ctx cidr exclusionList db = (Returns (Ok tt), db')
    /\ ip_addresses db'
       = inserted (now db) (next_uuid db)
           (map (fun x => netip.String_ (netip.V4 x))
                (filter (wanted base (pool.exclusions exclusionList))
                        (visited base bits))).
Proof.
  intros Hq Hf Hp.
  destruct (ParsePrefix_range _ _ Hp) as (base' & Eb & Hbase & Hbits).
  cbn [netip.PrefixAddr netip.Bits] in Eb, Hbits. inversion Eb; subst base'. clear Eb.
  destruct (block_within base bits Hbase Hbits) as (P & B1 & B2 & B3).
  pose proof (Z.div_mod base (block_size bits) ltac:(lia)) as D.
  pose proof (Z.mod_pos_bound base (block_size bits) P) as M.
  destruct (sql_TerminateAllServers_applied db Hf) as (db1 & E1 & F1 & I1 & N1 & U1).
  destruct (TruncateIPAddresses_applied db1 F1) as (db2 & E2 & F2 & I2 & N2 & U2).
  unfold pool.TerminateAllServers. rewrite Hq. cbn [services.via].
  rewrite (bind_returns _ _ _ _ _ E1). cbn [pool.schema_check].
  rewrite (bind_returns _ _ _ _ _ (eq_refl : ret tt db1 = (Returns tt, db1))).
  rewrite (bind_returns _ _ _ _ _ E2). cbn [pool.schema_check].
  rewrite (bind_returns _ _ _ _ _ (eq_refl : ret tt db2 = (Returns tt, db2))).
  rewrite Hp. cbn [netip.PrefixAddr].
  set (n := Z.to_nat (block_size bits - base mod block_size bits)).
  assert (Hn : exists m, n = S m).
  { destruct n as [|m] eqn:En; [|eauto]. unfold n in En. lia. }
  destruct Hn as [m Hm].
  destruct (populate_block base bits (pool.exclusions exclusionList) Hbase Hbits
              m base (pool.loop_bound (netip.PrefixFrom (netip.V4 base) bits)) 0%Z db2)
    as (c & db' & E & I & _ & _).
  - lia.
  - rewrite <- Hm. unfold n. nia.
  - unfold pool.loop_bound. cbn [netip.Bits]. fold (block_size bits).
    rewrite <- Hm. unfold n. lia.
  - exact F2.
  - intros x _. rewrite I2. intros [].
  - rewrite (bind_returns _ _ _ _ _ E). exists db'. split; [reflexivity|].
    rewrite I, I2, N2, N1, U2, U1. cbn [app]. unfold visited. fold n.
    now rewrite Hm.
Qed.

(** C8, as the code has it.  On a healthy store the initialisation empties
    the pool and inserts, as free rows and in increasing order, exactly the
    addresses of the block that lie above the address the CIDR is written
    with and are not in the exclusion list.  When the CIDR is written with the network address of
    its block (no host bit set) these are exactly the addresses of the block
    other than that base address and the excluded ones.  Neither the written
    address nor the network address is ever in the pool. *)
Theorem pool_holds_block_above_written_address
    (ipa : services.IPAllocator) (ctx : services.Context) (cidr : string)
    (exclusionList : list string) (db : DB) (base bits : Z) :
  services.ipa_queries ipa = Some services.Conn ->
  faults db = [] ->
  netip.ParsePrefix cidr = Ok (netip.PrefixFrom (netip.V4 base) bits) ->
  exists db',
    pool.TerminateAllServers ipa ctx cidr exclusionList db = (Returns (Ok tt), db')
    /\ map IpAddress.Address (ip_addresses db')
       = map (fun x => netip.String_ (netip.V4 x))
             (filter (wanted base (pool.exclusions exclusionList)) (visited base bits))
    /\ Forall (fun r => IpAddress.free r = true) (ip_addresses db')
    /\ (forall a, addr32 a ->
          (In (netip.String_ (netip.V4 a)) (map IpAddress.Address (ip_addresses db'))
           <-> netip.PrefixContains (netip.PrefixFrom (netip.V4 base) bits) (netip.V4 a)
               = true
               /\ (base < a)%Z
               /\ pool.excluded (pool.exclusions exclusionList) (netip.V4 a) = false))
    /\ ((base mod block_size bits = 0)%Z ->
        forall a, addr32 a ->
          (In (netip.String_ (netip.V4 a)) (map IpAddress.Address (ip_addresses db'))
           <-> netip.PrefixContains (netip.PrefixFrom (netip.V4 base) bits) (netip.V4 a)
               = true
               /\ a <> base
               /\ pool.excluded (pool.exclusions exclusionList) (netip.V4 a) = false))
    /\ ~ In (netip.String_ (netip.V4 base)) (map IpAddress.Address (ip_addresses db'))
    /\ ~ In (netip.String_ (netip.V4 (base - base mod block_size bits)))
            (map IpAddress.Address (ip_addresses db')).
Proof.
  intros Hq Hf Hp.
  destruct (TerminateAllServers_run ipa ctx cidr exclusionList db base bits Hq Hf Hp)
    as (db' & E & I).
  destruct (ParsePrefix_range _ _ Hp) as (base' & Eb & Hbase & Hbits).
  cbn [netip.PrefixAddr netip.Bits] in Eb, Hbits. inversion Eb; subst base'. clear Eb.
  destruct (block_within base bits Hbase Hbits) as (P & B1 & B2 & B3).
  pose proof (Z.div_mod base (block_size bits) ltac:(lia)) as D.
  pose proof (Z.mod_pos_bound base (block_size bits) P) as M.
  assert (K : forall a, addr32 a ->
            (In (netip.String_ (netip.V4 a)) (map IpAddress.Address (ip_addresses db'))
             <-> netip.PrefixContains (netip.PrefixFrom (netip.V4 base) bits) (netip.V4 a)
                 = true
                 /\ (base < a)%Z
                 /\ pool.excluded (pool.exclusions exclusionList) (netip.V4 a) = false)).
  { intros a Ha. rewrite I, addresses_of_inserted. now apply kept_iff. }
  exists db'. split; [exact E|].
  split; [rewrite I; apply addresses_of_inserted|].
  split; [rewrite I; apply inserted_free|].
  split; [exact K|]. split; [|split].
  - intros Hc a Ha. rewrite (K a Ha). split; intros (C & H & X);
      (split; [exact C|]); (split; [|exact X]); [lia|].
    apply (out_of_block base bits Hbase Hbits a Ha) in C. nia.
  - rewrite (K base Hbase). intros (_ & H & _). lia.
  - assert (A : addr32 (base - base mod block_size bits)) by (unfold addr32 in *; lia).
    rewrite (K _ A). intros (_ & H & _). lia.
Qed.

Lemma pool_holds_block_above_written_address_witness :
  exists db',
    pool.TerminateAllServers allocator "" "10.0.0.0/30" ["10.0.0.2"] empty_store
    = (Returns (Ok tt), db')
    /\ (In "10.0.0.3" (map IpAddress.Address (ip_addresses db'))
        <-> netip.PrefixContains (netip.PrefixFrom (netip.V4 167772160) 30)
              (netip.V4 167772163) = true
            /\ 167772163%Z <> 167772160%Z
            /\ pool.excluded (pool.exclusions ["10.0.0.2"]) (netip.V4 167772163) = false).
Proof.
  destruct (pool_holds_block_above_written_address allocator "" "10.0.0.0/30"
              ["10.0.0.2"] empty_store 167772160 30 eq_refl eq_refl eq_refl)
    as (db' & E & _ & _ & _ & H & _).
  exists db'. split; [exact E|].
  apply (H eq_refl 167772163%Z). unfold addr32. split; [discriminate | reflexivity].
Defined.

(** C8, as stated, fails: with the CIDR written 192.168.0.5/24 the address
    192.168.0.1 is in the block, is not its network address 192.168.0.0, is
    not excluded, and is not in the pool, which starts at 192.168.0.6. *)
Lemma pool_of_cidr_with_host_bits :
  netip.ParsePrefix "192.168.0.5/24" = Ok (netip.PrefixFrom (netip.V4 3232235525) 24)
  /\ netip.String_ (netip.V4 3232235521) = "192.168.0.1"
  /\ netip.PrefixContains (netip.PrefixFrom (netip.V4 3232235525) 24)
       (netip.V4 3232235521) = true
  /\ netip.String_ (netip.V4 (3232235525 - 3232235525 mod block_size 24)) = "192.168.0.0"
  /\ fst (pool.TerminateAllServers allocator "" "192.168.0.5/24" [] empty_store)
     = Returns (Ok tt)
  /\ existsb (fun r => IpAddress.Address r =? "192.168.0.1")
       (ip_addresses (snd (pool.TerminateAllServers allocator "" "192.168.0.5/24" []
                             empty_store))) = false
  /\ hd_error (map IpAddress.Address
                 (ip_addresses (snd (pool.TerminateAllServers allocator ""
                                       "192.168.0.5/24" [] empty_store))))
     = Some "192.168.0.6".
Proof. vm_compute. repeat split; reflexivity. Qed.

(** * Further properties of the services *)

(** ** The tick of the daemon *)

Lemma returns_UpdateServerUptime n id : returns (sqlc.UpdateServerUptime n id).
Proof. apply returns_statement. Qed.

Lemma bind_timeSince {B} t (k : Z -> Go B) db :
  bind (services.timeSince t) k db = k (Sub (now db) t) db.
Proof. reflexivity. Qed.

(** The loop body of the tick, for a daemon with its handle on the store:
    the uptime update, then the panic of the log helper. *)
Lemma billServer_run bd ctx server db :
  services.bd_queries bd = Some services.Conn ->
  services.billServer bd ctx server db
  = (Panics nil_dereference,
     snd (sqlc.UpdateServerUptime
            (services.newUptimeSeconds server
               (Sub (now db) (Server.LastStatusUpdate server)))
            (Server.ID server) db)).
Proof.
  intros Hq. unfold services.billServer. rewrite bind_timeSince. cbv zeta.
  rewrite Hq. cbn [services.via].
  destruct (returns_UpdateServerUptime
              (services.newUptimeSeconds server
                 (Sub (now db) (Server.LastStatusUpdate server)))
              (Server.ID server) db) as (r & db2 & E2).
  rewrite (bind_returns _ _ _ _ _ E2), E2, bind_timeNow.
  unfold bind. rewrite daemon_log_panics. reflexivity.
Qed.

(** X1.  A tick of a daemon with its handle on the store sends the listing
    of the running servers.  When the listing fails or is empty the tick
    returns and nothing else is sent; when it is not empty the tick stores
    the new uptime of the first server listed and panics, so that no other
    server is visited. *)
Theorem tick_outcomes
    (bd : services.BillingDaemon) (ctx : services.Context) (db : DB)
    (listed : result (list Server.t)) (db1 : DB) :
  services.bd_queries bd = Some services.Conn ->
  sqlc.ListServers util.ServerStatusRunning db = (Returns listed, db1) ->
  match listed with
  | Err _ | Ok [] => services.processBilling bd ctx db = (Returns tt, db1)
  | Ok (server :: _) =>
      services.processBilling bd ctx db
      = (Panics nil_dereference,
         snd (sqlc.UpdateServerUptime
                (services.newUptimeSeconds server
                   (Sub (now db1) (Server.LastStatusUpdate server)))
                (Server.ID server) db1))
  end.
Proof.
  intros Hq E. unfold services.processBilling. rewrite Hq. cbn [services.via].
  rewrite (bind_returns _ _ _ _ _ E).
  destruct listed as [[|server rest]|e]; try reflexivity.
  rewrite for_range_panics. f_equal. now rewrite billServer_run.
Qed.

Lemma tick_outcomes_witness :
  services.processBilling daemon "" store_unbound
  = (Panics nil_dereference,
     snd (sqlc.UpdateServerUptime 10 7
            (snd (sqlc.ListServers util.ServerStatusRunning store_unbound))))
  /\ services.processBilling daemon "" empty_store
     = (Returns tt, snd (sqlc.ListServers util.ServerStatusRunning empty_store)).
Proof.
  split.
  - exact (tick_outcomes daemon "" store_unbound (Ok [srv7]) _ eq_refl eq_refl).
  - exact (tick_outcomes daemon "" empty_store (Ok []) _ eq_refl eq_refl).
Defined.

(** ** The requests and the address table *)

(** X2.  Start, stop and reboot never write to the address table: whatever
    the service, the server and the failures of the store, the table is
    after the request what it was before. *)
Theorem start_stop_reboot_leave_addresses_alone
    (s : services.ServerService) (ctx : services.Context) (server : Server.t)
    (db : DB) :
  ip_addresses (snd (services.StartServer s ctx server db)) = ip_addresses db
  /\ ip_addresses (snd (services.StopServer s ctx server db)) = ip_addresses db
  /\ ip_addresses (snd (services.RebootServer s ctx server db)) = ip_addresses db.
Proof.
  assert (A : preserves same_ips (services.StartServer s ctx server))
    by (unfold services.StartServer; keeps_tac; apply log_keeps_ips).
  assert (B : preserves same_ips (services.StopServer s ctx server))
    by (unfold services.StopServer; keeps_tac; apply log_keeps_ips).
  assert (C : preserves same_ips (services.RebootServer s ctx server))
    by (unfold services.RebootServer; keeps_tac; apply log_keeps_ips).
  split; [apply A | split; [apply B | apply C]].
Qed.

(** ** Start and stop *)

Lemma request_with_log s ctx server target action db :
  services.queries s = Some services.Conn ->
  bind (services.via (services.queries s)
          (sqlc.UpdateServerStatus target (Server.ID server)))
       (fun r => match r with
                 | Err err => ret (Err err)
                 | Ok updatedServer =>
                     bind timeNow (fun t =>
                       bind (services.AppendServerLifecycleLogs (Some s) None ctx
                               (Server.ID server)
                               (services.lifecycle_message ctx action (Server.ID server) t))
                            (fun _ => ret (Ok updatedServer)))
                 end) db
  = match sqlc.UpdateServerStatus target (Server.ID server) db with
    | (Returns (Ok u), db1) =>
        (Returns (Ok u),
         snd (services.append_and_limit (Some services.Conn) (Server.ID server)
                (services.lifecycle_message ctx action (Server.ID server) (now db1)) db1))
    | other => other
    end.
Proof.
  intros Hq. rewrite Hq. cbn [services.via].
  destruct (returns_UpdateServerStatus target (Server.ID server) db) as (r & db1 & E).
  rewrite (bind_returns _ _ _ _ _ E), E. destruct r as [u|e]; [|reflexivity].
  rewrite bind_timeNow, (AppendServerLifecycleLogs_request _ _ _ _ Hq).
  destruct (append_and_limit_returns services.Conn (Server.ID server)
              (services.lifecycle_message ctx action (Server.ID server) (now db1)) db1)
    as (r' & db2 & E').
  rewrite (bind_returns _ _ _ _ _ E'), E'. reflexivity.
Qed.

(** X3.  The log entry of start and stop is best effort: once the pair of
    states is accepted, the request returns exactly what the status update
    returned, the updated row or the error of the store, whether or not the
    log entry could be written. *)
Theorem start_and_stop_return_what_the_update_returns
    (s : services.ServerService) (ctx : services.Context) (server : Server.t)
    (db : DB) :
  services.queries s = Some services.Conn ->
  (util.IsValidTransition (Server.Status server) util.ServerStatusRunning = true ->
     fst (services.StartServer s ctx server db)
     = fst (sqlc.UpdateServerStatus util.ServerStatusRunning (Server.ID server) db))
  /\ (util.IsValidTransition (Server.Status server) util.ServerStatusStopped = true ->
        fst (services.StopServer s ctx server db)
        = fst (sqlc.UpdateServerStatus util.ServerStatusStopped (Server.ID server) db)).
Proof.
  intros Hq. split; intros Hv.
  - unfold services.StartServer. rewrite Hv. cbn [negb].
    rewrite (request_with_log s ctx server _ _ db Hq).
    destruct (sqlc.UpdateServerStatus _ _ db) as [[[u|e]|m|c] db1]; reflexivity.
  - unfold services.StopServer. rewrite Hv. cbn [negb].
    rewrite (request_with_log s ctx server _ _ db Hq).
    destruct (sqlc.UpdateServerStatus _ _ db) as [[[u|e]|m|c] db1]; reflexivity.
Qed.

Lemma start_and_stop_return_what_the_update_returns_witness :
  fst (services.StartServer service "req-20"
         (a_server 7 util.ServerStatusStopped 0 0 [])
         (failing [None; Some "connection lost"]
            (store_of [a_server 7 util.ServerStatusStopped 0 0 []] [] 5)))
  = fst (sqlc.UpdateServerStatus util.ServerStatusRunning 7
           (failing [None; Some "connection lost"]
              (store_of [a_server 7 util.ServerStatusStopped 0 0 []] [] 5))).
Proof.
  apply (start_and_stop_return_what_the_update_returns service "req-20"
           (a_server 7 util.ServerStatusStopped 0 0 []) _ eq_refl).
  reflexivity.
Defined.

(** ** Provisioning: the two failures around the insert *)

Lemma GetAvailableIPForAllocation_none db :
  filter IpAddress.free (ip_addresses db) = [] ->
  exists e, sqlc.GetAvailableIPForAllocation db
            = (Returns (Err e), received QGetAvailableIPForAllocation db).
Proof.
  intros H. unfold sqlc.GetAvailableIPForAllocation. rewrite statement_run.
  destruct (faults db) as [|[e|] rest]; cbn [fst snd received ip_addresses];
    try rewrite H; cbn [sqlc.earliest fst snd]; eauto.
Qed.

Lemma AllocateIP_is_the_selection ipa ctx db :
  services.ipa_queries ipa = Some services.Conn ->
  services.AllocateIP ipa ctx db = sqlc.GetAvailableIPForAllocation db.
Proof.
  intros Ha. unfold services.AllocateIP. rewrite Ha. cbn [services.via].
  apply bind_pass. apply returns_statement.
Qed.

(** X4.  With no free address in the pool a provisioning request fails with
    the allocation error after the selection alone: no server row is
    created and neither table changes. *)
Theorem provision_on_exhausted_pool
    (s : services.ServerService) (ctx : services.Context)
    (name region serverType : string) (db : DB) :
  wired s ->
  filter IpAddress.free (ip_addresses db) = [] ->
  services.ProvisionNewServer s ctx name region serverType db
  = (Returns (Err "failed to allocate IP address"),
     received QGetAvailableIPForAllocation db).
Proof.
  intros [Hq Ha] H. destruct (GetAvailableIPForAllocation_none db H) as [e E].
  unfold services.ProvisionNewServer.
  rewrite <- (AllocateIP_is_the_selection _ ctx db Ha) in E.
  rewrite (bind_returns _ _ _ _ _ E). reflexivity.
Qed.

Lemma provision_on_exhausted_pool_witness :
  services.ProvisionNewServer service "req-21" "web1" "us-east-1" "t2.micro" store_bound
  = (Returns (Err "failed to allocate IP address"),
     received QGetAvailableIPForAllocation store_bound).
Proof.
  apply provision_on_exhausted_pool; [split; reflexivity | reflexivity].
Defined.

Lemma CreateNewServer_ok arg db server db2 :
  sqlc.CreateNewServer arg db = (Returns (Ok server), db2) ->
  server = Server.mk (next_uuid db) (sqlc.p_Name arg) (sqlc.p_Region arg)
             (sqlc.p_Status arg) (sqlc.p_Address arg) (sqlc.p_Type arg)
             (now db) (now db) 0%Z (sqlc.p_HourlyCost arg) [] (now db) (now db)
  /\ servers db2 = (servers db ++ [server])%list
  /\ ip_addresses db2 = ip_addresses db
  /\ next_uuid db2 = N.succ (next_uuid db)
  /\ now db2 = now db
  /\ faults db2 = tl (faults db).
Proof.
  intros H. apply statement_inv in H.
  destruct H as [(e & _ & H & _)|[_ R]]; [discriminate|].
  cbv beta zeta in R.
  destruct (fits 255 (sqlc.p_Name arg) && fits 100 (sqlc.p_Region arg)
            && fits 15 (sqlc.p_Status arg) && fits 10 (sqlc.p_Type arg)
            && fits 15 (sqlc.p_Address arg)); [|discriminate].
  inversion R; subst. repeat split; reflexivity.
Qed.

Lemma AllocateIPAddress_fails sid id db e db3 :
  sqlc.AllocateIPAddress sid id db = (Returns (Err e), db3) ->
  ip_addresses db3 = ip_addresses db /\ servers db3 = servers db.
Proof.
  intros H. apply statement_inv in H.
  destruct H as [(e' & _ & _ & ->)|[_ R]]; [split; reflexivity|].
  cbv beta zeta in R.
  destruct (filter _ (ip_addresses (received _ db))) eqn:F;
    [inversion R; subst; split; reflexivity|].
  destruct (negb _); [inversion R; subst; split; reflexivity|].
  destruct (existsb _ _); [inversion R; subst; split; reflexivity|].
  rewrite <- F in R. rewrite one_map_filter in R.
  destruct (find _ _) eqn:G; [inversion R|].
  apply filter_nil_find in G. rewrite G in F. discriminate.
Qed.

Lemma saveAllocatedIP_run ipa ctx sid id db r d :
  services.ipa_queries ipa = Some services.Conn ->
  sqlc.AllocateIPAddress sid id db = (Returns r, d) ->
  services.saveAllocatedIP ipa ctx sid id db
  = (Returns (match r with Ok _ => Ok tt | Err e => Err e end), d).
Proof.
  intros Ha E. unfold services.saveAllocatedIP. rewrite Ha. cbn [services.via].
  rewrite (bind_returns _ _ _ _ _ E). destruct r; reflexivity.
Qed.

Lemma returns_AppendServerLifecycleLog msg id :
  returns (sqlc.AppendServerLifecycleLog msg id).
Proof. apply returns_statement. Qed.

(** X5.  When the row of the server has been created and the binding of
    the address then fails, the provisioning request still returns the
    server: the server carries the text of the selected address while the
    address table is unchanged and that address is still free in it. *)
Theorem provision_survives_a_failed_bind
    (s : services.ServerService) (ctx : services.Context)
    (name region serverType : string) (db : DB) (ip : IpAddress.t) (db1 : DB)
    (server : Server.t) (db2 : DB) (e : string) (db3 : DB) :
  wired s ->
  sqlc.GetAvailableIPForAllocation db = (Returns (Ok ip), db1) ->
  sqlc.CreateNewServer (services.createServerParams s name region serverType ip) db1
    = (Returns (Ok server), db2) ->
  sqlc.AllocateIPAddress (Server.ID server) (IpAddress.ID ip) db2
    = (Returns (Err e), db3) ->
  fst (services.ProvisionNewServer s ctx name region serverType db)
    = Returns (Ok server)
  /\ Server.Address server = IpAddress.Address ip
  /\ ip_addresses (snd (services.ProvisionNewServer s ctx name region serverType db))
     = ip_addresses db
  /\ In ip (ip_addresses db)
  /\ IpAddress.free ip = true.
Proof.
  intros [Hq Ha] E1 E2 E3.
  destruct (GetAvailableIPForAllocation_ok _ _ _ E1) as (Hin & Hfree & I1 & _ & _).
  destruct (CreateNewServer_ok _ _ _ _ E2) as (Hs & _ & I2 & _).
  destruct (AllocateIPAddress_fails _ _ _ _ _ E3) as (I3 & _).
  rewrite <- (AllocateIP_is_the_selection _ ctx db Ha) in E1.
  unfold services.ProvisionNewServer.
  rewrite (bind_returns _ _ _ _ _ E1), Hq. cbn [services.via].
  rewrite (bind_returns _ _ _ _ _ E2).
  rewrite (bind_returns _ _ _ _ _ (saveAllocatedIP_run _ ctx _ _ _ _ _ Ha E3)).
  rewrite bind_timeNow.
  destruct (returns_AppendServerLifecycleLog
              (services.lifecycle_message ctx "Server provisioned successfully"
                 (Server.ID server) (now db3)) (Server.ID server) db3)
    as (r4 & db4 & E4).
  assert (K : preserves same_ips
                (sqlc.AppendServerLifecycleLog
                   (services.lifecycle_message ctx "Server provisioned successfully"
                      (Server.ID server) (now db3)) (Server.ID server)))
    by statement_keeps.
  specialize (K db3). rewrite E4 in K. red in K. simpl in K.
  rewrite (bind_returns _ _ _ _ _ E4). cbn [ret fst snd].
  repeat split; try assumption.
  - rewrite Hs. reflexivity.
  - congruence.
Qed.

Lemma provision_survives_a_failed_bind_witness :
  fst (services.ProvisionNewServer service "req-22" "web1" "us-east-1" "t2.micro"
         store_bind_fails)
  = Returns (Ok (Server.mk 100 "web1_10.0.0.1" "us-east-1" "provisioning" "10.0.0.1"
                   "t2.micro" 5 5 0 (QArith_base.Qmake 1 100) [] 5 5))
  /\ ip_addresses (snd (services.ProvisionNewServer service "req-22" "web1" "us-east-1"
                          "t2.micro" store_bind_fails))
     = [an_address 3 "10.0.0.1" None].
Proof.
  set (p1 := sqlc.GetAvailableIPForAllocation store_bind_fails).
  assert (E1 : p1 = (Returns (Ok (an_address 3 "10.0.0.1" None)), snd p1)) by reflexivity.
  set (p2 := sqlc.CreateNewServer
               (services.createServerParams service "web1" "us-east-1" "t2.micro"
                  (an_address 3 "10.0.0.1" None)) (snd p1)).
  assert (E2 : p2 = (Returns (Ok (Server.mk 100 "web1_10.0.0.1" "us-east-1"
                                    "provisioning" "10.0.0.1" "t2.micro" 5 5 0
                                    (QArith_base.Qmake 1 100) [] 5 5)), snd p2))
    by reflexivity.
  set (p3 := sqlc.AllocateIPAddress 100 3 (snd p2)).
  assert (E3 : p3 = (Returns (Err "connection lost"), snd p3)) by reflexivity.
  destruct (provision_survives_a_failed_bind service "req-22" "web1" "us-east-1"
              "t2.micro" store_bind_fails _ _ _ _ _ _ (conj eq_refl eq_refl) E1 E2 E3)
    as (H1 & _ & H3 & _).
  split; [exact H1 | exact H3].
Defined.

(** ** The initialisation of the pool: what it does before the CIDR is read *)

Lemma rows_after_reset at_ entry (l : list Server.t) :
  Forall (fun s => Server.Status s = "terminated")
    (sqlc.update_where (fun s => negb (Server.Status s =? "terminated"))
       (fun s => Server.set_logs (Server.LifecycleLogs s ++ [entry])%list
                   (Server.set_status "terminated" at_ s)) l).
Proof.
  unfold sqlc.update_where. apply Forall_forall. intros x Hx.
  apply in_map_iff in Hx. destruct Hx as (y & <- & _).
  destruct (String.eqb_spec (Server.Status y) "terminated") as [E|E]; cbn [negb];
    [exact E | reflexivity].
Qed.

Lemma sql_TerminateAllServers_rows db :
  hd None (faults db) = None ->
  Forall (fun s => Server.Status s = "terminated")
         (servers (snd (sqlc.TerminateAllServers db))).
Proof.
  intros Hf. unfold sqlc.TerminateAllServers. rewrite statement_run.
  destruct (faults db) as [|[e|] rest]; simpl in Hf; try discriminate;
    cbn [fst snd servers with_servers]; apply rows_after_reset.
Qed.

Lemma populate_keeps_servers fuel q prefix exclude : forall addr count,
  preserves same_servers (pool.populate fuel q prefix exclude addr count).
Proof.
  induction fuel as [|fuel IH]; intros addr count; cbn [pool.populate].
  - apply preserves_ret. exact same_servers_refl.
  - destruct (netip.PrefixContains prefix addr);
      [|apply preserves_ret; exact same_servers_refl].
    destruct (pool.excluded exclude addr || netip.Addr_eqb addr (netip.PrefixAddr prefix));
      [apply IH|].
    apply preserves_bind; [exact same_servers_trans| |intros [?|?]; apply IH].
    apply preserves_via; [exact same_servers_refl|]. statement_keeps.
Qed.

(** X6.  The initialisation of the pool terminates every server before it
    reads the CIDR: when its first statement is not failed by the store,
    every row of the servers table is terminated afterwards, whatever the
    CIDR, the exclusion list and the fate of the later statements. *)
Theorem initialisation_terminates_every_server
    (ipa : services.IPAllocator) (ctx : services.Context) (cidr : string)
    (exclusionList : list string) (db : DB) :
  services.ipa_queries ipa = Some services.Conn ->
  hd None (faults db) = None ->
  Forall (fun s => Server.Status s = util.ServerStatusTerminated)
         (servers (snd (pool.TerminateAllServers ipa ctx cidr exclusionList db))).
Proof.
  intros Hq Hf. pose proof (sql_TerminateAllServers_rows db Hf) as H1.
  unfold pool.TerminateAllServers. rewrite Hq. cbn [services.via].
  destruct (statement_returns QTerminateAllServers
              (fun db0 =>
                 (Ok tt,
                  with_servers
                    (sqlc.update_where
                       (fun s => negb (Server.Status s =? "terminated"))
                       (fun s => Server.set_logs
                                   (Server.LifecycleLogs s
                                    ++ [sqlc.system_reset_entry (now db0)])%list
                                   (Server.set_status "terminated" (now db0) s))
                       (servers db0)) db0)) db) as (r1 & db1 & E1).
  unfold sqlc.TerminateAllServers in H1 |- *. rewrite E1 in H1. simpl snd in H1.
  rewrite (bind_returns _ _ _ _ _ E1).
  match goal with
  | |- Forall _ (servers (snd (?k db1))) =>
      assert (K : preserves same_servers k)
  end.
  { apply preserves_bind; [preorder | unfold pool.schema_check; keeps_tac | intros ?].
    apply preserves_bind;
      [preorder | statement_keeps | intros ?].
    apply preserves_bind; [preorder | unfold pool.schema_check; keeps_tac | intros ?].
    destruct (netip.ParsePrefix cidr); [|keeps_tac].
    apply preserves_bind;
      [preorder | apply populate_keeps_servers | intros [?|]; keeps_tac]. }
  specialize (K db1). red in K. now rewrite K.
Qed.

Lemma initialisation_terminates_every_server_witness :
  Forall (fun s => Server.Status s = "terminated")
         (servers (snd (pool.TerminateAllServers allocator "" "not a cidr" []
                          store_bound))).
Proof.
  apply initialisation_terminates_every_server; reflexivity.
Defined.



(** X8.  When the store answers the reset with an error that says a
    relation does not exist, the initialisation ends the process with exit
    code 0 right there: nothing else is sent. *)
Theorem missing_relation_exits_with_code_zero
    (ipa : services.IPAllocator) (ctx : services.Context) (cidr : string)
    (exclusionList : list string) (db : DB) (e : string) (rest : list (option string)) :
  services.ipa_queries ipa = Some services.Conn ->
  faults db = Some e :: rest ->
  Contains e " does not exist" = true ->
  pool.TerminateAllServers ipa ctx cidr exclusionList db
  = (Exits 0, received QTerminateAllServers db).
Proof.
  intros Hq Hf Hc. unfold pool.TerminateAllServers. rewrite Hq. cbn [services.via].
  assert (E : sqlc.TerminateAllServers db
              = (Returns (Err e), received QTerminateAllServers db)).
  { unfold sqlc.TerminateAllServers. rewrite statement_run, Hf. reflexivity. }
  rewrite (bind_returns _ _ _ _ _ E). cbn [pool.schema_check]. rewrite Hc.
  reflexivity.
Qed.

Lemma missing_relation_exits_with_code_zero_witness :
  pool.TerminateAllServers allocator "" "10.0.0.0/30" []
    (failing [Some "ERROR: relation servers does not exist"] store_bound)
  = (Exits 0,
     received QTerminateAllServers
       (failing [Some "ERROR: relation servers does not exist"] store_bound)).
Proof.
  apply (missing_relation_exits_with_code_zero allocator "" "10.0.0.0/30" [] _
           "ERROR: relation servers does not exist" []); reflexivity.
Defined.

(** ** The uptime the tick stores *)

Lemma UpdateServerUptime_row n id db r :
  hd None (faults db) = None -> row id db = Some r ->
  row id (snd (sqlc.UpdateServerUptime n id db))
  = Some (Server.set_uptime n (now db) r).
Proof.
  intros Hf Hr. unfold sqlc.UpdateServerUptime. rewrite statement_run.
  unfold row in *.
  destruct (faults db) as [|[e|] rest]; simpl in Hf; try discriminate;
    cbn [fst snd servers with_servers received now];
    (rewrite find_update_where; [now rewrite Hr | reflexivity]).
Qed.

Lemma newUptimeSeconds_in_range server elapsed :
  (0 <= elapsed)%Z -> (0 <= Server.UptimeSeconds server)%Z ->
  (Server.UptimeSeconds server + elapsed / Second <= 2 ^ 63 - 1)%Z ->
  services.newUptimeSeconds server elapsed
  = (Server.UptimeSeconds server + elapsed / Second)%Z.
Proof.
  intros He Hu Hmax. unfold services.newUptimeSeconds, wrap64.
  rewrite Z.quot_div_nonneg by (unfold Second; lia).
  assert (0 <= elapsed / Second)%Z by (apply Z.div_pos; unfold Second; lia).
  rewrite Z.mod_small by lia. lia.
Qed.

Lemma Sub_in_range t u :
  (u <= t)%Z -> (t - u <= 2 ^ 63 - 1)%Z -> Sub t u = (t - u)%Z.
Proof. intros H1 H2. unfold Sub, maxDuration, minDuration. lia. Qed.

(** X9.  What the loop body of the tick stores for a server: the uptime it
    was listed with plus the whole seconds between its last status update
    and now (while that stays in the range of an int64).  The status and
    the instant of the last status update of the row are not written, so
    the interval is measured from the same instant again the next time. *)
Theorem tick_adds_the_seconds_since_the_status_change
    (bd : services.BillingDaemon) (ctx : services.Context) (server : Server.t)
    (db : DB) (r : Server.t) :
  services.bd_queries bd = Some services.Conn ->
  hd None (faults db) = None ->
  row (Server.ID server) db = Some r ->
  (Server.LastStatusUpdate server <= now db)%Z ->
  (now db - Server.LastStatusUpdate server <= 2 ^ 63 - 1)%Z ->
  (0 <= Server.UptimeSeconds server)%Z ->
  (Server.UptimeSeconds server
   + (now db - Server.LastStatusUpdate server) / Second <= 2 ^ 63 - 1)%Z ->
  exists r',
    row (Server.ID server) (snd (services.billServer bd ctx server db)) = Some r'
    /\ Server.UptimeSeconds r'
       = (Server.UptimeSeconds server
          + (now db - Server.LastStatusUpdate server) / Second)%Z
    /\ Server.LastStatusUpdate r' = Server.LastStatusUpdate r
    /\ Server.Status r' = Server.Status r.
Proof.
  intros Hq Hf Hr Hl Hd Hu Hmax.
  rewrite (billServer_run bd ctx server db Hq). cbn [snd].
  rewrite (UpdateServerUptime_row _ _ _ r Hf Hr).
  eexists. split; [reflexivity|]. cbn [Server.UptimeSeconds Server.set_uptime
    Server.LastStatusUpdate Server.Status].
  rewrite (Sub_in_range _ _ Hl Hd).
  rewrite newUptimeSeconds_in_range by lia. auto.
Qed.

Lemma tick_adds_the_seconds_since_the_status_change_witness :
  exists r',
    row 7 (snd (services.billServer daemon "" srv_idle store_idle)) = Some r'
    /\ Server.UptimeSeconds r' = 1801%Z
    /\ Server.LastStatusUpdate r' = 0%Z
    /\ Server.Status r' = "running".
Proof.
  assert (H1 : services.bd_queries daemon = Some services.Conn) by reflexivity.
  assert (H2 : hd None (faults store_idle) = None) by reflexivity.
  assert (H3 : row (Server.ID srv_idle) store_idle = Some srv_idle) by reflexivity.
  assert (H4 : (Server.LastStatusUpdate srv_idle <= now store_idle)%Z)
    by (vm_compute; congruence).
  assert (H5 : (now store_idle - Server.LastStatusUpdate srv_idle <= 2 ^ 63 - 1)%Z)
    by (vm_compute; congruence).
  assert (H6 : (0 <= Server.UptimeSeconds srv_idle)%Z) by (vm_compute; congruence).
  assert (H7 : (Server.UptimeSeconds srv_idle
                + (now store_idle - Server.LastStatusUpdate srv_idle) / Second
                <= 2 ^ 63 - 1)%Z) by (vm_compute; congruence).
  destruct (tick_adds_the_seconds_since_the_status_change daemon "" srv_idle
              store_idle srv_idle H1 H2 H3 H4 H5 H6 H7) as (r' & R & U & L & S).
  exists r'. split; [exact R|]. split; [|split; [exact L | exact S]].
  rewrite U. reflexivity.
Defined.

(** X10.  The loop body run twice on the same server, the second time at a
    later instant on the row the first run left: the seconds from the last
    status update to the first run are in the stored uptime twice. *)
Theorem second_run_counts_the_first_interval_again
    (bd : services.BillingDaemon) (ctx : services.Context) (db : DB)
    (r : Server.t) (t2 : Time) :
  services.bd_queries bd = Some services.Conn ->
  faults db = [] ->
  row (Server.ID r) db = Some r ->
  (Server.LastStatusUpdate r <= now db <= t2)%Z ->
  (t2 - Server.LastStatusUpdate r <= 2 ^ 63 - 1)%Z ->
  (0 <= Server.UptimeSeconds r)%Z ->
  (Server.UptimeSeconds r
   + (now db - Server.LastStatusUpdate r) / Second
   + (t2 - Server.LastStatusUpdate r) / Second <= 2 ^ 63 - 1)%Z ->
  exists r1 r2,
    row (Server.ID r) (snd (services.billServer bd ctx r db)) = Some r1
    /\ row (Server.ID r)
         (snd (services.billServer bd ctx r1
                 (at_time t2 (snd (services.billServer bd ctx r db))))) = Some r2
    /\ Server.UptimeSeconds r2
       = (Server.UptimeSeconds r
          + (now db - Server.LastStatusUpdate r) / Second
          + (t2 - Server.LastStatusUpdate r) / Second)%Z.
Proof.
  intros Hq Hf Hr Hl Hd Hu Hmax.
  assert (0 <= (now db - Server.LastStatusUpdate r) / Second)%Z
    by (apply Z.div_pos; unfold Second; lia).
  assert (0 <= (t2 - Server.LastStatusUpdate r) / Second)%Z
    by (apply Z.div_pos; unfold Second; lia).
  rewrite (billServer_run bd ctx r db Hq). cbn [snd].
  set (n1 := services.newUptimeSeconds r (Sub (now db) (Server.LastStatusUpdate r))).
  assert (E1 : n1 = (Server.UptimeSeconds r
                     + (now db - Server.LastStatusUpdate r) / Second)%Z).
  { unfold n1. rewrite Sub_in_range by lia.
    apply newUptimeSeconds_in_range; lia. }
  assert (Hf1 : hd None (faults db) = None) by now rewrite Hf.
  pose proof (UpdateServerUptime_row n1 _ _ r Hf1 Hr) as R1.
  set (db1 := snd (sqlc.UpdateServerUptime n1 (Server.ID r) db)) in *.
  set (r1 := Server.set_uptime n1 (now db) r) in *.
  assert (F1 : faults db1 = []).
  { unfold db1, sqlc.UpdateServerUptime. rewrite statement_run, Hf. cbn. now rewrite Hf. }
  exists r1. eexists. split; [exact R1|].
  rewrite (billServer_run bd ctx r1 (at_time t2 db1) Hq). cbn [snd].
  assert (R1' : row (Server.ID r1) (at_time t2 db1) = Some r1) by exact R1.
  split.
  - change (Server.ID r) with (Server.ID r1).
    apply UpdateServerUptime_row; [|exact R1'].
    cbn [at_time faults]. now rewrite F1.
  - cbn [Server.UptimeSeconds Server.set_uptime at_time now].
    change (Server.LastStatusUpdate r1) with (Server.LastStatusUpdate r).
    rewrite Sub_in_range by lia.
    rewrite newUptimeSeconds_in_range;
      cbn [r1 Server.UptimeSeconds Server.set_uptime]; lia.
Qed.

Lemma second_run_counts_the_first_interval_again_witness :
  exists r1 r2,
    row 7 (snd (services.billServer daemon "" srv_idle store_idle)) = Some r1
    /\ row 7 (snd (services.billServer daemon "" r1
                     (at_time (802 * Second)
                        (snd (services.billServer daemon "" srv_idle store_idle)))))
       = Some r2
    /\ Server.UptimeSeconds r2 = (1000 + 801 + 802)%Z.
Proof.
  assert (H1 : services.bd_queries daemon = Some services.Conn) by reflexivity.
  assert (H2 : faults store_idle = []) by reflexivity.
  assert (H3 : row (Server.ID srv_idle) store_idle = Some srv_idle) by reflexivity.
  assert (H4 : (Server.LastStatusUpdate srv_idle <= now store_idle <= 802 * Second)%Z)
    by (vm_compute; split; congruence).
  assert (H5 : (802 * Second - Server.LastStatusUpdate srv_idle <= 2 ^ 63 - 1)%Z)
    by (vm_compute; congruence).
  assert (H6 : (0 <= Server.UptimeSeconds srv_idle)%Z) by (vm_compute; congruence).
  assert (H7 : (Server.UptimeSeconds srv_idle
                + (now store_idle - Server.LastStatusUpdate srv_idle) / Second
                + (802 * Second - Server.LastStatusUpdate srv_idle) / Second
                <= 2 ^ 63 - 1)%Z) by (vm_compute; congruence).
  destruct (second_run_counts_the_first_interval_again daemon "" store_idle srv_idle
              (802 * Second) H1 H2 H3 H4 H5 H6 H7) as (r1 & r2 & R1 & R2 & U).
  exists r1, r2. split; [exact R1|]. split; [exact R2|]. rewrite U. reflexivity.
Defined.

Lemma reaper_threshold_is_strict_witness :
  services.reapIfIdle daemon "" srv_idle 1800 store_idle = (Returns tt, store_idle)
  /\ exists rest,
       sent_by (services.reapIfIdle daemon "" srv_idle 1801) store_idle
       = QUpdateServerStatus "terminated" 7 :: rest.
Proof.
  assert (H1 : services.bd_queries daemon = Some services.Conn) by reflexivity.
  assert (H2 : Server.Status srv_idle <> util.ServerStatusTerminated) by discriminate.
  split.
  - apply (proj1 (reaper_threshold_is_strict daemon "" srv_idle 1800 store_idle H1 H2)).
    vm_compute; congruence.
  - apply (proj2 (reaper_threshold_is_strict daemon "" srv_idle 1801 store_idle H1 H2)).
    reflexivity.
Defined.

(** ** The handlers *)

Lemma GetServer_run id db :
  exists r, sqlc.GetServer id db = (Returns r, received (QGetServer id) db)
    /\ (hd None (faults db) = None ->
        r = match row id db with Some s => Ok s | None => Err ErrNoRows end)
    /\ (hd None (faults db) <> None -> exists e, r = Err e).
Proof.
  unfold sqlc.GetServer. rewrite statement_run.
  destruct (faults db) as [|[e|] rest]; cbn [hd fst snd];
    eexists; (split; [reflexivity|]); split; intros H;
    try discriminate; try congruence;
    try (cbn [servers received]; apply one_filter); eauto.
Qed.

Lemma action_names_spec action :
  In action action_names
  <-> (action =? "start") || (action =? "stop") || (action =? "reboot")
      || (action =? "terminate") = true.
Proof.
  unfold action_names. simpl.
  repeat rewrite orb_true_iff. repeat rewrite String.eqb_eq.
  intuition congruence.
Qed.

(** X11.  No action changes a terminated server.  When the row the handler
    fetches is terminated, each of the four actions is answered with status
    500 and any other action name with 400; the lookup is the only
    statement sent and no row of either table is written. *)
Theorem action_on_terminated_server_changes_nothing
    (a : api.ServerAPI) (ctx : services.Context) (action : string)
    (serverUUID : UUID) (db : DB) (r : Server.t) :
  api.dbconn_Queries a = Some services.Conn ->
  hd None (faults db) = None ->
  row serverUUID db = Some r ->
  Server.Status r = util.ServerStatusTerminated ->
  exists resp,
    api.PerformServerAction a ctx (Ok action) serverUUID db
    = (Returns resp, received (QGetServer serverUUID) db)
    /\ (In action action_names -> api.StatusCode resp = 500%Z)
    /\ (~ In action action_names -> api.StatusCode resp = 400%Z).
Proof.
  intros Hq Hf Hr Hst. unfold api.PerformServerAction. rewrite Hq. cbn [services.via].
  destruct (GetServer_run serverUUID db) as (x & E & Hx & _).
  rewrite (bind_returns _ _ _ _ _ E). rewrite (Hx Hf), Hr. cbv zeta.
  assert (S1 : forall s c d,
             services.StartServer s c r d
             = (Returns (Err (services.invalid_transition (Server.Status r)
                                util.ServerStatusRunning)), d)).
  { intros. unfold services.StartServer. now rewrite Hst. }
  assert (S2 : forall s c d,
             services.StopServer s c r d
             = (Returns (Err (services.invalid_transition (Server.Status r)
                                util.ServerStatusStopped)), d)).
  { intros. unfold services.StopServer. now rewrite Hst. }
  assert (S3 : forall s c d,
             services.RebootServer s c r d
             = (Returns (Err ("invalid state transition: cannot reboot from "
                                ++ Server.Status r)), d)).
  { intros. unfold services.RebootServer. now rewrite Hst. }
  assert (S4 : forall s c d,
             services.TerminateServer s c r d
             = (Returns (Err (services.invalid_transition (Server.Status r)
                                util.ServerStatusTerminated)), d)).
  { intros. unfold services.TerminateServer. now rewrite Hst. }
  assert (No : forall resp : api.Response,
             In action action_names ->
             ~ In action action_names -> api.StatusCode resp = 400%Z)
    by (intros; contradiction).
  destruct (action =? "start") eqn:A1;
    [eexists; split; [rewrite (bind_returns _ _ _ _ _ (S1 _ _ _)); reflexivity|];
     split; [reflexivity | apply No, action_names_spec; now rewrite A1]|].
  destruct (action =? "stop") eqn:A2;
    [eexists; split; [rewrite (bind_returns _ _ _ _ _ (S2 _ _ _)); reflexivity|];
     split; [reflexivity | apply No, action_names_spec; now rewrite A1, A2]|].
  destruct (action =? "reboot") eqn:A3;
    [eexists; split; [rewrite (bind_returns _ _ _ _ _ (S3 _ _ _)); reflexivity|];
     split; [reflexivity | apply No, action_names_spec; now rewrite A1, A2, A3]|].
  destruct (action =? "terminate") eqn:A4;
    [eexists; split; [rewrite (bind_returns _ _ _ _ _ (S4 _ _ _)); reflexivity|];
     split; [reflexivity | apply No, action_names_spec; now rewrite A1, A2, A3, A4]|].
  eexists; split; [reflexivity|]. split; [|reflexivity].
  intros H. apply action_names_spec in H. rewrite A1, A2, A3, A4 in H. discriminate.
Qed.

Lemma action_on_terminated_server_changes_nothing_witness :
  exists resp,
    api.PerformServerAction handlers "" (Ok "reboot") 7 store_gone
    = (Returns resp, received (QGetServer 7) store_gone)
    /\ api.StatusCode resp = 500%Z.
Proof.
  assert (H1 : api.dbconn_Queries handlers = Some services.Conn) by reflexivity.
  assert (H2 : hd None (faults store_gone) = None) by reflexivity.
  assert (H3 : row 7 store_gone = Some srv_gone) by reflexivity.
  assert (H4 : Server.Status srv_gone = util.ServerStatusTerminated) by reflexivity.
  destruct (action_on_terminated_server_changes_nothing handlers "" "reboot" 7
              store_gone srv_gone H1 H2 H3 H4) as (resp & E & Y & _).
  exists resp. split; [exact E|]. apply Y. right. right. left. reflexivity.
Defined.

(** X12.  The name of the action is looked at after the server has been
    fetched.  A request whose action is none of the four names sends the
    lookup all the same and writes nothing; it is answered with 400 when
    the server was found, and with 500 when the lookup failed or found no
    row. *)
Theorem unknown_action_is_answered_after_the_lookup
    (a : api.ServerAPI) (ctx : services.Context) (action : string)
    (serverUUID : UUID) (db : DB) :
  api.dbconn_Queries a = Some services.Conn ->
  ~ In action action_names ->
  exists resp,
    api.PerformServerAction a ctx (Ok action) serverUUID db
    = (Returns resp, received (QGetServer serverUUID) db)
    /\ (hd None (faults db) = None -> row serverUUID db <> None ->
        api.StatusCode resp = 400%Z)
    /\ (hd None (faults db) <> None \/ row serverUUID db = None ->
        api.StatusCode resp = 500%Z).
Proof.
  intros Hq Hn. unfold api.PerformServerAction. rewrite Hq. cbn [services.via].
  destruct (GetServer_run serverUUID db) as (x & E & Hx & Hy).
  rewrite (bind_returns _ _ _ _ _ E).
  assert (A : (action =? "start") || (action =? "stop") || (action =? "reboot")
              || (action =? "terminate") = false).
  { destruct (_ || _) eqn:A; [|reflexivity]. apply action_names_spec in A.
    contradiction. }
  apply orb_false_iff in A. destruct A as [A A4].
  apply orb_false_iff in A. destruct A as [A A3].
  apply orb_false_iff in A. destruct A as [A1 A2].
  cbv zeta. rewrite A1, A2, A3, A4.
  destruct x as [s|e].
  - eexists. split; [reflexivity|]. split; [reflexivity|].
    intros [H|H].
    + destruct (Hy H) as [e He]. discriminate.
    + destruct (hd None (faults db)) as [e|] eqn:F.
      * destruct (Hy ltac:(discriminate)) as [e' He]. discriminate.
      * specialize (Hx eq_refl). rewrite H in Hx. discriminate.
  - eexists. split; [reflexivity|]. split; [|reflexivity].
    intros Hf Hr. specialize (Hx Hf).
    destruct (row serverUUID db); [discriminate | contradiction].
Qed.

Lemma unknown_action_is_answered_after_the_lookup_witness :
  exists resp,
    api.PerformServerAction handlers "" (Ok "restart") 8 store_gone
    = (Returns resp, received (QGetServer 8) store_gone)
    /\ api.StatusCode resp = 500%Z.
Proof.
  assert (H1 : api.dbconn_Queries handlers = Some services.Conn) by reflexivity.
  assert (H2 : ~ In "restart" action_names).
  { intros H. apply action_names_spec in H. discriminate. }
  destruct (unknown_action_is_answered_after_the_lookup handlers "" "restart" 8
              store_gone H1 H2) as (resp & E & _ & Y).
  exists resp. split; [exact E|]. apply Y. right. reflexivity.
Defined.

Lemma IsValidServerType_spec t :
  util.IsValidServerType t = true
  <-> In t [util.ServerTypeT2Micro; util.ServerTypeM5Large; util.ServerTypeC5Xlarge].
Proof.
  unfold util.IsValidServerType. simpl.
  repeat rewrite orb_true_iff. repeat rewrite String.eqb_eq.
  intuition congruence.
Qed.

Lemma ProvisionNewServer_sends s ctx name region serverType db :
  wired s ->
  exists rest,
    trace (snd (services.ProvisionNewServer s ctx name region serverType db))
    = (trace db ++ QGetAvailableIPForAllocation :: rest)%list.
Proof.
  intros [Hq Hi]. unfold services.ProvisionNewServer.
  rewrite Hq. cbn [services.via].
  pose proof (AllocateIP_is_the_selection (services.ipAllocator s) ctx db Hi) as E.
  assert (T : trace (snd (sqlc.GetAvailableIPForAllocation db))
              = (trace db ++ [QGetAvailableIPForAllocation])%list)
    by (apply statement_trace; run_keeps_trace).
  destruct (returns_statement QGetAvailableIPForAllocation
              (fun db0 => match sqlc.earliest (filter IpAddress.free (ip_addresses db0)) with
                          | Some r => (Ok r, db0)
                          | None => (Err ErrNoRows, db0)
                          end) db) as (x & db1 & E1).
  fold sqlc.GetAvailableIPForAllocation in E1.
  rewrite E1 in T. cbn [snd] in T.
  rewrite E1 in E. rewrite (bind_returns _ _ _ _ _ E).
  assert (G : forall r, grows
            (match r with
             | Ok allocatedIP =>
                 r0 <- sqlc.CreateNewServer
                         (services.createServerParams s name region serverType allocatedIP);;
                 match r0 with
                 | Ok server =>
                     services.saveAllocatedIP (services.ipAllocator s) ctx
                       (Server.ID server) (IpAddress.ID allocatedIP);;;
                     t <- timeNow;;
                     sqlc.AppendServerLifecycleLog
                       (services.lifecycle_message ctx "Server provisioned successfully"
                          (Server.ID server) t) (Server.ID server);;;
                     ret (Ok server)
                 | Err err => ret (Err ("failed to create server: " ++ err))
                 end
             | Err _ => ret (Err "failed to allocate IP address")
             end)).
  { intros r. unfold services.saveAllocatedIP. grows_tac. }
  destruct (G x db1) as [l Hl]. exists l. rewrite Hl, T. now rewrite <- app_assoc.
Qed.

(** X13.  The provisioning handler checks the request before it touches
    the store.  A body that does not decode, an empty name, region or type,
    or a type that is none of the three names is answered with 400 and the
    store is left as it was, nothing sent.  Any other request reaches the
    service: the selection of a free address is sent, and the answer is
    201 or 500. *)
Theorem provision_request_is_checked_before_the_store
    (a : api.ServerAPI) (ctx : services.Context)
    (body : result api.ProvisionServerRequest) (db : DB) :
  (~ well_formed body ->
   exists resp,
     api.ProvisionServer a ctx body db = (Returns resp, db)
     /\ api.StatusCode resp = 400%Z)
  /\ (well_formed body -> wired (api.serverService a) ->
      (exists rest,
         sent_by (api.ProvisionServer a ctx body) db
         = QGetAvailableIPForAllocation :: rest)
      /\ forall resp,
           fst (api.ProvisionServer a ctx body db) = Returns resp ->
           api.StatusCode resp = 201%Z \/ api.StatusCode resp = 500%Z).
Proof.
  unfold api.ProvisionServer. destruct body as [req|e]; cbn [well_formed].
  2:{ split; [intros _; eexists; split; reflexivity | intros []]. }
  destruct (String.eqb_spec (api.req_Name req) "") as [N|N];
    [split; [intros _; eexists; split; reflexivity | intros [H _]; contradiction]|].
  destruct (String.eqb_spec (api.req_Region req) "") as [R|R];
    [split; [intros _; eexists; split; reflexivity | intros (_ & H & _); contradiction]|].
  destruct (String.eqb_spec (api.req_Type req) "") as [T|T];
    [split; [intros _; eexists; split; reflexivity
            | intros (_ & _ & H); rewrite T in H; simpl in H;
              repeat (destruct H as [H|H]; [discriminate|]); contradiction]|].
  cbn [orb].
  destruct (util.IsValidServerType (api.req_Type req)) eqn:V; cbn [negb].
  - apply IsValidServerType_spec in V. split; [intros H; elim H; auto|].
    intros _ W.
    destruct (ProvisionNewServer_sends (api.serverService a) ctx (api.req_Name req)
                (api.req_Region req) (api.req_Type req) db W) as [rest Tr].
    split.
    + exists rest. apply sent_by_grows. unfold bind.
      destruct (services.ProvisionNewServer (api.serverService a) ctx
                  (api.req_Name req) (api.req_Region req) (api.req_Type req) db)
        as [[[s|e]|msg|c] db1]; exact Tr.
    + intros resp. unfold bind.
      destruct (services.ProvisionNewServer (api.serverService a) ctx
                  (api.req_Name req) (api.req_Region req) (api.req_Type req) db)
        as [[[s|e]|msg|c] db1]; cbn [fst ret];
        intros E; inversion E; subst; auto.
  - split; [intros _; eexists; split; reflexivity|].
    intros (_ & _ & H) _. apply IsValidServerType_spec in H. congruence.
Qed.

Lemma provision_request_is_checked_before_the_store_witness :
  (exists resp,
     api.ProvisionServer handlers ""
       (Ok {| api.req_Name := "web1"; api.req_Region := "us-east-1";
              api.req_Type := "t3.micro" |}) store_one_free
     = (Returns resp, store_one_free)
     /\ api.StatusCode resp = 400%Z)
  /\ exists rest,
       sent_by (api.ProvisionServer handlers ""
                  (Ok {| api.req_Name := "web1"; api.req_Region := "us-east-1";
                         api.req_Type := "t2.micro" |})) store_one_free
       = QGetAvailableIPForAllocation :: rest.
Proof.
  split.
  - apply (provision_request_is_checked_before_the_store handlers ""
             (Ok {| api.req_Name := "web1"; api.req_Region := "us-east-1";
                    api.req_Type := "t3.micro" |}) store_one_free).
    intros (_ & _ & H). simpl in H.
    repeat (destruct H as [H|H]; [discriminate|]). contradiction.
  - apply (provision_request_is_checked_before_the_store handlers ""
             (Ok {| api.req_Name := "web1"; api.req_Region := "us-east-1";
                    api.req_Type := "t2.micro" |}) store_one_free).
    + split; [discriminate|]. split; [discriminate|]. left. reflexivity.
    + split; reflexivity.
Defined.

(** ** Requests that go through, on a healthy store *)

Lemma request_with_log_healthy (s : services.ServerService) (ctx : services.Context)
    (server : Server.t) (target action : string) (db : DB) (r : Server.t) :
  services.queries s = Some services.Conn ->
  faults db = [] -> row (Server.ID server) db = Some r -> fits 15 target = true ->
  bind (services.via (services.queries s)
          (sqlc.UpdateServerStatus target (Server.ID server)))
       (fun r => match r with
                 | Err err => ret (Err err)
                 | Ok updatedServer =>
                     bind timeNow (fun t =>
                       bind (services.AppendServerLifecycleLogs (Some s) None ctx
                               (Server.ID server)
                               (services.lifecycle_message ctx action (Server.ID server) t))
                            (fun _ => ret (Ok updatedServer)))
                 end) db
  = (Returns (Ok (Server.set_status target (now db) r)),
     snd (services.append_and_limit (Some services.Conn) (Server.ID server)
            (services.lifecycle_message ctx action (Server.ID server) (now db))
            (with_servers (sqlc.update_where (sqlc.server_is (Server.ID server))
                             (Server.set_status target (now db)) (servers db))
                          (received (QUpdateServerStatus target (Server.ID server)) db)))).
Proof.
  intros Hq Hf Hr Hfit. rewrite (request_with_log s ctx server target action db Hq).
  rewrite (UpdateServerStatus_applied target _ db r ltac:(now rewrite Hf) Hr Hfit).
  reflexivity.
Qed.

Lemma after_status_then_log (id : UUID) (target msg : string) (db : DB) (r : Server.t) :
  faults db = [] -> row id db = Some r ->
  let db1 := with_servers (sqlc.update_where (sqlc.server_is id)
                             (Server.set_status target (now db)) (servers db))
                          (received (QUpdateServerStatus target id) db) in
  let db' := snd (services.append_and_limit (Some services.Conn) id msg db1) in
  option_map Server.Status (row id db') = Some target
  /\ ip_addresses db' = ip_addresses db
  /\ faults db' = [].
Proof.
  intros Hf Hr db1 db'.
  assert (R1 : row id db1 = Some (Server.set_status target (now db) r)).
  { unfold row, db1. cbn [servers with_servers]. now apply row_after_status_update. }
  assert (F1 : faults db1 = []) by (unfold db1; cbn; now rewrite Hf).
  destruct (row_survives_append services.Conn id msg db1 _ R1) as (r' & R' & S').
  fold db' in R'. rewrite R'. cbn [option_map]. rewrite S'.
  split; [reflexivity|]. split.
  - pose proof (append_keeps_ips (Some services.Conn) id msg db1) as K. red in K.
    fold db' in K. rewrite K. reflexivity.
  - now apply (append_stays_healthy (Some services.Conn) id msg db1).
Qed.

(** X14.  Start, stop and reboot through the handler, on a healthy store
    that holds the server.  When the stored status allows the action
    (start and stop by the transition table, reboot from any status but
    terminated) the answer is 200 with a row in the new status whose last
    status update is now; the stored row has the new status and the
    address table is as it was. *)
Theorem accepted_action_is_answered_with_the_new_status
    (a : api.ServerAPI) (ctx : services.Context) (action target : string)
    (serverUUID : UUID) (db : DB) (r : Server.t) :
  api.dbconn_Queries a = Some services.Conn ->
  services.queries (api.serverService a) = Some services.Conn ->
  faults db = [] ->
  row serverUUID db = Some r ->
  (action = "start" /\ target = util.ServerStatusRunning
   /\ util.IsValidTransition (Server.Status r) util.ServerStatusRunning = true)
  \/ (action = "stop" /\ target = util.ServerStatusStopped
      /\ util.IsValidTransition (Server.Status r) util.ServerStatusStopped = true)
  \/ (action = "reboot" /\ target = util.ServerStatusRunning
      /\ Server.Status r <> util.ServerStatusTerminated) ->
  exists u db',
    api.PerformServerAction a ctx (Ok action) serverUUID db
    = (Returns (api.RespondWithJSON 200 (api.ServerResponse u)), db')
    /\ Server.Status u = target
    /\ Server.LastStatusUpdate u = now db
    /\ option_map Server.Status (row serverUUID db') = Some target
    /\ ip_addresses db' = ip_addresses db.
Proof.
  intros Hd Hq Hf Hr Hcase. unfold api.PerformServerAction. rewrite Hd.
  cbn [services.via].
  destruct (GetServer_run serverUUID db) as (x & E & Hx & _).
  rewrite (bind_returns _ _ _ _ _ E).
  rewrite (Hx ltac:(now rewrite Hf)), Hr. cbv zeta.
  pose proof (row_found_has_id _ _ _ Hr) as Hid. subst serverUUID.
  set (db0 := received (QGetServer (Server.ID r)) db).
  assert (F0 : faults db0 = []) by (unfold db0; cbn; now rewrite Hf).
  assert (R0 : row (Server.ID r) db0 = Some r) by exact Hr.
  destruct Hcase as [(-> & -> & V)|[(-> & -> & V)|(-> & -> & V)]];
    cbn [String.eqb Ascii.eqb Bool.eqb andb].
  - unfold services.StartServer. rewrite V. cbn [negb].
    rewrite (bind_returns _ _ _ _ _
               (request_with_log_healthy (api.serverService a) ctx r
                  util.ServerStatusRunning "Server start initiated" db0 r
                  Hq F0 R0 eq_refl)).
    eexists. eexists. split; [reflexivity|].
    split; [reflexivity|]. split; [reflexivity|].
    destruct (after_status_then_log (Server.ID r) util.ServerStatusRunning
                (services.lifecycle_message ctx "Server start initiated" (Server.ID r)
                   (now db0)) db0 r F0 R0) as (S1 & I1 & _).
    split; [exact S1 | exact I1].
  - unfold services.StopServer. rewrite V. cbn [negb].
    rewrite (bind_returns _ _ _ _ _
               (request_with_log_healthy (api.serverService a) ctx r
                  util.ServerStatusStopped "Server stop initiated" db0 r
                  Hq F0 R0 eq_refl)).
    eexists. eexists. split; [reflexivity|].
    split; [reflexivity|]. split; [reflexivity|].
    destruct (after_status_then_log (Server.ID r) util.ServerStatusStopped
                (services.lifecycle_message ctx "Server stop initiated" (Server.ID r)
                   (now db0)) db0 r F0 R0) as (S1 & I1 & _).
    split; [exact S1 | exact I1].
  - destruct (append_and_limit_healthy (Server.ID r)
                (services.lifecycle_message ctx "Server reboot initiated" (Server.ID r)
                   (now db0)) db0 r F0 R0) as (db1 & r1 & E1 & R1 & F1 & _).
    pose proof (append_keeps_ips (Some services.Conn) (Server.ID r)
                  (services.lifecycle_message ctx "Server reboot initiated" (Server.ID r)
                     (now db0)) db0) as I1.
    pose proof (append_keeps_clock (Some services.Conn) (Server.ID r)
                  (services.lifecycle_message ctx "Server reboot initiated" (Server.ID r)
                     (now db0)) db0) as C1.
    red in I1, C1. rewrite E1 in I1, C1. cbn [snd] in *.
    pose proof (UpdateServerStatus_applied util.ServerStatusRunning (Server.ID r) db1 r1
                  ltac:(now rewrite F1) R1 eq_refl) as U.
    pose proof (RebootServer_runs (api.serverService a) ctx r Hq db0 V) as RB.
    rewrite E1 in RB. cbn [snd] in RB. rewrite U in RB.
    rewrite (bind_returns _ _ _ _ _ RB).
    eexists. eexists. split; [reflexivity|].
    split; [reflexivity|]. split; [exact C1|].
    split; [|exact I1].
    unfold row. cbn [servers with_servers].
    now rewrite (row_after_status_update _ _ _ _ r1 R1).
Qed.

Lemma accepted_action_is_answered_with_the_new_status_witness :
  exists u db',
    api.PerformServerAction handlers "" (Ok "stop") 7 store_bound
    = (Returns (api.RespondWithJSON 200 (api.ServerResponse u)), db')
    /\ Server.Status u = "stopped"
    /\ option_map Server.Status (row 7 db') = Some "stopped"
    /\ ip_addresses db' = [addr3].
Proof.
  assert (H1 : api.dbconn_Queries handlers = Some services.Conn) by reflexivity.
  assert (H2 : services.queries (api.serverService handlers) = Some services.Conn)
    by reflexivity.
  assert (H3 : faults store_bound = []) by reflexivity.
  assert (H4 : row 7 store_bound = Some srv7) by reflexivity.
  assert (H5 : util.IsValidTransition (Server.Status srv7) util.ServerStatusStopped = true)
    by reflexivity.
  destruct (accepted_action_is_answered_with_the_new_status handlers "" "stop"
              util.ServerStatusStopped 7 store_bound srv7 H1 H2 H3 H4
              (or_intror (or_introl (conj eq_refl (conj eq_refl H5)))))
    as (u & db' & E & S & _ & R & I).
  exists u, db'. split; [exact E|]. split; [exact S|]. split; [exact R | exact I].
Defined.

(** ** The constraints of the schema are kept *)

Lemma keeps_consistent_refl d : keeps_consistent d d.
Proof. intros H; exact H. Qed.

Lemma keeps_consistent_trans a b c :
  keeps_consistent a b -> keeps_consistent b c -> keeps_consistent a c.
Proof. unfold keeps_consistent. auto. Qed.

(** The invariant reads the server table through its ids only. *)
Lemma consistent_by_ids d d' :
  map Server.ID (servers d') = map Server.ID (servers d) ->
  ip_addresses d' = ip_addresses d ->
  next_uuid d' = next_uuid d ->
  keeps_consistent d d'.
Proof.
  intros Hs Hi Hn [H1 H2 H3 H4 H5 H6 H7 H8].
  constructor; rewrite ?Hi, ?Hn, ?Hs; auto.
  rewrite <- (Forall_map Server.ID (fun i => (i < next_uuid d)%N)) in H1 |- *.
  now rewrite Hs.
Qed.

Lemma consistent_received q d : keeps_consistent d (received q d).
Proof. apply consistent_by_ids; reflexivity. Qed.

Lemma consistent_servers_updated p f d :
  (forall x, Server.ID (f x) = Server.ID x) ->
  keeps_consistent d (with_servers (sqlc.update_where p f (servers d)) d).
Proof.
  intros H. apply consistent_by_ids; try reflexivity.
  cbn [servers with_servers]. now apply map_update_where.
Qed.

Lemma fresh_id {A} (key : A -> UUID) (l : list A) n :
  Forall (fun x => (key x < n)%N) l -> ~ In n (map key l).
Proof.
  intros H Hin. apply in_map_iff in Hin. destruct Hin as (x & E & Hx).
  rewrite Forall_forall in H. specialize (H x Hx). lia.
Qed.

Lemma NoDup_snoc {A} (l : list A) x : NoDup l -> ~ In x l -> NoDup (l ++ [x]).
Proof.
  intros Hl Hx. apply NoDup_app; [exact Hl | constructor; [intros []|constructor] |].
  intros y Hy [<-|[]]. contradiction.
Qed.

Lemma Forall_lt_succ {A} (key : A -> UUID) l n :
  Forall (fun x => (key x < n)%N) l -> Forall (fun x => (key x < N.succ n)%N) l.
Proof. apply Forall_impl. intros; lia. Qed.

Lemma owners_app l l' : owners (l ++ l') = (owners l ++ owners l')%list.
Proof. unfold owners. apply flat_map_app. Qed.

Lemma consistent_CreateNewServer arg :
  preserves keeps_consistent (sqlc.CreateNewServer arg).
Proof.
  unfold sqlc.CreateNewServer.
  apply preserves_statement;
    [exact keeps_consistent_trans | intros d; apply consistent_received |].
  intros d. destruct (_ && _); cbn [snd]; [|apply keeps_consistent_refl].
  intros [H1 H2 H3 H4 H5 H6 H7 H8].
  constructor; cbn [servers ip_addresses next_uuid bump_uuid with_servers]; auto.
  - apply Forall_app. split; [now apply Forall_lt_succ|].
    constructor; [cbn; lia | constructor].
  - rewrite map_app. apply NoDup_snoc; [exact H2|]. now apply fresh_id.
  - now apply Forall_lt_succ.
  - revert H8. apply Forall_impl. intros o Ho. rewrite map_app, in_app_iff. now left.
Qed.

Lemma consistent_CreateIPAddress address :
  preserves keeps_consistent (sqlc.CreateIPAddress address).
Proof.
  unfold sqlc.CreateIPAddress.
  apply preserves_statement;
    [exact keeps_consistent_trans | intros d; apply consistent_received |].
  intros d. destruct (negb _); cbn [snd]; [apply keeps_consistent_refl|].
  destruct (existsb _ _) eqn:X; cbn [snd]; [apply keeps_consistent_refl|].
  intros [H1 H2 H3 H4 H5 H6 H7 H8].
  constructor; cbn [servers ip_addresses next_uuid bump_uuid with_ips]; auto.
  - now apply Forall_lt_succ.
  - apply Forall_app. split; [now apply Forall_lt_succ|].
    constructor; [cbn; lia | constructor].
  - rewrite map_app. apply NoDup_snoc; [exact H4|]. now apply fresh_id.
  - rewrite map_app. apply NoDup_snoc; [exact H5|].
    intros Hin. apply in_map_iff in Hin. destruct Hin as (x & E & Hx).
    assert (existsb (fun a => IpAddress.Address a =? address) (ip_addresses d) = true).
    { apply existsb_exists. exists x. split; [exact Hx | now apply String.eqb_eq]. }
    congruence.
  - apply Forall_app. split; [exact H6 | constructor; [reflexivity | constructor]].
  - rewrite owners_app. cbn. now rewrite app_nil_r.
  - rewrite owners_app. cbn. now rewrite app_nil_r.
Qed.

Lemma consistent_TruncateIPAddresses :
  preserves keeps_consistent sqlc.TruncateIPAddresses.
Proof.
  unfold sqlc.TruncateIPAddresses.
  apply preserves_statement;
    [exact keeps_consistent_trans | intros d; apply consistent_received |].
  intros d [H1 H2 H3 H4 H5 H6 H7 H8].
  constructor; cbn [snd servers ip_addresses next_uuid with_ips owners flat_map map];
    auto; constructor.
Qed.

Lemma update_where_cons {A} (p : A -> bool) (f : A -> A) x l :
  sqlc.update_where p f (x :: l)
  = (if p x then f x else x) :: sqlc.update_where p f l.
Proof. reflexivity. Qed.

Lemma owners_cons x l :
  owners (x :: l)
  = (match IpAddress.ServerID x with Some o => [o] | None => [] end ++ owners l)%list.
Proof. reflexivity. Qed.

(** The owners after a release are among the owners before it. *)
Lemma owners_released p at_ l o :
  In o (owners (sqlc.update_where p (IpAddress.set_owner false None at_) l)) ->
  In o (owners l).
Proof.
  induction l as [|x l IH]; [auto|].
  rewrite update_where_cons, !owners_cons, !in_app_iff.
  destruct (p x); cbn [IpAddress.set_owner IpAddress.ServerID]; intros [H|H];
    try contradiction; auto.
Qed.

Lemma NoDup_owners_released p at_ l :
  NoDup (owners l) ->
  NoDup (owners (sqlc.update_where p (IpAddress.set_owner false None at_) l)).
Proof.
  induction l as [|x l IH]; [auto|].
  rewrite update_where_cons, !owners_cons. intros H.
  destruct (p x); cbn [IpAddress.set_owner IpAddress.ServerID app].
  - apply IH. destruct (IpAddress.ServerID x); [now inversion H | exact H].
  - destruct (IpAddress.ServerID x) as [o|]; cbn [app] in *; [|now apply IH].
    inversion H; subst. constructor; [|now apply IH].
    intros Hin. apply owners_released in Hin. contradiction.
Qed.

Lemma Forall_update_where {A} (P : A -> Prop) (p : A -> bool) (f : A -> A) l :
  (forall x, P (f x)) -> Forall P l -> Forall P (sqlc.update_where p f l).
Proof.
  intros Hf H. unfold sqlc.update_where. apply Forall_map.
  revert H. apply Forall_impl. intros x Hx. destruct (p x); auto.
Qed.

Lemma consistent_DeallocateIPAddress id :
  preserves keeps_consistent (sqlc.DeallocateIPAddress id).
Proof.
  unfold sqlc.DeallocateIPAddress.
  apply preserves_statement;
    [exact keeps_consistent_trans | intros d; apply consistent_received |].
  intros d [H1 H2 H3 H4 H5 H6 H7 H8].
  constructor; cbn [snd servers ip_addresses next_uuid with_ips]; auto.
  - rewrite <- (Forall_map IpAddress.ID (fun i => (i < next_uuid d)%N)) in H3 |- *.
    rewrite map_update_where; [exact H3 | reflexivity].
  - rewrite map_update_where; [exact H4 | reflexivity].
  - rewrite map_update_where; [exact H5 | reflexivity].
  - apply Forall_update_where; [reflexivity | exact H6].
  - now apply NoDup_owners_released.
  - apply Forall_forall. intros o Ho. apply owners_released in Ho.
    rewrite Forall_forall in H8. now apply H8.
Qed.

(** The owners after a binding: the new owner, or an owner of before. *)
Lemma owners_bound p sid at_ l o :
  In o (owners (sqlc.update_where p (IpAddress.set_owner true (Some sid) at_) l)) ->
  o = sid \/ In o (owners l).
Proof.
  induction l as [|x l IH]; [auto|].
  rewrite update_where_cons, !owners_cons, !in_app_iff.
  destruct (p x); cbn [IpAddress.set_owner IpAddress.ServerID]; intros [H|H].
  - destruct H as [<-|[]]. now left.
  - destruct (IH H); auto.
  - auto.
  - destruct (IH H); auto.
Qed.

Lemma update_where_no_hit {A} (p : A -> bool) (f : A -> A) l :
  Forall (fun x => p x = false) l -> sqlc.update_where p f l = l.
Proof.
  unfold sqlc.update_where. induction 1 as [|x l Hx Hl IH]; cbn; [reflexivity|].
  now rewrite Hx, IH.
Qed.

Lemma not_owned_spec sid l :
  existsb (sqlc.owned_by sid) l = false -> ~ In sid (owners l).
Proof.
  induction l as [|x l IH]; [auto|]. rewrite owners_cons, in_app_iff. cbn [existsb].
  intros H. apply orb_false_iff in H. destruct H as [Hx Hl].
  intros [Hin|Hin]; [|now apply IH].
  unfold sqlc.owned_by in Hx. destruct (IpAddress.ServerID x) as [o|]; cbn in Hin;
    [|contradiction].
  destruct Hin as [->|[]]. now rewrite N.eqb_refl in Hx.
Qed.

Lemma NoDup_owners_bound id sid at_ l :
  NoDup (map IpAddress.ID l) -> NoDup (owners l) -> ~ In sid (owners l) ->
  NoDup (owners (sqlc.update_where (fun a => sqlc.ip_is id a && IpAddress.free a)
                   (IpAddress.set_owner true (Some sid) at_) l)).
Proof.
  induction l as [|x l IH]; [auto|].
  rewrite update_where_cons, !owners_cons, in_app_iff. cbn [map].
  intros Hid Ho Hs. inversion Hid as [|? ? Hx Hl]; subst.
  destruct (sqlc.ip_is id x && IpAddress.free x) eqn:P;
    cbn [IpAddress.set_owner IpAddress.ServerID app].
  - apply andb_true_iff in P. destruct P as [P1 P2].
    apply N.eqb_eq in P1.
    rewrite update_where_no_hit.
    + unfold IpAddress.free in P2. apply andb_true_iff in P2. destruct P2 as [_ P2].
      destruct (IpAddress.ServerID x); [discriminate|]. cbn [app] in Ho.
      constructor; [tauto | exact Ho].
    + apply Forall_forall. intros y Hy.
      destruct (sqlc.ip_is id y) eqn:Q; [|reflexivity].
      apply N.eqb_eq in Q. elim Hx. rewrite P1, <- Q. now apply in_map.
  - destruct (IpAddress.ServerID x) as [o|] eqn:Ox; cbn [app In] in *.
    + inversion Ho; subst. constructor; [|apply IH; tauto].
      intros Hin. apply owners_bound in Hin. destruct Hin as [->|Hin]; tauto.
    + apply IH; tauto.
Qed.

Lemma consistent_AllocateIPAddress serverID id :
  preserves keeps_consistent (sqlc.AllocateIPAddress serverID id).
Proof.
  unfold sqlc.AllocateIPAddress.
  apply preserves_statement;
    [exact keeps_consistent_trans | intros d; apply consistent_received |].
  intros d. cbv zeta.
  destruct (filter _ _); cbn [snd]; [apply keeps_consistent_refl|].
  destruct (existsb (sqlc.server_is serverID) (servers d)) eqn:S; cbn [negb snd];
    [|apply keeps_consistent_refl].
  destruct (existsb (sqlc.owned_by serverID) (ip_addresses d)) eqn:O; cbn [snd];
    [apply keeps_consistent_refl|].
  intros [H1 H2 H3 H4 H5 H6 H7 H8].
  constructor; cbn [snd servers ip_addresses next_uuid with_ips]; auto.
  - rewrite <- (Forall_map IpAddress.ID (fun i => (i < next_uuid d)%N)) in H3 |- *.
    rewrite map_update_where; [exact H3 | reflexivity].
  - rewrite map_update_where; [exact H4 | reflexivity].
  - rewrite map_update_where; [exact H5 | reflexivity].
  - apply Forall_update_where; [reflexivity | exact H6].
  - apply NoDup_owners_bound; auto. now apply not_owned_spec.
  - apply Forall_forall. intros o Ho. apply owners_bound in Ho.
    destruct Ho as [->|Ho]; [|rewrite Forall_forall in H8; now apply H8].
    apply existsb_exists in S. destruct S as (x & Hx & E).
    apply N.eqb_eq in E. rewrite <- E. now apply in_map.
Qed.

Ltac statement_consistent :=
  apply preserves_statement;
    [ exact keeps_consistent_trans
    | intros ?; apply consistent_received
    | intros ?; cbv zeta;
      repeat match goal with
             | |- context [match ?x with _ => _ end] => destruct x
             end;
      cbn [snd];
      first [ apply keeps_consistent_refl
            | apply consistent_servers_updated; intros ?;
              repeat match goal with
                     | |- context [if ?b then _ else _] => destruct b
                     end; reflexivity ] ].

Lemma consistent_GetAvailableIPForAllocation :
  preserves keeps_consistent sqlc.GetAvailableIPForAllocation.
Proof. unfold sqlc.GetAvailableIPForAllocation. statement_consistent. Qed.

Lemma consistent_GetIPAddressByServerID id :
  preserves keeps_consistent (sqlc.GetIPAddressByServerID id).
Proof. unfold sqlc.GetIPAddressByServerID. statement_consistent. Qed.

Lemma consistent_GetServer id : preserves keeps_consistent (sqlc.GetServer id).
Proof. unfold sqlc.GetServer. statement_consistent. Qed.

Lemma consistent_ListServers st : preserves keeps_consistent (sqlc.ListServers st).
Proof. unfold sqlc.ListServers. statement_consistent. Qed.

Lemma consistent_UpdateServerStatus st id :
  preserves keeps_consistent (sqlc.UpdateServerStatus st id).
Proof. unfold sqlc.UpdateServerStatus. statement_consistent. Qed.

Lemma consistent_UpdateServerUptime n id :
  preserves keeps_consistent (sqlc.UpdateServerUptime n id).
Proof. unfold sqlc.UpdateServerUptime. statement_consistent. Qed.

Lemma consistent_AppendServerLifecycleLog msg id :
  preserves keeps_consistent (sqlc.AppendServerLifecycleLog msg id).
Proof. unfold sqlc.AppendServerLifecycleLog. statement_consistent. Qed.

Lemma consistent_EnforceLifecycleLogsLimit id :
  preserves keeps_consistent (sqlc.EnforceLifecycleLogsLimit id).
Proof. unfold sqlc.EnforceLifecycleLogsLimit. statement_consistent. Qed.

Lemma consistent_TerminateAllServers :
  preserves keeps_consistent sqlc.TerminateAllServers.
Proof. unfold sqlc.TerminateAllServers. statement_consistent. Qed.

(** A program is walked down to its statements; [refl] and [trans] make
    the relation a preorder, [leaf] settles a statement. *)
Ltac walk refl trans leaf :=
  repeat first
    [ solve [leaf]
    | apply preserves_ret; exact refl
    | apply preserves_panic; exact refl
    | apply preserves_osExit; exact refl
    | apply preserves_timeNow; exact refl
    | apply preserves_via; [exact refl|]
    | apply preserves_bind; [exact trans | | intros ?]
    | match goal with
      | |- preserves _ (match ?x with _ => _ end) => destruct x
      | |- preserves _ (if ?b then _ else _) => destruct b
      end ].

Create HintDb schema discriminated.
#[local] Hint Resolve consistent_CreateIPAddress consistent_GetAvailableIPForAllocation
  consistent_AllocateIPAddress consistent_DeallocateIPAddress
  consistent_GetIPAddressByServerID consistent_TruncateIPAddresses
  consistent_CreateNewServer consistent_GetServer consistent_ListServers
  consistent_UpdateServerStatus consistent_UpdateServerUptime
  consistent_AppendServerLifecycleLog consistent_EnforceLifecycleLogsLimit
  consistent_TerminateAllServers : schema.

Ltac consistent_tac :=
  walk keeps_consistent_refl keeps_consistent_trans ltac:(auto with schema).

Lemma consistent_append_and_limit q id msg :
  preserves keeps_consistent (services.append_and_limit q id msg).
Proof. unfold services.append_and_limit. consistent_tac. Qed.

Lemma consistent_AppendServerLifecycleLogs s bd ctx id msg :
  preserves keeps_consistent (services.AppendServerLifecycleLogs s bd ctx id msg).
Proof.
  unfold services.AppendServerLifecycleLogs.
  destruct s as [s'|]; [|consistent_tac].
  destruct (services.queries s'); [apply consistent_append_and_limit|].
  destruct bd; [apply consistent_append_and_limit | consistent_tac].
Qed.
#[local] Hint Resolve consistent_append_and_limit
  consistent_AppendServerLifecycleLogs : schema.

Lemma consistent_ProvisionNewServer s ctx name region serverType :
  preserves keeps_consistent
    (services.ProvisionNewServer s ctx name region serverType).
Proof.
  unfold services.ProvisionNewServer, services.AllocateIP, services.saveAllocatedIP.
  consistent_tac.
Qed.

Lemma consistent_StartServer s ctx server :
  preserves keeps_consistent (services.StartServer s ctx server).
Proof. unfold services.StartServer. consistent_tac. Qed.

Lemma consistent_StopServer s ctx server :
  preserves keeps_consistent (services.StopServer s ctx server).
Proof. unfold services.StopServer. consistent_tac. Qed.

Lemma consistent_RebootServer s ctx server :
  preserves keeps_consistent (services.RebootServer s ctx server).
Proof. unfold services.RebootServer. consistent_tac. Qed.

Lemma consistent_TerminateServer s ctx server :
  preserves keeps_consistent (services.TerminateServer s ctx server).
Proof. unfold services.TerminateServer. consistent_tac. Qed.

Lemma consistent_billServer bd ctx server :
  preserves keeps_consistent (services.billServer bd ctx server).
Proof.
  unfold services.billServer, services.timeSince, services.reapIfIdle.
  consistent_tac.
Qed.

Lemma consistent_processBilling bd ctx :
  preserves keeps_consistent (services.processBilling bd ctx).
Proof.
  unfold services.processBilling.
  apply preserves_bind; [exact keeps_consistent_trans | consistent_tac | intros r].
  destruct r as [l|e]; [|consistent_tac].
  apply preserves_for_range;
    [exact keeps_consistent_refl | exact keeps_consistent_trans
    | intros x; apply consistent_billServer].
Qed.

Lemma consistent_populate fuel q prefix exclude : forall addr count,
  preserves keeps_consistent (pool.populate fuel q prefix exclude addr count).
Proof.
  induction fuel as [|fuel IH]; intros addr count; cbn [pool.populate].
  - consistent_tac.
  - destruct (netip.PrefixContains prefix addr); [|consistent_tac].
    destruct (pool.excluded exclude addr || netip.Addr_eqb addr (netip.PrefixAddr prefix));
      [apply IH|].
    apply preserves_bind;
      [exact keeps_consistent_trans | consistent_tac | intros [?|?]; apply IH].
Qed.

Lemma consistent_pool_TerminateAllServers ipa ctx cidr exclusionList :
  preserves keeps_consistent (pool.TerminateAllServers ipa ctx cidr exclusionList).
Proof.
  unfold pool.TerminateAllServers.
  apply preserves_bind; [exact keeps_consistent_trans | consistent_tac | intros ?].
  apply preserves_bind;
    [exact keeps_consistent_trans | unfold pool.schema_check; consistent_tac | intros ?].
  apply preserves_bind; [exact keeps_consistent_trans | consistent_tac | intros ?].
  apply preserves_bind;
    [exact keeps_consistent_trans | unfold pool.schema_check; consistent_tac | intros ?].
  destruct (netip.ParsePrefix cidr); [|consistent_tac].
  apply preserves_bind;
    [exact keeps_consistent_trans | apply consistent_populate
    | intros [?|]; consistent_tac].
Qed.

Lemma consistent_api_ProvisionServer a ctx body :
  preserves keeps_consistent (api.ProvisionServer a ctx body).
Proof.
  unfold api.ProvisionServer. destruct body as [req|e]; [|consistent_tac].
  destruct (_ || _); [consistent_tac|].
  destruct (negb _); [consistent_tac|].
  apply preserves_bind;
    [exact keeps_consistent_trans | apply consistent_ProvisionNewServer
    | intros [?|?]; consistent_tac].
Qed.

Lemma consistent_api_PerformServerAction a ctx body serverUUID :
  preserves keeps_consistent (api.PerformServerAction a ctx body serverUUID).
Proof.
  unfold api.PerformServerAction. destruct body as [action|e]; [|consistent_tac].
  apply preserves_bind; [exact keeps_consistent_trans | consistent_tac | intros r].
  destruct r as [server|e]; [|consistent_tac]. cbv zeta.
  destruct (action =? "start");
    [apply preserves_bind;
       [exact keeps_consistent_trans | apply consistent_StartServer
       | intros [?|?]; consistent_tac]|].
  destruct (action =? "stop");
    [apply preserves_bind;
       [exact keeps_consistent_trans | apply consistent_StopServer
       | intros [?|?]; consistent_tac]|].
  destruct (action =? "reboot");
    [apply preserves_bind;
       [exact keeps_consistent_trans | apply consistent_RebootServer
       | intros [?|?]; consistent_tac]|].
  destruct (action =? "terminate");
    [apply preserves_bind;
       [exact keeps_consistent_trans | apply consistent_TerminateServer
       | intros [?|?]; consistent_tac]|].
  consistent_tac.
Qed.

(** ** The cap of the log is kept by the requests and by the tick *)

Lemma keeps_capped_refl d : keeps_capped d d.
Proof. intros H; exact H. Qed.

Lemma keeps_capped_trans a b c :
  keeps_capped a b -> keeps_capped b c -> keeps_capped a c.
Proof. unfold keeps_capped. auto. Qed.

Lemma keeps_order_refl d : keeps_order d d.
Proof. intros H; exact H. Qed.

Lemma keeps_order_trans a b c :
  keeps_order a b -> keeps_order b c -> keeps_order a c.
Proof. unfold keeps_order. auto. Qed.

Lemma capped_same_servers d d' : servers d' = servers d -> keeps_capped d d'.
Proof. intros E H. unfold capped in *. now rewrite E. Qed.

Lemma Forall_update_where_if {A} (P : A -> Prop) (p : A -> bool) (f : A -> A) l :
  (forall x, P x -> P (f x)) -> Forall P l -> Forall P (sqlc.update_where p f l).
Proof.
  intros Hf H. unfold sqlc.update_where. apply Forall_map.
  revert H. apply Forall_impl. intros x Hx. destruct (p x); auto.
Qed.

Lemma capped_servers_updated p f d :
  (forall x, (List.length (Server.LifecycleLogs x) <= 100)%nat ->
             (List.length (Server.LifecycleLogs (f x)) <= 100)%nat) ->
  keeps_capped d (with_servers (sqlc.update_where p f (servers d)) d).
Proof.
  intros H C. unfold capped in *. cbn [servers with_servers].
  now apply Forall_update_where_if.
Qed.

Ltac statement_capped :=
  apply preserves_statement;
    [ exact keeps_capped_trans
    | intros ?; apply capped_same_servers; reflexivity
    | intros ?; cbv zeta;
      repeat match goal with
             | |- context [match ?x with _ => _ end] => destruct x
             end;
      cbn [snd];
      first [ apply keeps_capped_refl
            | apply capped_same_servers; reflexivity
            | apply capped_servers_updated; intros ? ?; assumption ] ].

Lemma capped_GetAvailableIPForAllocation :
  preserves keeps_capped sqlc.GetAvailableIPForAllocation.
Proof. unfold sqlc.GetAvailableIPForAllocation. statement_capped. Qed.

Lemma capped_AllocateIPAddress serverID id :
  preserves keeps_capped (sqlc.AllocateIPAddress serverID id).
Proof. unfold sqlc.AllocateIPAddress. statement_capped. Qed.

Lemma capped_DeallocateIPAddress id :
  preserves keeps_capped (sqlc.DeallocateIPAddress id).
Proof. unfold sqlc.DeallocateIPAddress. statement_capped. Qed.

Lemma capped_GetIPAddressByServerID id :
  preserves keeps_capped (sqlc.GetIPAddressByServerID id).
Proof. unfold sqlc.GetIPAddressByServerID. statement_capped. Qed.

Lemma capped_GetServer id : preserves keeps_capped (sqlc.GetServer id).
Proof. unfold sqlc.GetServer. statement_capped. Qed.

Lemma capped_ListServers st : preserves keeps_capped (sqlc.ListServers st).
Proof. unfold sqlc.ListServers. statement_capped. Qed.

Lemma capped_UpdateServerStatus st id :
  preserves keeps_capped (sqlc.UpdateServerStatus st id).
Proof. unfold sqlc.UpdateServerStatus. statement_capped. Qed.

Lemma capped_UpdateServerUptime n id :
  preserves keeps_capped (sqlc.UpdateServerUptime n id).
Proof. unfold sqlc.UpdateServerUptime. statement_capped. Qed.

Lemma capped_EnforceLifecycleLogsLimit id :
  preserves keeps_capped (sqlc.EnforceLifecycleLogsLimit id).
Proof.
  unfold sqlc.EnforceLifecycleLogsLimit.
  apply preserves_statement;
    [exact keeps_capped_trans | intros ?; apply capped_same_servers; reflexivity |].
  intros d. cbv zeta. cbn [snd]. apply capped_servers_updated. intros x Hx.
  destruct (Nat.ltb 100 (List.length (Server.LifecycleLogs x))); [|exact Hx].
  cbn [Server.LifecycleLogs Server.set_logs]. rewrite length_firstn. lia.
Qed.

Lemma capped_CreateNewServer arg : preserves keeps_capped (sqlc.CreateNewServer arg).
Proof.
  unfold sqlc.CreateNewServer.
  apply preserves_statement;
    [exact keeps_capped_trans | intros ?; apply capped_same_servers; reflexivity |].
  intros d. destruct (_ && _); cbn [snd]; [|apply keeps_capped_refl].
  intros C. unfold capped in *. cbn [servers bump_uuid with_servers].
  apply Forall_app. split; [exact C|]. constructor; [cbn; lia | constructor].
Qed.

(** A statement keeps the store in order when it keeps each of the three
    parts. *)
Lemma order_by_parts {A} (m : Go A) :
  preserves stays_healthy m -> preserves keeps_consistent m ->
  preserves keeps_capped m -> preserves keeps_order m.
Proof.
  intros H1 H2 H3 d (F & C & K).
  split; [now apply H1 | split; [now apply H2 | now apply H3]].
Qed.

Lemma order_GetAvailableIPForAllocation :
  preserves keeps_order sqlc.GetAvailableIPForAllocation.
Proof.
  apply order_by_parts;
    [statement_keeps | apply consistent_GetAvailableIPForAllocation
    | apply capped_GetAvailableIPForAllocation].
Qed.

Lemma order_AllocateIPAddress serverID id :
  preserves keeps_order (sqlc.AllocateIPAddress serverID id).
Proof.
  apply order_by_parts;
    [statement_keeps | apply consistent_AllocateIPAddress
    | apply capped_AllocateIPAddress].
Qed.

Lemma order_DeallocateIPAddress id :
  preserves keeps_order (sqlc.DeallocateIPAddress id).
Proof.
  apply order_by_parts;
    [statement_keeps | apply consistent_DeallocateIPAddress
    | apply capped_DeallocateIPAddress].
Qed.

Lemma order_GetIPAddressByServerID id :
  preserves keeps_order (sqlc.GetIPAddressByServerID id).
Proof.
  apply order_by_parts;
    [statement_keeps | apply consistent_GetIPAddressByServerID
    | apply capped_GetIPAddressByServerID].
Qed.

Lemma order_GetServer id : preserves keeps_order (sqlc.GetServer id).
Proof.
  apply order_by_parts;
    [statement_keeps | apply consistent_GetServer | apply capped_GetServer].
Qed.

Lemma order_ListServers st : preserves keeps_order (sqlc.ListServers st).
Proof.
  apply order_by_parts;
    [statement_keeps | apply consistent_ListServers | apply capped_ListServers].
Qed.

Lemma order_UpdateServerStatus st id :
  preserves keeps_order (sqlc.UpdateServerStatus st id).
Proof.
  apply order_by_parts;
    [statement_keeps | apply consistent_UpdateServerStatus
    | apply capped_UpdateServerStatus].
Qed.

Lemma order_UpdateServerUptime n id :
  preserves keeps_order (sqlc.UpdateServerUptime n id).
Proof.
  apply order_by_parts;
    [statement_keeps | apply consistent_UpdateServerUptime
    | apply capped_UpdateServerUptime].
Qed.

Lemma order_CreateNewServer arg : preserves keeps_order (sqlc.CreateNewServer arg).
Proof.
  apply order_by_parts;
    [statement_keeps | apply consistent_CreateNewServer | apply capped_CreateNewServer].
Qed.

Create HintDb order discriminated.
#[local] Hint Resolve order_GetAvailableIPForAllocation order_AllocateIPAddress
  order_DeallocateIPAddress order_GetIPAddressByServerID order_GetServer
  order_ListServers order_UpdateServerStatus order_UpdateServerUptime
  order_CreateNewServer : order.

Ltac order_tac := walk keeps_order_refl keeps_order_trans ltac:(auto with order).

(** The store a sequence leaves has what its first part leaves when that
    part does not return, and what the rest leaves otherwise. *)
Lemma snd_bind {A B} (m : Go A) (k : A -> Go B) (d : DB) (P : DB -> Prop) :
  P (snd (m d)) ->
  (forall a d', m d = (Returns a, d') -> P (snd (k a d'))) ->
  P (snd (bind m k d)).
Proof.
  intros H1 H2. unfold bind.
  destruct (m d) as [[a|msg|c] d']; cbn [snd] in *; auto.
Qed.

Lemma AppendServerLifecycleLog_healthy msg id db :
  faults db = [] ->
  sqlc.AppendServerLifecycleLog msg id db
  = (Returns (match row id db with
              | Some r => Ok (sqlc.jsonb_out (msg :: Server.LifecycleLogs r))
              | None => Err ErrNoRows
              end),
     with_servers
       (sqlc.update_where (sqlc.server_is id)
          (fun s => Server.set_logs (msg :: Server.LifecycleLogs s) s) (servers db))
       (received (QAppendServerLifecycleLog msg id) db)).
Proof.
  intros Hf. unfold sqlc.AppendServerLifecycleLog. rewrite statement_run, Hf.
  cbv beta zeta. cbn [fst snd servers received]. rewrite one_map_filter.
  unfold row. destruct (find (sqlc.server_is id) (servers db)); reflexivity.
Qed.

(** The primary key: the row found by id is the only row with that id. *)
Lemma unique_row id l r x :
  NoDup (map Server.ID l) -> find (sqlc.server_is id) l = Some r ->
  In x l -> Server.ID x = id -> x = r.
Proof.
  induction l as [|y l IH]; cbn [map find In]; [intros _ H; discriminate|].
  intros N F Hin Hx. inversion N as [|? ? Hy Nl]; subst.
  unfold sqlc.server_is in F at 1.
  destruct (N.eqb_spec (Server.ID y) (Server.ID x)) as [E|E].
  - inversion F; subst. destruct Hin as [H|H]; [now symmetry|].
    elim Hy. rewrite E. now apply in_map.
  - destruct Hin as [H|H]; [subst; congruence|]. now apply IH.
Qed.

Lemma no_row_no_hit id l :
  find (sqlc.server_is id) l = None ->
  Forall (fun x => sqlc.server_is id x = false) l.
Proof.
  intros F. apply Forall_forall. intros x Hx.
  destruct (sqlc.server_is id x) eqn:E; [|reflexivity].
  now rewrite (find_none _ _ F x Hx) in E.
Qed.

(** One append through the log helper keeps the cap: either the limit is
    enforced, or the text that came back has at most 100 bytes and so at
    most 50 entries. *)
Lemma capped_append_and_limit c id msg db :
  faults db = [] -> NoDup (map Server.ID (servers db)) -> capped db ->
  capped (snd (services.append_and_limit (Some c) id msg db)).
Proof.
  intros Hf Hn C. unfold services.append_and_limit. cbn [services.via].
  rewrite (bind_returns _ _ _ _ _ (AppendServerLifecycleLog_healthy msg id db Hf)).
  set (f1 := fun s => Server.set_logs (msg :: Server.LifecycleLogs s) s).
  set (db1 := with_servers _ _).
  assert (F1 : faults db1 = []) by (unfold db1; cbn; now rewrite Hf).
  destruct (row id db) as [r|] eqn:R.
  - destruct (Nat.ltb 100 (String.length (sqlc.jsonb_out (msg :: Server.LifecycleLogs r))))
      eqn:G.
    + rewrite (bind_returns _ _ _ _ _
                 (EnforceLifecycleLogsLimit_applied id db1 ltac:(now rewrite F1))).
      cbn [snd ret]. unfold capped in *. cbn [servers with_servers received db1].
      unfold sqlc.update_where. rewrite map_map. apply Forall_map.
      revert C. apply Forall_impl. intros x Hx.
      destruct (sqlc.server_is id x) eqn:P; [|now rewrite P].
      change (sqlc.server_is id (f1 x)) with (sqlc.server_is id x). rewrite P.
      destruct (Nat.ltb_spec 100 (List.length (Server.LifecycleLogs (f1 x)))) as [L|L];
        [|exact L].
      cbn [Server.LifecycleLogs Server.set_logs]. rewrite length_firstn. lia.
    + cbn [snd ret]. unfold capped in *. cbn [servers with_servers received db1].
      unfold sqlc.update_where. apply Forall_map.
      apply Forall_forall. intros x Hx. rewrite Forall_forall in C.
      destruct (sqlc.server_is id x) eqn:P; [|now apply C].
      apply N.eqb_eq in P.
      rewrite (unique_row id (servers db) r x Hn R Hx P).
      apply Nat.ltb_ge in G.
      pose proof (jsonb_out_length (msg :: Server.LifecycleLogs r)) as L.
      cbn [List.length] in L. cbn [f1 Server.LifecycleLogs Server.set_logs List.length].
      lia.
  - cbn [snd ret]. unfold capped in *. cbn [servers with_servers received db1].
    rewrite update_where_no_hit; [exact C | now apply no_row_no_hit].
Qed.

Lemma order_append_and_limit q id msg :
  preserves keeps_order (services.append_and_limit q id msg).
Proof.
  destruct q as [c|].
  - intros d (F & C & K). split; [|split].
    + now apply (append_stays_healthy (Some c) id msg d).
    + now apply (consistent_append_and_limit (Some c) id msg d).
    + apply capped_append_and_limit; auto. apply (server_ids_distinct _ C).
  - unfold services.append_and_limit. cbn [services.via]. intros d H. exact H.
Qed.

Lemma order_AppendServerLifecycleLogs s bd ctx id msg :
  preserves keeps_order (services.AppendServerLifecycleLogs s bd ctx id msg).
Proof.
  unfold services.AppendServerLifecycleLogs.
  destruct s as [s'|]; [|order_tac].
  destruct (services.queries s'); [apply order_append_and_limit|].
  destruct bd; [apply order_append_and_limit | order_tac].
Qed.
#[local] Hint Resolve order_append_and_limit order_AppendServerLifecycleLogs : order.

Lemma order_StartServer s ctx server :
  preserves keeps_order (services.StartServer s ctx server).
Proof. unfold services.StartServer. order_tac. Qed.

Lemma order_StopServer s ctx server :
  preserves keeps_order (services.StopServer s ctx server).
Proof. unfold services.StopServer. order_tac. Qed.

Lemma order_RebootServer s ctx server :
  preserves keeps_order (services.RebootServer s ctx server).
Proof. unfold services.RebootServer. order_tac. Qed.

Lemma order_TerminateServer s ctx server :
  preserves keeps_order (services.TerminateServer s ctx server).
Proof. unfold services.TerminateServer. order_tac. Qed.

Lemma order_billServer bd ctx server :
  preserves keeps_order (services.billServer bd ctx server).
Proof.
  unfold services.billServer, services.timeSince, services.reapIfIdle. order_tac.
Qed.

Lemma order_processBilling bd ctx :
  preserves keeps_order (services.processBilling bd ctx).
Proof.
  unfold services.processBilling.
  apply preserves_bind; [exact keeps_order_trans | order_tac | intros r].
  destruct r as [l|e]; [|order_tac].
  apply preserves_for_range;
    [exact keeps_order_refl | exact keeps_order_trans
    | intros x; apply order_billServer].
Qed.

Lemma order_AllocateIP ipa ctx : preserves keeps_order (services.AllocateIP ipa ctx).
Proof. unfold services.AllocateIP. order_tac. Qed.

Lemma order_saveAllocatedIP ipa ctx sid id :
  preserves keeps_order (services.saveAllocatedIP ipa ctx sid id).
Proof. unfold services.saveAllocatedIP. order_tac. Qed.

Lemma saveAllocatedIP_keeps_servers ipa ctx sid id :
  preserves same_servers (services.saveAllocatedIP ipa ctx sid id).
Proof. unfold services.saveAllocatedIP. keeps_tac. Qed.

(** The entry of a new server is written without the limit: it goes to a
    log that is empty. *)
Lemma order_direct_append msg id db :
  in_order db ->
  (forall x, In x (servers db) -> Server.ID x = id ->
             (List.length (Server.LifecycleLogs x) < 100)%nat) ->
  in_order (snd (sqlc.AppendServerLifecycleLog msg id db)).
Proof.
  intros (F & C & K) Hx. split; [|split].
  - assert (H : preserves stays_healthy (sqlc.AppendServerLifecycleLog msg id))
      by statement_keeps.
    now apply H.
  - now apply (consistent_AppendServerLifecycleLog msg id db).
  - rewrite (AppendServerLifecycleLog_healthy msg id db F). cbn [snd].
    unfold capped in *. cbn [servers with_servers received].
    unfold sqlc.update_where. apply Forall_map.
    apply Forall_forall. intros x Hin. rewrite Forall_forall in K.
    destruct (sqlc.server_is id x) eqn:P; [|now apply K].
    apply N.eqb_eq in P. specialize (Hx x Hin P).
    cbn [Server.LifecycleLogs Server.set_logs List.length]. lia.
Qed.

Lemma order_ProvisionNewServer s ctx name region serverType :
  preserves keeps_order (services.ProvisionNewServer s ctx name region serverType).
Proof.
  intros d Hd. unfold services.ProvisionNewServer.
  apply snd_bind; [now apply order_AllocateIP|].
  intros r d1 E1.
  assert (Hd1 : in_order d1).
  { pose proof (order_AllocateIP (services.ipAllocator s) ctx d Hd) as H.
    now rewrite E1 in H. }
  destruct r as [ip|e]; [|exact Hd1].
  assert (Hc : preserves keeps_order
                 (services.via (services.queries s)
                    (sqlc.CreateNewServer
                       (services.createServerParams s name region serverType ip))))
    by order_tac.
  apply snd_bind; [now apply Hc|].
  intros r2 d2 E2.
  assert (Hd2 : in_order d2).
  { pose proof (Hc d1 Hd1) as H. now rewrite E2 in H. }
  destruct r2 as [server|e]; [|exact Hd2].
  destruct (services.queries s) as [c|] eqn:Hq; [|discriminate E2].
  cbn [services.via] in *.
  destruct (CreateNewServer_ok _ _ _ _ E2) as (Es & S2 & _).
  apply snd_bind; [now apply order_saveAllocatedIP|].
  intros r3 d3 E3.
  assert (Hd3 : in_order d3).
  { pose proof (order_saveAllocatedIP (services.ipAllocator s) ctx (Server.ID server)
                  (IpAddress.ID ip) d2 Hd2) as H.
    now rewrite E3 in H. }
  assert (S3 : servers d3 = servers d2).
  { pose proof (saveAllocatedIP_keeps_servers (services.ipAllocator s) ctx
                  (Server.ID server) (IpAddress.ID ip) d2) as H.
    red in H. now rewrite E3 in H. }
  rewrite bind_timeNow.
  assert (Hd4 : in_order
                  (snd (sqlc.AppendServerLifecycleLog
                          (services.lifecycle_message ctx
                             "Server provisioned successfully" (Server.ID server)
                             (now d3)) (Server.ID server) d3))).
  { apply order_direct_append; [exact Hd3|].
    intros x Hin Hx. rewrite S3, S2 in Hin. apply in_app_or in Hin.
    destruct Hin as [Hin|[<-|[]]].
    - destruct Hd1 as (_ & C1 & _).
      pose proof (server_ids_drawn _ C1) as D. rewrite Forall_forall in D.
      specialize (D x Hin). rewrite Hx, Es in D. cbn [Server.ID] in D. lia.
    - rewrite Es. cbn. lia. }
  apply snd_bind; [exact Hd4|].
  intros r4 d4 E4. rewrite E4 in Hd4. exact Hd4.
Qed.

Lemma order_at_time t d : keeps_order d (at_time t d).
Proof.
  intros (F & C & K). split; [exact F|]. split; [|exact K].
  revert C. apply consistent_by_ids; reflexivity.
Qed.

Lemma order_after s o d : keeps_order d (after s o d).
Proof.
  destruct o; cbn [after];
    [ apply order_ProvisionNewServer | apply order_StartServer
    | apply order_StopServer | apply order_RebootServer
    | apply order_TerminateServer | apply order_processBilling
    | apply order_at_time ].
Qed.

Lemma order_after_all s ops : forall d, keeps_order d (after_all s ops d).
Proof.
  unfold after_all. induction ops as [|o ops IH]; intros d H; cbn [fold_left];
    [exact H|].
  apply IH. now apply order_after.
Qed.

Lemma consistent_at_time t d : keeps_consistent d (at_time t d).
Proof. apply consistent_by_ids; reflexivity. Qed.

Lemma consistent_after s o d : keeps_consistent d (after s o d).
Proof.
  destruct o; cbn [after];
    [ apply consistent_ProvisionNewServer | apply consistent_StartServer
    | apply consistent_StopServer | apply consistent_RebootServer
    | apply consistent_TerminateServer | apply consistent_processBilling
    | apply consistent_at_time ].
Qed.

Lemma consistent_after_all s ops : forall d, keeps_consistent d (after_all s ops d).
Proof.
  unfold after_all. induction ops as [|o ops IH]; intros d H; cbn [fold_left];
    [exact H|].
  apply IH. now apply consistent_after.
Qed.

(** X17.  The constraints of the schema are an invariant of the code,
    whatever the environment does to the statements: primary keys and
    address texts stay distinct, no server ever owns two addresses, every
    owner is a server of the table, and the allocation flag is set exactly
    on the rows that have an owner.  They hold after any sequence of
    requests and ticks, after the reset that opens the service, and after
    each of the two handlers that write. *)
Theorem constraints_hold_after_every_operation
    (s : services.ServerService) (ipa : services.IPAllocator) (a : api.ServerAPI)
    (ctx : services.Context) (db : DB) :
  consistent db ->
  (forall ops : list operation, consistent (after_all s ops db))
  /\ (forall cidr exclusionList,
        consistent (snd (pool.TerminateAllServers ipa ctx cidr exclusionList db)))
  /\ (forall body, consistent (snd (api.ProvisionServer a ctx body db)))
  /\ (forall body serverUUID,
        consistent (snd (api.PerformServerAction a ctx body serverUUID db))).
Proof.
  intros C. split; [|split; [|split]].
  - intros ops. now apply consistent_after_all.
  - intros cidr exclusionList. now apply consistent_pool_TerminateAllServers.
  - intros body. now apply consistent_api_ProvisionServer.
  - intros body serverUUID. now apply consistent_api_PerformServerAction.
Qed.

Lemma store_bound_consistent : consistent store_bound.
Proof.
  constructor; cbn; repeat constructor; try lia; try (intros []); auto.
Qed.

Lemma constraints_hold_after_every_operation_witness :
  consistent (after_all service
                [Terminate "req-16" srv7; Elapse 9;
                 Provision "req-17" "web2" "eu" "m5.large"] store_bound)
  /\ consistent (snd (pool.TerminateAllServers allocator "" "10.0.0.0/30" []
                        store_bound)).
Proof.
  destruct (constraints_hold_after_every_operation service allocator handlers ""
              store_bound store_bound_consistent) as (H1 & H2 & _).
  split; [apply H1 | apply H2].
Defined.


Lemma store_full_log_in_order : consistent store_full_log /\ capped store_full_log.
Proof.
  split.
  - constructor; cbn; repeat constructor; try lia; intros [].
  - unfold capped, store_full_log, store_of, srv_full_log, a_server.
    cbn [servers]. constructor; [|constructor].
    cbn [Server.LifecycleLogs]. rewrite repeat_length. lia.
Qed.



(** ** An address from the pool to a server and back *)

(** The statements of a provisioning request and of a termination, on a
    store where the environment fails nothing. *)
Lemma GetAvailableIPForAllocation_healthy db :
  faults db = [] ->
  sqlc.GetAvailableIPForAllocation db
  = (Returns (match sqlc.earliest (filter IpAddress.free (ip_addresses db)) with
              | Some r => Ok r
              | None => Err ErrNoRows
              end), received QGetAvailableIPForAllocation db).
Proof.
  intros Hf. unfold sqlc.GetAvailableIPForAllocation. rewrite statement_run, Hf.
  cbn [ip_addresses received].
  destruct (sqlc.earliest (filter IpAddress.free (ip_addresses db))); reflexivity.
Qed.

Lemma CreateNewServer_healthy arg db :
  faults db = [] ->
  fits 255 (sqlc.p_Name arg) && fits 100 (sqlc.p_Region arg)
  && fits 15 (sqlc.p_Status arg) && fits 10 (sqlc.p_Type arg)
  && fits 15 (sqlc.p_Address arg) = true ->
  let row := Server.mk (next_uuid db) (sqlc.p_Name arg) (sqlc.p_Region arg)
               (sqlc.p_Status arg) (sqlc.p_Address arg) (sqlc.p_Type arg)
               (now db) (now db) 0%Z (sqlc.p_HourlyCost arg) [] (now db) (now db) in
  sqlc.CreateNewServer arg db
  = (Returns (Ok row),
     bump_uuid (with_servers (servers db ++ [row])%list
                  (received (QCreateNewServer (sqlc.p_Name arg) (sqlc.p_Region arg)
                               (sqlc.p_Status arg) (sqlc.p_Type arg)
                               (sqlc.p_Address arg)) db))).
Proof.
  intros Hf Hfit row. unfold sqlc.CreateNewServer. rewrite statement_run, Hf.
  cbv zeta. rewrite Hfit. reflexivity.
Qed.

Lemma GetIPAddressByServerID_healthy id db :
  faults db = [] ->
  sqlc.GetIPAddressByServerID id db
  = (Returns (sqlc.one (filter (sqlc.owned_by id) (ip_addresses db))),
     received (QGetIPAddressByServerID id) db).
Proof.
  intros Hf. unfold sqlc.GetIPAddressByServerID. now rewrite statement_run, Hf.
Qed.

Lemma DeallocateIPAddress_healthy id db :
  faults db = [] ->
  sqlc.DeallocateIPAddress id db
  = (Returns (sqlc.one (map (IpAddress.set_owner false None (now db))
                          (filter (sqlc.ip_is id) (ip_addresses db)))),
     with_ips (sqlc.update_where (sqlc.ip_is id)
                 (IpAddress.set_owner false None (now db)) (ip_addresses db))
              (received (QDeallocateIPAddress id) db)).
Proof.
  intros Hf. unfold sqlc.DeallocateIPAddress. now rewrite statement_run, Hf.
Qed.

(** The primary key of the address table. *)
Lemma unique_address l a b :
  NoDup (map IpAddress.ID l) -> In a l -> In b l ->
  IpAddress.ID a = IpAddress.ID b -> a = b.
Proof.
  induction l as [|x l IH]; cbn [map In]; [intros _ []|].
  intros N Ha Hb E. inversion N as [|? ? Hx Nl]; subst.
  destruct Ha as [<-|Ha], Hb as [<-|Hb]; auto.
  - elim Hx. rewrite E. now apply in_map.
  - elim Hx. rewrite <- E. now apply in_map.
Qed.

(** On a table with distinct ids, the rows a binding touches are the rows
    with the id of the selected address. *)
Lemma bind_by_id l ip f :
  NoDup (map IpAddress.ID l) -> In ip l -> IpAddress.free ip = true ->
  sqlc.update_where (fun a => sqlc.ip_is (IpAddress.ID ip) a && IpAddress.free a) f l
  = sqlc.update_where (sqlc.ip_is (IpAddress.ID ip)) f l.
Proof.
  intros N Hin Hfree. unfold sqlc.update_where. apply map_ext_in. intros a Ha.
  destruct (sqlc.ip_is (IpAddress.ID ip) a) eqn:E; [|reflexivity].
  apply N.eqb_eq in E. rewrite (unique_address l a ip N Ha Hin E), Hfree. reflexivity.
Qed.

Lemma AllocateIPAddress_healthy serverID ip db :
  faults db = [] ->
  NoDup (map IpAddress.ID (ip_addresses db)) ->
  In ip (ip_addresses db) -> IpAddress.free ip = true ->
  existsb (sqlc.server_is serverID) (servers db) = true ->
  existsb (sqlc.owned_by serverID) (ip_addresses db) = false ->
  exists r,
    sqlc.AllocateIPAddress serverID (IpAddress.ID ip) db
    = (Returns (Ok r),
       with_ips (sqlc.update_where (sqlc.ip_is (IpAddress.ID ip))
                   (IpAddress.set_owner true (Some serverID) (now db))
                   (ip_addresses db))
                (received (QAllocateIPAddress serverID (IpAddress.ID ip)) db)).
Proof.
  intros Hf N Hin Hfree Hs Ho. unfold sqlc.AllocateIPAddress.
  rewrite statement_run, Hf. cbv zeta. cbn [servers ip_addresses received now].
  assert (Hit : In ip (filter (fun a => sqlc.ip_is (IpAddress.ID ip) a && IpAddress.free a)
                         (ip_addresses db))).
  { apply filter_In. split; [exact Hin|]. unfold sqlc.ip_is.
    now rewrite N.eqb_refl, Hfree. }
  destruct (filter (fun a => sqlc.ip_is (IpAddress.ID ip) a && IpAddress.free a)
              (ip_addresses db)) as [|x rest] eqn:F; [contradiction|].
  rewrite Hs, Ho. cbn [negb map sqlc.one].
  rewrite (bind_by_id _ ip _ N Hin Hfree). eexists. reflexivity.
Qed.

Lemma fresh_owner sid l :
  Forall (fun o => o <> sid) (owners l) -> existsb (sqlc.owned_by sid) l = false.
Proof.
  induction l as [|x l IH]; [reflexivity|].
  rewrite owners_cons. intros H. apply Forall_app in H. destruct H as [Hx Hl].
  cbn [existsb]. rewrite (IH Hl), orb_false_r.
  unfold sqlc.owned_by. destruct (IpAddress.ServerID x) as [o|]; [|reflexivity].
  inversion Hx; subst. now apply N.eqb_neq.
Qed.

Lemma find_new_row id l r :
  Forall (fun x => (Server.ID x < id)%N) l -> Server.ID r = id ->
  find (sqlc.server_is id) (l ++ [r]) = Some r.
Proof.
  intros H E. induction H as [|x l Hx Hl IH]; cbn [app find].
  - unfold sqlc.server_is. rewrite E, N.eqb_refl. reflexivity.
  - unfold sqlc.server_is at 1. destruct (N.eqb_spec (Server.ID x) id); [lia | exact IH].
Qed.

(** A provisioning request on a store in order, with an address to give
    and values that fit their columns: the four statements go through. *)
Lemma ProvisionNewServer_healthy s ctx name region serverType db ip :
  wired s -> faults db = [] -> consistent db ->
  sqlc.earliest (filter IpAddress.free (ip_addresses db)) = Some ip ->
  fits 255 (name ++ "_" ++ IpAddress.Address ip) && fits 100 region
  && fits 15 util.ServerStatusProvisioning && fits 10 serverType
  && fits 15 (IpAddress.Address ip) = true ->
  let server :=
    Server.mk (next_uuid db) (name ++ "_" ++ IpAddress.Address ip) region
      util.ServerStatusProvisioning (IpAddress.Address ip) serverType
      (now db) (now db) 0%Z (services.hourlyConst s serverType) [] (now db) (now db) in
  exists db',
    services.ProvisionNewServer s ctx name region serverType db
    = (Returns (Ok server), db')
    /\ ip_addresses db'
       = sqlc.update_where (sqlc.ip_is (IpAddress.ID ip))
           (IpAddress.set_owner true (Some (next_uuid db)) (now db)) (ip_addresses db)
    /\ row (next_uuid db) db'
       = Some (Server.set_logs
                 [services.lifecycle_message ctx "Server provisioned successfully"
                    (next_uuid db) (now db)] server)
    /\ faults db' = [] /\ now db' = now db.
Proof.
  intros [Hq Ha] Hf C Hsel Hfit server.
  assert (Hin : In ip (ip_addresses db) /\ IpAddress.free ip = true).
  { apply earliest_in in Hsel. now apply filter_In in Hsel. }
  destruct Hin as [Hin Hfree].
  unfold services.ProvisionNewServer.
  pose proof (GetAvailableIPForAllocation_healthy db Hf) as E1. rewrite Hsel in E1.
  rewrite <- (AllocateIP_is_the_selection _ ctx db Ha) in E1.
  rewrite (bind_returns _ _ _ _ _ E1), Hq. cbn [services.via].
  set (db1 := received QGetAvailableIPForAllocation db).
  assert (F1 : faults db1 = []) by (unfold db1; cbn; now rewrite Hf).
  pose proof (CreateNewServer_healthy
                (services.createServerParams s name region serverType ip) db1 F1 Hfit)
    as E2. cbv zeta in E2.
  rewrite (bind_returns _ _ _ _ _ E2).
  change (Server.mk (next_uuid db1) _ _ _ _ _ _ _ _ _ _ _ _) with server in *.
  set (db2 := bump_uuid _) in *.
  assert (F2 : faults db2 = []) by (unfold db2, db1; cbn; now rewrite Hf).
  assert (S2 : servers db2 = (servers db ++ [server])%list) by reflexivity.
  assert (I2 : ip_addresses db2 = ip_addresses db) by reflexivity.
  destruct (AllocateIPAddress_healthy (Server.ID server) ip db2 F2) as (r3 & E3).
  { rewrite I2. apply (ip_ids_distinct _ C). }
  { now rewrite I2. }
  { exact Hfree. }
  { rewrite S2, existsb_app. cbn [existsb]. unfold sqlc.server_is.
    rewrite N.eqb_refl. now rewrite orb_true_r. }
  { rewrite I2. apply fresh_owner.
    pose proof (owners_are_servers _ C) as O. pose proof (server_ids_drawn _ C) as D.
    revert O. apply Forall_impl. intros o Ho. apply in_map_iff in Ho.
    destruct Ho as (x & <- & Hx). rewrite Forall_forall in D. specialize (D x Hx).
    cbn [server Server.ID]. lia. }
  rewrite (bind_returns _ _ _ _ _ (saveAllocatedIP_run _ ctx _ _ _ _ _ Ha E3)).
  rewrite bind_timeNow.
  set (db3 := with_ips _ _) in *.
  assert (F3 : faults db3 = []) by (unfold db3, db2, db1; cbn; now rewrite Hf).
  rewrite (bind_returns _ _ _ _ _
             (AppendServerLifecycleLog_healthy _ (Server.ID server) db3 F3)).
  eexists. split; [reflexivity|]. cbn [ip_addresses with_servers received db3 with_ips].
  rewrite I2. split; [reflexivity|]. split; [|split; [unfold db2, db1; cbn; now rewrite Hf | reflexivity]].
  unfold row. cbn [servers with_servers received db3 with_ips]. rewrite S2.
  change (Server.ID server) with (next_uuid db).
  rewrite find_update_where; [|reflexivity].
  rewrite (find_new_row (next_uuid db) (servers db) server (server_ids_drawn _ C) eq_refl).
  reflexivity.
Qed.

(** A termination on a store where the environment fails nothing, for a
    server that is stored and owns an address: the five steps go through. *)
Lemma TerminateServer_healthy s ctx server db r ip :
  services.queries s = Some services.Conn -> faults db = [] ->
  row (Server.ID server) db = Some r ->
  util.IsValidTransition (Server.Status server) util.ServerStatusTerminated = true ->
  find (sqlc.owned_by (Server.ID server)) (ip_addresses db) = Some ip ->
  exists u db',
    services.TerminateServer s ctx server db = (Returns (Ok u), db')
    /\ Server.Status u = util.ServerStatusTerminated
    /\ row (Server.ID server) db' = Some u
    /\ ip_addresses db'
       = sqlc.update_where (sqlc.ip_is (IpAddress.ID ip))
           (IpAddress.set_owner false None (now db)) (ip_addresses db)
    /\ faults db' = [].
Proof.
  intros Hq Hf Hr Hv Ho.
  set (id := Server.ID server) in *.
  pose proof (UpdateServerStatus_applied util.ServerStatusTerminated id db r
                ltac:(now rewrite Hf) Hr eq_refl) as E1.
  set (db1 := with_servers _ _) in E1.
  assert (F1 : faults db1 = []) by (unfold db1; cbn; now rewrite Hf).
  assert (R1 : row id db1 = Some (Server.set_status util.ServerStatusTerminated (now db) r)).
  { unfold row, db1. cbn [servers with_servers]. now apply row_after_status_update. }
  pose proof (GetIPAddressByServerID_healthy id db1 F1) as E2.
  change (ip_addresses db1) with (ip_addresses db) in E2.
  rewrite one_filter, Ho in E2.
  set (db2 := received _ db1) in E2.
  assert (F2 : faults db2 = []) by (unfold db2, db1; cbn; now rewrite Hf).
  pose proof (DeallocateIPAddress_healthy (IpAddress.ID ip) db2 F2) as E3.
  change (ip_addresses db2) with (ip_addresses db) in E3.
  change (now db2) with (now db) in E3.
  rewrite one_map_filter in E3.
  assert (Hin : In ip (ip_addresses db)) by (apply find_some in Ho; tauto).
  destruct (find (sqlc.ip_is (IpAddress.ID ip)) (ip_addresses db)) as [x|] eqn:Fx.
  2:{ pose proof (find_none _ _ Fx ip Hin) as N. unfold sqlc.ip_is in N.
      now rewrite N.eqb_refl in N. }
  set (db3 := with_ips _ _) in E3.
  assert (F3 : faults db3 = []) by (unfold db3, db2, db1; cbn; now rewrite Hf).
  assert (R3 : row id db3 = Some (Server.set_status util.ServerStatusTerminated (now db) r))
    by exact R1.
  rewrite (TerminateServer_released s ctx server Hq Hv db _ _ _ _ _ _ E1 E2 E3).
  fold id.
  set (msg := services.lifecycle_message ctx "Server terminated" id (now db3)).
  destruct (row_survives_append services.Conn id msg db3 _ R3) as (u & Ru & Su).
  pose proof (append_stays_healthy (Some services.Conn) id msg db3 F3) as F4.
  pose proof (append_keeps_ips (Some services.Conn) id msg db3) as I4. red in I4.
  set (db4 := snd (services.append_and_limit (Some services.Conn) id msg db3)) in *.
  destruct (GetServer_run id db4) as (x4 & E4 & H4 & _).
  rewrite E4. rewrite (H4 ltac:(now rewrite F4)), Ru.
  exists u. eexists. split; [reflexivity|].
  split; [exact Su|]. split; [exact Ru|].
  split; [|cbn; now rewrite F4].
  cbn [ip_addresses received]. rewrite I4. reflexivity.
Qed.

(** Binding an address and releasing it gives every row of the table its
    id, text, flag and owner back. *)
Lemma bind_then_release l ip sid t1 t2 :
  NoDup (map IpAddress.ID l) -> In ip l -> IpAddress.free ip = true ->
  map binding
    (sqlc.update_where (sqlc.ip_is (IpAddress.ID ip))
       (IpAddress.set_owner false None t2)
       (sqlc.update_where (sqlc.ip_is (IpAddress.ID ip))
          (IpAddress.set_owner true (Some sid) t1) l))
  = map binding l.
Proof.
  intros N Hin Hfree. unfold sqlc.update_where. rewrite !map_map.
  apply map_ext_in. intros a Ha.
  destruct (sqlc.ip_is (IpAddress.ID ip) a) eqn:E.
  - change (sqlc.ip_is (IpAddress.ID ip)
              (IpAddress.set_owner true (Some sid) t1 a))
      with (sqlc.ip_is (IpAddress.ID ip) a).
    rewrite E. apply N.eqb_eq in E.
    rewrite (unique_address l a ip N Ha Hin E).
    unfold IpAddress.free in Hfree. apply andb_true_iff in Hfree.
    destruct Hfree as [H1 H2]. unfold binding. cbn.
    destruct (IpAddress.IsAllocated ip); [discriminate|].
    destruct (IpAddress.ServerID ip); [discriminate | reflexivity].
  - now rewrite E.
Qed.

(** The row a server owns after the binding of a fresh owner. *)
Lemma find_bound_row l ip sid t :
  In ip l -> existsb (sqlc.owned_by sid) l = false ->
  NoDup (map IpAddress.ID l) ->
  find (sqlc.owned_by sid)
       (sqlc.update_where (sqlc.ip_is (IpAddress.ID ip))
          (IpAddress.set_owner true (Some sid) t) l)
  = Some (IpAddress.set_owner true (Some sid) t ip).
Proof.
  induction l as [|x l IH]; [intros []|].
  rewrite update_where_cons. cbn [existsb find In map].
  intros Hin Ho N. apply orb_false_iff in Ho. destruct Ho as [Hx Hl].
  inversion N as [|? ? Nx Nl]; subst.
  destruct (sqlc.ip_is (IpAddress.ID ip) x) eqn:E.
  - apply N.eqb_eq in E.
    assert (x = ip).
    { destruct Hin as [H|H]; [exact H|]. elim Nx. rewrite E. now apply in_map. }
    subst x. unfold sqlc.owned_by at 1. cbn. now rewrite N.eqb_refl.
  - rewrite Hx. destruct Hin as [H|H]; [|now apply IH].
    subst x. unfold sqlc.ip_is in E. now rewrite N.eqb_refl in E.
Qed.

(** X19.  A provisioning request on a healthy store that satisfies the
    constraints of the schema, with a free address in the pool and values
    that fit their columns, succeeds: it returns a server under a fresh id,
    in status provisioning and carrying the text of the earliest free
    address; the server is stored, the row of that address is now the one
    the server owns, and every other row of the address table is as it
    was. *)
Theorem provision_binds_the_earliest_free_address
    (s : services.ServerService) (ctx : services.Context)
    (name region serverType : string) (db : DB) (ip : IpAddress.t) :
  wired s -> faults db = [] -> consistent db ->
  sqlc.earliest (filter IpAddress.free (ip_addresses db)) = Some ip ->
  fits 255 (name ++ "_" ++ IpAddress.Address ip) && fits 100 region
  && fits 15 util.ServerStatusProvisioning && fits 10 serverType
  && fits 15 (IpAddress.Address ip) = true ->
  exists server db',
    services.ProvisionNewServer s ctx name region serverType db
    = (Returns (Ok server), db')
    /\ ~ In (Server.ID server) (map Server.ID (servers db))
    /\ Server.Status server = util.ServerStatusProvisioning
    /\ Server.Address server = IpAddress.Address ip
    /\ option_map Server.Status (row (Server.ID server) db')
       = Some util.ServerStatusProvisioning
    /\ find (sqlc.owned_by (Server.ID server)) (ip_addresses db')
       = Some (IpAddress.set_owner true (Some (Server.ID server)) (now db) ip)
    /\ (forall a, In a (ip_addresses db) -> IpAddress.ID a <> IpAddress.ID ip ->
                  In a (ip_addresses db')).
Proof.
  intros W Hf C Hsel Hfit.
  destruct (ProvisionNewServer_healthy s ctx name region serverType db ip W Hf C Hsel Hfit)
    as (db' & E & I & R & _).
  assert (Hin : In ip (ip_addresses db) /\ IpAddress.free ip = true).
  { apply earliest_in in Hsel. now apply filter_In in Hsel. }
  eexists. exists db'. split; [exact E|]. cbn [Server.ID Server.Status Server.Address].
  split; [apply fresh_id, (server_ids_drawn _ C)|].
  split; [reflexivity|]. split; [reflexivity|].
  split; [rewrite R; reflexivity|]. rewrite I. split.
  - apply find_bound_row; [tauto | | apply (ip_ids_distinct _ C)].
    apply fresh_owner.
    pose proof (owners_are_servers _ C) as O. pose proof (server_ids_drawn _ C) as D.
    revert O. apply Forall_impl. intros o Ho. apply in_map_iff in Ho.
    destruct Ho as (x & <- & Hx). rewrite Forall_forall in D. specialize (D x Hx). lia.
  - intros a Ha Hne. unfold sqlc.update_where. apply in_map_iff. exists a.
    split; [|exact Ha]. unfold sqlc.ip_is.
    destruct (N.eqb_spec (IpAddress.ID a) (IpAddress.ID ip)); [contradiction | reflexivity].
Qed.

Lemma store_one_free_consistent : consistent store_one_free.
Proof.
  constructor; cbn; repeat constructor; try lia; try (intros []); auto.
Qed.

Lemma provision_binds_the_earliest_free_address_witness :
  exists server db',
    services.ProvisionNewServer service "req-18" "web1" "us-east-1" "t2.micro"
      store_one_free = (Returns (Ok server), db')
    /\ Server.Address server = "10.0.0.1"
    /\ find (sqlc.owned_by (Server.ID server)) (ip_addresses db')
       = Some (IpAddress.set_owner true (Some (Server.ID server)) 5
                 (an_address 3 "10.0.0.1" None)).
Proof.
  assert (H1 : wired service) by (split; reflexivity).
  assert (H2 : faults store_one_free = []) by reflexivity.
  assert (H3 : sqlc.earliest (filter IpAddress.free (ip_addresses store_one_free))
               = Some (an_address 3 "10.0.0.1" None)) by reflexivity.
  assert (H4 : fits 255 ("web1" ++ "_" ++ IpAddress.Address (an_address 3 "10.0.0.1" None))
               && fits 100 "us-east-1" && fits 15 util.ServerStatusProvisioning
               && fits 10 "t2.micro"
               && fits 15 (IpAddress.Address (an_address 3 "10.0.0.1" None)) = true)
    by reflexivity.
  destruct (provision_binds_the_earliest_free_address service "req-18" "web1"
              "us-east-1" "t2.micro" store_one_free (an_address 3 "10.0.0.1" None)
              H1 H2 store_one_free_consistent H3 H4)
    as (server & db' & E & _ & _ & A & _ & O & _).
  exists server, db'. split; [exact E|]. split; [exact A | exact O].
Defined.

(** X20.  Termination on a healthy store, for a stored server that is not
    terminated and owns an address: the request returns the stored row,
    now terminated, and the address is free again; the address table
    differs from the one before only in the rows with the id of that
    address, whose flag and owner are cleared. *)
Theorem terminate_frees_the_owned_address
    (s : services.ServerService) (ctx : services.Context) (server : Server.t)
    (db : DB) (r : Server.t) (ip : IpAddress.t) :
  services.queries s = Some services.Conn -> faults db = [] ->
  row (Server.ID server) db = Some r ->
  util.IsValidTransition (Server.Status server) util.ServerStatusTerminated = true ->
  find (sqlc.owned_by (Server.ID server)) (ip_addresses db) = Some ip ->
  exists u db',
    services.TerminateServer s ctx server db = (Returns (Ok u), db')
    /\ Server.Status u = util.ServerStatusTerminated
    /\ row (Server.ID server) db' = Some u
    /\ ip_addresses db'
       = sqlc.update_where (sqlc.ip_is (IpAddress.ID ip))
           (IpAddress.set_owner false None (now db)) (ip_addresses db)
    /\ option_map IpAddress.free
         (find (sqlc.ip_is (IpAddress.ID ip)) (ip_addresses db')) = Some true.
Proof.
  intros Hq Hf Hr Hv Ho.
  destruct (TerminateServer_healthy s ctx server db r ip Hq Hf Hr Hv Ho)
    as (u & db' & E & S & R & I & _).
  exists u, db'. split; [exact E|]. split; [exact S|]. split; [exact R|].
  split; [exact I|]. rewrite I.
  rewrite find_update_where; [|reflexivity].
  assert (Hin : In ip (ip_addresses db)) by (apply find_some in Ho; tauto).
  destruct (find (sqlc.ip_is (IpAddress.ID ip)) (ip_addresses db)) as [x|] eqn:Fx;
    [reflexivity|].
  pose proof (find_none _ _ Fx ip Hin) as N. unfold sqlc.ip_is in N.
  now rewrite N.eqb_refl in N.
Qed.

Lemma terminate_frees_the_owned_address_witness :
  exists u db',
    services.TerminateServer service "req-19" srv7 store_bound = (Returns (Ok u), db')
    /\ Server.Status u = "terminated"
    /\ option_map IpAddress.free (find (sqlc.ip_is 3) (ip_addresses db')) = Some true.
Proof.
  assert (H1 : services.queries service = Some services.Conn) by reflexivity.
  assert (H2 : faults store_bound = []) by reflexivity.
  assert (H3 : row (Server.ID srv7) store_bound = Some srv7) by reflexivity.
  assert (H4 : util.IsValidTransition (Server.Status srv7) util.ServerStatusTerminated
               = true) by reflexivity.
  assert (H5 : find (sqlc.owned_by (Server.ID srv7)) (ip_addresses store_bound)
               = Some addr3) by reflexivity.
  destruct (terminate_frees_the_owned_address service "req-19" srv7 store_bound srv7
              addr3 H1 H2 H3 H4 H5) as (u & db' & E & S & _ & _ & F).
  exists u, db'. split; [exact E|]. split; [exact S | exact F].
Defined.

(** X21.  An address goes from the pool to a server and back.  On a
    healthy store that satisfies the constraints of the schema, a
    provisioning request that finds a free address, followed at any later
    instant by the termination of the server it returned, leaves every row
    of the address table with the id, text, flag and owner it had before
    the two requests: the address is free for the next server. *)
Theorem provision_then_terminate_restores_the_pool
    (s : services.ServerService) (ctx ctx' : services.Context)
    (name region serverType : string) (db : DB) (ip : IpAddress.t) (t : Time) :
  wired s -> faults db = [] -> consistent db ->
  sqlc.earliest (filter IpAddress.free (ip_addresses db)) = Some ip ->
  fits 255 (name ++ "_" ++ IpAddress.Address ip) && fits 100 region
  && fits 15 util.ServerStatusProvisioning && fits 10 serverType
  && fits 15 (IpAddress.Address ip) = true ->
  exists server db1 u db2,
    services.ProvisionNewServer s ctx name region serverType db
    = (Returns (Ok server), db1)
    /\ services.TerminateServer s ctx' server (at_time t db1) = (Returns (Ok u), db2)
    /\ Server.Status u = util.ServerStatusTerminated
    /\ map binding (ip_addresses db2) = map binding (ip_addresses db)
    /\ In ip (ip_addresses db) /\ IpAddress.free ip = true.
Proof.
  intros W Hf C Hsel Hfit.
  destruct (ProvisionNewServer_healthy s ctx name region serverType db ip W Hf C Hsel Hfit)
    as (db1 & E & I & R & F1 & _).
  assert (Hin : In ip (ip_addresses db) /\ IpAddress.free ip = true).
  { apply earliest_in in Hsel. now apply filter_In in Hsel. }
  destruct Hin as [Hin Hfree].
  set (server := Server.mk _ _ _ _ _ _ _ _ _ _ _ _ _) in *.
  assert (O : find (sqlc.owned_by (Server.ID server)) (ip_addresses (at_time t db1))
              = Some (IpAddress.set_owner true (Some (next_uuid db)) (now db) ip)).
  { cbn [ip_addresses at_time]. rewrite I.
    apply find_bound_row; [exact Hin | | apply (ip_ids_distinct _ C)].
    apply fresh_owner.
    pose proof (owners_are_servers _ C) as O. pose proof (server_ids_drawn _ C) as D.
    revert O. apply Forall_impl. intros o Ho. apply in_map_iff in Ho.
    destruct Ho as (x & <- & Hx). rewrite Forall_forall in D. specialize (D x Hx).
    cbn [server Server.ID]. lia. }
  destruct W as [Hq _].
  destruct (TerminateServer_healthy s ctx' server (at_time t db1) _ _ Hq F1 R eq_refl O)
    as (u & db2 & E2 & S2 & _ & I2 & _).
  exists server, db1, u, db2. split; [exact E|]. split; [exact E2|].
  split; [exact S2|]. split; [|split; assumption].
  rewrite I2. cbn [ip_addresses at_time IpAddress.ID IpAddress.set_owner]. rewrite I.
  apply bind_then_release; [apply (ip_ids_distinct _ C) | exact Hin | exact Hfree].
Qed.

Lemma provision_then_terminate_restores_the_pool_witness :
  exists server db1 u db2,
    services.ProvisionNewServer service "req-20" "web1" "us-east-1" "t2.micro"
      store_one_free = (Returns (Ok server), db1)
    /\ services.TerminateServer service "req-21" server (at_time 9 db1)
       = (Returns (Ok u), db2)
    /\ map binding (ip_addresses db2) = [(3%N, "10.0.0.1", false, None)].
Proof.
  assert (H1 : wired service) by (split; reflexivity).
  assert (H2 : faults store_one_free = []) by reflexivity.
  assert (H3 : sqlc.earliest (filter IpAddress.free (ip_addresses store_one_free))
               = Some (an_address 3 "10.0.0.1" None)) by reflexivity.
  assert (H4 : fits 255 ("web1" ++ "_" ++ IpAddress.Address (an_address 3 "10.0.0.1" None))
               && fits 100 "us-east-1" && fits 15 util.ServerStatusProvisioning
               && fits 10 "t2.micro"
               && fits 15 (IpAddress.Address (an_address 3 "10.0.0.1" None)) = true)
    by reflexivity.
  destruct (provision_then_terminate_restores_the_pool service "req-20" "req-21"
              "web1" "us-east-1" "t2.micro" store_one_free
              (an_address 3 "10.0.0.1" None) 9 H1 H2 store_one_free_consistent H3 H4)
    as (server & db1 & u & db2 & E1 & E2 & _ & B & _).
  exists server, db1, u, db2. split; [exact E1|]. split; [exact E2 | exact B].
Defined.

(** ** Trial runs *)

Example parse_prefix_24 :
  netip.ParsePrefix "192.168.0.0/24" = Ok (netip.PrefixFrom (netip.V4 3232235520) 24).
Proof. reflexivity. Qed.

Example parse_addr_leading_zero : is_ok (netip.ParseAddr "192.168.0.01") = false.
Proof. reflexivity. Qed.

Example pool_of_a_small_block :
  map IpAddress.Address
      (ip_addresses (snd (pool.TerminateAllServers allocator "" "10.0.0.0/30"
                            ["10.0.0.2"] empty_store)))
  = ["10.0.0.1"; "10.0.0.3"].
Proof. vm_compute. reflexivity. Qed.

(** A provisioning request on a pool of one address: the server comes back
    provisioning, owning the address, with one log entry. *)
Example provision_then_terminate :
  match services.ProvisionNewServer service "req-12" "web1" "us-east-1" "t2.micro"
          store_one_free with
  | (Returns (Ok server), db1) =>
      Server.Status server = "provisioning"
      /\ Server.Address server = "10.0.0.1"
      /\ map IpAddress.ServerID (ip_addresses db1) = [Some (Server.ID server)]
      /\ option_map (fun r => List.length (Server.LifecycleLogs r))
           (row (Server.ID server) db1) = Some 1%nat
      /\ match services.TerminateServer service "req-13" server db1 with
         | (Returns (Ok terminated), db2) =>
             Server.Status terminated = "terminated"
             /\ map IpAddress.free (ip_addresses db2) = [true]
         | _ => False
         end
  | _ => False
  end.
Proof. vm_compute. repeat split; reflexivity. Qed.

(** A terminate request whose log append is failed by the store still
    returns the terminated server. *)
Example terminate_survives_a_failed_log_append :
  match services.TerminateServer service "req-14" srv7
          (failing [None; None; None; Some "connection lost"] store_bound) with
  | (Returns (Ok terminated), db2) =>
      Server.Status terminated = "terminated"
      /\ option_map Server.LifecycleLogs (row 7 db2) = Some []
  | _ => False
  end.
Proof. vm_compute. repeat split; reflexivity. Qed.
